(** * tornado-rest-framework: query-criteria compiler and relation serializer

    A shallow embedding of [query.py] and [serialize.py].

    - JSON-like Python values are the inductive [pyval]; a [dict] is an
      association list in insertion order, compared by [py_eq] whatever
      the order of its keys; the [set] of strings of [get_include_mask]
      is a [gset], the [set] of mapped objects of [serialize_relations] a
      list without repetition.
    - A raised exception is the [Raise] case of [result]; loops that append
      to a list are [mapM]-style folds that stop at the first exception.
    - The compilers recurse on documents that they build themselves, so
      they are defined with fuel; [weight] bounds the fuel they need, and
      the functions that carry the names of the source run them with it.
    - SQLAlchemy's expression constructors ([and_], [or_], [not_], [any],
      [exists], the comparison operators) are the constructors of [expr];
      what such a tree means for a row is given by [holds], over an
      arbitrary interpretation of the atomic comparisons and of the joins. *)

From stdpp Require Import gmap strings list.
From Stdlib Require Import QArith Ascii.

Set Warnings "-register-all".
Local Close Scope Q_scope.
Local Open Scope string_scope.
Local Open Scope list_scope.

(** ** Python values *)

Inductive pyval :=
| PNone
| PBool (b : bool)
| PInt (z : Z)
| PFloat (q : Q)
| PStr (s : string)
| PList (l : list pyval)
| PDict (kvs : list (string * pyval)).

Inductive exn :=
| ValueError (msg : string)
| AttributeError (msg : string)
| TypeError (msg : string)
| KeyError (key : string)
| IndexError (msg : string)
| ArgumentError (msg : string)
| InvalidRequestError (msg : string)
| RecursionError.

Inductive result (A : Type) :=
| Ok (a : A)
| Raise (e : exn).
Arguments Ok {A} a.
Arguments Raise {A} e.

Definition res_bind {A B} (m : result A) (f : A -> result B) : result B :=
  match m with
  | Ok a => f a
  | Raise e => Raise e
  end.

Notation "'do' x <- m ; k" := (res_bind m (fun x => k))
  (at level 10, x pattern, m at level 100, k at level 200).

(** [for x in l: ys.append(f(x))], stopping at the first exception. *)
Fixpoint res_mapM {A B} (f : A -> result B) (l : list A) : result (list B) :=
  match l with
  | [] => Ok []
  | x :: l' => do y <- f x; do ys <- res_mapM f l'; Ok (y :: ys)
  end.

(** A computation that may also run out of recursion fuel ([None]). *)
Definition fueled (A : Type) := option (result A).

Definition fbind {A B} (m : fueled A) (f : A -> fueled B) : fueled B :=
  match m with
  | None => None
  | Some (Raise e) => Some (Raise e)
  | Some (Ok a) => f a
  end.

Definition fret {A} (a : A) : fueled A := Some (Ok a).
Definition fraise {A} (e : exn) : fueled A := Some (Raise e).
Definition flift {A} (m : result A) : fueled A := Some m.

(** The result of a computation that was given enough fuel. *)
Definition run {A} (m : fueled A) : result A :=
  match m with
  | Some r => r
  | None => Raise RecursionError
  end.

Notation "'fdo' x <- m ; k" := (fbind m (fun x => k))
  (at level 10, x pattern, m at level 100, k at level 200).

Fixpoint fmapM {A B} (f : A -> fueled B) (l : list A) : fueled (list B) :=
  match l with
  | [] => fret []
  | x :: l' => fdo y <- f x; fdo ys <- fmapM f l'; fret (y :: ys)
  end.

(** ** Strings *)

Definition dot : ascii := "."%char.

(** [s.split('.')] *)
Fixpoint split_dot (s : string) : list string :=
  match s with
  | EmptyString => [EmptyString]
  | String c s' =>
      if Ascii.eqb c dot then EmptyString :: split_dot s'
      else match split_dot s' with
           | seg :: rest => String c seg :: rest
           | [] => [String c EmptyString]
           end
  end.

(** [s.split('.', 1)]: the text before the first dot and, when there is a
    dot, the text after it. *)
Fixpoint split_dot1 (s : string) : string * option string :=
  match s with
  | EmptyString => (EmptyString, None)
  | String c s' =>
      if Ascii.eqb c dot then (EmptyString, Some s')
      else let '(h, t) := split_dot1 s' in (String c h, t)
  end.

(** ['.'.join(l)] *)
Fixpoint join_dot (l : list string) : string :=
  match l with
  | [] => ""
  | [s] => s
  | s :: l' => s +:+ "." +:+ join_dot l'
  end.

Fixpoint has_dot (s : string) : bool :=
  match s with
  | EmptyString => false
  | String c s' => Ascii.eqb c dot || has_dot s'
  end.

Fixpoint count_dots (s : string) : nat :=
  match s with
  | EmptyString => 0
  | String c s' => (if Ascii.eqb c dot then 1 else 0) + count_dots s'
  end.

(** The characters of a string, as Python iterates over them. *)
Fixpoint chars (s : string) : list string :=
  match s with
  | EmptyString => []
  | String c s' => String c EmptyString :: chars s'
  end.

(** ** Dictionaries in insertion order *)

Section Dict.
Context {V : Type}.

(** [d.get(k)] *)
Fixpoint dict_get (k : string) (d : list (string * V)) : option V :=
  match d with
  | [] => None
  | (k', v) :: d' => if String.eqb k k' then Some v else dict_get k d'
  end.

(** [d[k] = v]: an existing key keeps its position. *)
Fixpoint dict_set (k : string) (v : V) (d : list (string * V)) : list (string * V) :=
  match d with
  | [] => [(k, v)]
  | (k', v') :: d' =>
      if String.eqb k k' then (k, v) :: d' else (k', v') :: dict_set k v d'
  end.

(** What [d.pop(k)] leaves behind. *)
Fixpoint dict_remove (k : string) (d : list (string * V)) : list (string * V) :=
  match d with
  | [] => []
  | (k', v') :: d' =>
      if String.eqb k k' then d' else (k', v') :: dict_remove k d'
  end.

(** [k in d] *)
Definition dict_mem (k : string) (d : list (string * V)) : bool :=
  match dict_get k d with Some _ => true | None => false end.

End Dict.

(** [x in l] for a list of strings. *)
Definition str_in (x : string) (l : list string) : bool :=
  existsb (String.eqb x) l.

(** [criteria.items()]: only a [dict] has the method. *)
Definition dict_items (v : pyval) : result (list (string * pyval)) :=
  match v with
  | PDict kvs => Ok kvs
  | _ => Raise (AttributeError "object has no attribute 'items'")
  end.

(** [for item in v]: a list gives its elements, a dict its keys, a string
    its characters; nothing else is iterable. *)
Definition py_iter (v : pyval) : result (list pyval) :=
  match v with
  | PList l => Ok l
  | PDict kvs => Ok (map (fun kv => PStr (fst kv)) kvs)
  | PStr s => Ok (map PStr (chars s))
  | _ => Raise (TypeError "object is not iterable")
  end.

Definition is_dict (v : pyval) : bool :=
  match v with PDict _ => true | _ => false end.

(** ** Schema and expression trees *)

Inductive direction := ONETOMANY | MANYTOONE | MANYTOMANY.

(** The parts of a [RelationshipProperty] that the code reads:
    [direction], [mapper.class_], [uselist], the keys of [local_columns]
    and the column names of [local_remote_pairs]. *)
Record relationship_property := {
  rel_direction : direction;
  rel_class : string;
  rel_uselist : bool;
  rel_local_columns : list string;
  rel_local_remote_pairs : list (string * string)
}.

(** What [getattr(model_class, name)] can give, and the scalar subquery
    that [length_operator] builds. *)
Inductive attribute :=
| ColumnAttr (owner key : string)
| RelationshipAttr (owner key : string) (prop : relationship_property)
| AssociationProxy (owner key : string) (local_attr remote_attr : attribute)
| CountScalar (where_ : attribute).

Inductive primop := OpEq | OpNe | OpLt | OpLe | OpGt | OpGe | OpIn | OpILike.

(** The calls that build a predicate: [EAnd es] is [and_] applied to the
    expressions [es], [EAny a e]
    is [a.any(e)], [EExists t a e] is
    [Query(t).filter(a.expression).filter(e).exists()]. *)
Inductive expr :=
| EPrim (op : primop) (a : attribute) (operand : pyval)
| EAny (a : attribute) (e : expr)
| EExists (target : string) (a : attribute) (e : expr)
| ENot (e : expr)
| EAnd (es : list expr)
| EOr (es : list expr).

(** [a.key]; the key of an association proxy is taken to be its name. *)
Definition attribute_key (a : attribute) : string :=
  match a with
  | ColumnAttr _ k => k
  | RelationshipAttr _ k _ => k
  | AssociationProxy _ k _ _ => k
  | CountScalar _ => ""
  end.

(** [hasattr(a, 'property') and isinstance(a.property, ColumnProperty)
    or isinstance(a, ColumnElement)] *)
Definition is_column_or_element (a : attribute) : bool :=
  match a with
  | ColumnAttr _ _ | CountScalar _ => true
  | _ => false
  end.

(** [a.property], which only mapped attributes have. *)
Definition property (a : attribute) : result attribute :=
  match a with
  | ColumnAttr _ _ | RelationshipAttr _ _ _ => Ok a
  | _ => Raise (AttributeError "object has no attribute 'property'")
  end.

(** [isinstance(a.property, ColumnProperty)] *)
Definition is_column (a : attribute) : bool :=
  match a with ColumnAttr _ _ => true | _ => false end.

(** [isinstance(a.property, RelationshipProperty) and
    a.property.direction in (ONETOMANY, MANYTOMANY)] *)
Definition is_to_many (a : attribute) : bool :=
  match a with
  | RelationshipAttr _ _ p =>
      match rel_direction p with
      | ONETOMANY | MANYTOMANY => true
      | MANYTOONE => false
      end
  | _ => false
  end.

(** The target class when [a.property] is a many-to-one relationship. *)
Definition many_to_one_target (a : attribute) : option string :=
  match a with
  | RelationshipAttr _ _ p =>
      match rel_direction p with
      | MANYTOONE => Some (rel_class p)
      | _ => None
      end
  | _ => None
  end.

(** [a.property.mapper.class_] *)
Definition mapper_class (a : attribute) : result string :=
  match a with
  | RelationshipAttr _ _ p => Ok (rel_class p)
  | _ => Raise (AttributeError "object has no attribute 'mapper'")
  end.

(** [operator.lt(attr, operand)] and the like, and [attr.ilike(operand)]:
    of the comparisons only [==] and [!=] take [None], [True] or [False],
    any other raises [sqlalchemy.exc.ArgumentError]. *)
Definition compare (op : primop) (attr : attribute) (operand : pyval)
    : result expr :=
  match operand with
  | PNone | PBool _ =>
      Raise (ArgumentError
        "Only '=', '!=', 'is_()', 'isnot()' operators can be used with None/True/False")
  | _ => Ok (EPrim op attr operand)
  end.

(** [attr.in_(operand)]: the operand is iterated over, which raises
    [TypeError] when it is not iterable. *)
Definition in_ (attr : attribute) (operand : pyval) : result expr :=
  do _ <- py_iter operand; Ok (EPrim OpIn attr operand).

Definition primitive_operators
  : list (string * (attribute -> pyval -> result expr)) :=
  [ ("$eq", fun attr operand => Ok (EPrim OpEq attr operand));
    ("$ne", fun attr operand => Ok (EPrim OpNe attr operand));
    ("$lt", compare OpLt); ("$lte", compare OpLe);
    ("$gt", compare OpGt); ("$gte", compare OpGe);
    ("$in", in_);
    ("$nin", fun attr operand => do e <- in_ attr operand; Ok (ENot e));
    ("$like", compare OpILike) ].

(** [attr.any(criterion)] on a relationship attribute: only a collection
    ([uselist]) has it, a scalar attribute raises
    [sqlalchemy.exc.InvalidRequestError]. *)
Definition any_ (attr : attribute) (criterion : expr) : result expr :=
  match attr with
  | RelationshipAttr _ _ p =>
      if rel_uselist p then Ok (EAny attr criterion)
      else Raise (InvalidRequestError
             "'any()' not implemented for scalar attributes. Use has().")
  | _ => Ok (EAny attr criterion)
  end.

(** [{chain[-1]: ... {chain[1]: attr_criteria}}], built by the loop over
    [reversed(chain[1:])]. *)
Definition wrap_chain (chain : list string) (attr_criteria : pyval) : pyval :=
  fold_left (fun c chain_attr => PDict [(chain_attr, c)]) (reverse (tail chain))
    attr_criteria.

Definition implicit_eq (operand : pyval) : pyval :=
  if is_dict operand then operand else PDict [("$eq", operand)].

Definition logical_operators
  : list (string * ((pyval -> fueled expr) -> pyval -> fueled expr)) :=
  [ ("$or", fun fn clauses =>
       fdo items <- flift (py_iter clauses);
       fdo es <- fmapM fn items; fret (EOr es));
    ("$and", fun fn clauses =>
       fdo items <- flift (py_iter clauses);
       fdo es <- fmapM fn items; fret (EAnd es));
    ("$not", fun fn clause => fdo e <- fn clause; fret (ENot e)) ].

Section Compiler.

(** [getattr(model_class, name)] over the mapped classes. *)
Variable getattr : string -> string -> option attribute.

Definition getattr_or_raise (model name : string) : result attribute :=
  match getattr model name with
  | Some a => Ok a
  | None => Raise (AttributeError
      ("type object '" +:+ model +:+ "' has no attribute '" +:+ name +:+ "'"))
  end.

Section Operators.
Variable get_filter_expr : string -> pyval -> fueled expr.
Variable get_attribute_filter_expr :
  attribute -> pyval -> option string -> fueled expr.

Definition length_operator (attr : attribute) (criteria : pyval) : fueled expr :=
  let criteria := implicit_eq criteria in
  let attr := match attr with
              | AssociationProxy _ _ local_attr _ => local_attr
              | _ => attr
              end in
  get_attribute_filter_expr (CountScalar attr) criteria
    (Some (attribute_key attr +:+ "$length")).

Definition relationship_operators
  : list (string * (attribute -> pyval -> fueled expr)) :=
  [ ("$any", fun attr criteria =>
       fdo cls <- flift (mapper_class attr);
       fdo e <- get_filter_expr cls criteria; flift (any_ attr e));
    ("$all", fun attr criteria =>
       fdo cls <- flift (mapper_class attr);
       fdo e <- get_filter_expr cls criteria;
       fdo a <- flift (any_ attr (ENot e)); fret (ENot a));
    ("$length", length_operator) ].

Definition remote_attr (a : attribute) : result attribute :=
  match a with
  | AssociationProxy _ _ _ r => Ok r
  | _ => Raise (AttributeError "object has no attribute 'remote_attr'")
  end.

Definition association_proxy_operators
  : list (string * (attribute -> pyval -> fueled expr)) :=
  [ ("$any", fun attr criteria =>
       fdo r <- flift (remote_attr attr);
       fdo e <- get_attribute_filter_expr r criteria None;
       fret (EAny attr e));
    ("$all", fun attr criteria =>
       fdo r <- flift (remote_attr attr);
       fdo e <- get_attribute_filter_expr r criteria None;
       fret (ENot (EAny attr (ENot e))));
    ("$length", length_operator) ].

(** The body of the loop of [get_attribute_filter_expr]. *)
Definition attribute_clause (attribute : attribute) (key op : string)
    (operand : pyval) : fueled expr :=
  match dict_get op primitive_operators with
  | Some f =>
      if is_column_or_element attribute then flift (f attribute operand)
      else fraise (ValueError ("Can't use primitive operator '" +:+ op
             +:+ "' on '" +:+ key +:+ "': not a column"))
  | None =>
  match dict_get op relationship_operators with
  | Some f =>
      match attribute with
      | AssociationProxy _ _ _ _ =>
          match dict_get op association_proxy_operators with
          | Some g => g attribute operand
          | None => fraise (KeyError op)
          end
      | _ =>
          fdo _ <- flift (property attribute);
          if is_to_many attribute then f attribute operand
          else fraise (ValueError ("Can't use '" +:+ op +:+ "' operator on '"
                 +:+ key +:+ "': not a *-to-many relation nor association proxy"))
      end
  | None =>
  match dict_get op logical_operators with
  | Some f =>
      f (fun item => get_attribute_filter_expr attribute item (Some key)) operand
  | None =>
      let chain := split_dot op in
      let field := hd "" chain in
      fdo _ <- flift (property attribute);
      match many_to_one_target attribute with
      | None => fraise (ValueError ("Can't get '" +:+ field +:+ "' subfield from '"
                  +:+ key +:+ "': not a many-to-one relation"))
      | Some target_class =>
          fdo attr <- flift (getattr_or_raise target_class field);
          let attr_criteria := wrap_chain chain (implicit_eq operand) in
          fdo e <- get_attribute_filter_expr attr attr_criteria (Some field);
          fret (EExists target_class attribute e)
      end
  end end end.

(** The body of the loop of [get_filter_expr]. *)
Definition filter_clause (model op : string) (operand : pyval) : fueled expr :=
  if dict_mem op primitive_operators || dict_mem op relationship_operators
  then fraise (ValueError ("Can't use operator '" +:+ op +:+ "' on the top level"))
  else
  match dict_get op logical_operators with
  | Some f => f (get_filter_expr model) operand
  | None =>
      let chain := split_dot op in
      fdo attr <- flift (getattr_or_raise model (hd "" chain));
      let attr_criteria := wrap_chain chain (implicit_eq operand) in
      get_attribute_filter_expr attr attr_criteria (Some (hd "" chain))
  end.

End Operators.

Fixpoint get_attribute_filter_expr_fuel (fuel : nat) (attribute : attribute)
    (criteria : pyval) (key : option string) {struct fuel} : fueled expr :=
  match fuel with
  | 0 => None
  | S fuel =>
      let key := default (attribute_key attribute) key in
      fdo items <- flift (dict_items criteria);
      fdo exprs <- fmapM (fun kv =>
          attribute_clause (get_filter_expr_fuel fuel)
            (get_attribute_filter_expr_fuel fuel) attribute key kv.1 kv.2) items;
      fret (EAnd exprs)
  end
with get_filter_expr_fuel (fuel : nat) (model : string) (criteria : pyval)
    {struct fuel} : fueled expr :=
  match fuel with
  | 0 => None
  | S fuel =>
      fdo items <- flift (dict_items criteria);
      fdo exprs <- fmapM (fun kv =>
          filter_clause (get_filter_expr_fuel fuel)
            (get_attribute_filter_expr_fuel fuel) model kv.1 kv.2) items;
      fret (EAnd exprs)
  end.

(** A bound on the depth of the calls that a criteria document causes: a
    dotted key stands for as many nested documents as it has dots, and the
    operand of a primitive operator is never compiled. *)
Fixpoint weight (v : pyval) : nat :=
  match v with
  | PList l =>
      S ((fix sum (l : list pyval) : nat :=
            match l with
            | [] => 0
            | x :: l' => weight x + sum l'
            end) l)
  | PDict kvs =>
      S ((fix sum (kvs : list (string * pyval)) : nat :=
            match kvs with
            | [] => 0
            | (k, x) :: kvs' =>
                (if dict_mem k primitive_operators then 0
                 else count_dots k + weight x) + sum kvs'
            end) kvs)
  | _ => 1
  end.

Definition get_attribute_filter_expr (attribute : attribute) (criteria : pyval)
    (key : option string) : result expr :=
  run (get_attribute_filter_expr_fuel (S (weight criteria)) attribute criteria key).

Definition get_filter_expr (model : string) (criteria : pyval) : result expr :=
  run (get_filter_expr_fuel (S (weight criteria)) model criteria).

(** *** Ordering *)

(** [order_by[0]] and [order_by[1:]] on a string; anything else that
    [json.loads] can give fails here or at [field_chain.split]. *)
Definition get_direction (order_by : pyval) : result (string * Z) :=
  match order_by with
  | PStr EmptyString => Raise (IndexError "string index out of range")
  | PStr (String c rest as s) =>
      if Ascii.eqb c "-"%char then Ok (rest, (-1)%Z)
      else if Ascii.eqb c "+"%char then Ok (rest, 1%Z)
      else Ok (s, 1%Z)
  | PList [] => Raise (IndexError "list index out of range")
  | PList _ => Raise (AttributeError "'list' object has no attribute 'split'")
  | PDict _ => Raise (KeyError "0")
  | _ => Raise (TypeError "object is not subscriptable")
  end.

(** A mapped class, or the [n]-th alias made by [aliased(cls)]. *)
Inductive entity :=
| Mapped (cls : string)
| Aliased (cls : string) (n : nat).

Inductive ordering :=
| Asc (e : entity) (a : attribute)
| Desc (e : entity) (a : attribute).

(** An entry [(alias, attr)] of [joins]; [attr] belongs to [from]. *)
Record join := { join_alias : entity; join_from : entity; join_attr : attribute }.

(** The loop over [enumerate(fields[1:])]: [i] is the index, [rest] what
    is left of [fields[1:]], [ent] and [attr] the current attribute and
    the class or alias it was taken from. *)
Fixpoint order_by_chain (fields : list string) (i : nat) (rest : list string)
    (ent : entity) (attr : attribute) (joins : list join)
    : result (entity * attribute * list join) :=
  match rest with
  | [] => Ok (ent, attr, joins)
  | field :: rest' =>
      do _ <- property attr;
      match many_to_one_target attr with
      | None => Raise (ValueError ("'" +:+ join_dot (take (S i) fields)
                  +:+ "' is not a many-to-one relation"))
      | Some cls =>
          let alias := Aliased cls (length joins) in
          let joins := joins ++ [{| join_alias := alias; join_from := ent;
                                    join_attr := attr |}] in
          do attr' <- getattr_or_raise cls field;
          order_by_chain fields (S i) rest' alias attr' joins
      end
  end.

(** The body of the loop of [get_order_by]. *)
Definition order_by_item (model : string) (item : pyval)
    (st : list ordering * list join) : result (list ordering * list join) :=
  let '(orderings, joins) := st in
  do (field_chain, direction) <- get_direction item;
  let fields := split_dot field_chain in
  do attr <- getattr_or_raise model (hd "" fields);
  do (ent, attr, joins) <-
    order_by_chain fields 0 (tail fields) (Mapped model) attr joins;
  do _ <- property attr;
  if negb (is_column attr)
  then Raise (ValueError ("'" +:+ field_chain +:+ "' is not a column"))
  else if (0 <? direction)%Z
       then Ok (orderings ++ [Asc ent attr], joins)
       else Ok (orderings ++ [Desc ent attr], joins).

Fixpoint order_by_loop (model : string) (items : list pyval)
    (st : list ordering * list join) : result (list ordering * list join) :=
  match items with
  | [] => Ok st
  | item :: items' =>
      do st' <- order_by_item model item st; order_by_loop model items' st'
  end.

Definition get_order_by (model : string) (order_by : pyval)
    : result (list ordering * list join) :=
  let order_by := match order_by with
                  | PList l => l
                  | _ => [order_by]
                  end in
  order_by_loop model order_by ([], []).

End Compiler.

(** ** What a compiled predicate means

    A row satisfies [attr.any(e)], or the [exists()] subquery joined
    through [attr], when one of the rows related to it through [attr]
    satisfies [e]; [and_], [or_] and [not_] are the connectives, the empty
    conjunction being true. The atomic comparisons and the joins are
    arbitrary. This is how the database reads the trees that are
    [well_rendered] below; of a clause list without clauses under [not_] or
    in [or_] it makes something else. *)
Section Semantics.
Variable row : Type.
Variable prim_holds : primop -> attribute -> pyval -> row -> bool.
Variable related : attribute -> row -> list row.

Fixpoint holds (e : expr) (r : row) {struct e} : bool :=
  match e with
  | EPrim op a v => prim_holds op a v r
  | EAny a e' => existsb (holds e') (related a r)
  | EExists _ a e' => existsb (holds e') (related a r)
  | ENot e' => negb (holds e' r)
  | EAnd es =>
      (fix all (es : list expr) : bool :=
         match es with
         | [] => true
         | e' :: es' => holds e' r && all es'
         end) es
  | EOr es =>
      (fix some (es : list expr) : bool :=
         match es with
         | [] => false
         | e' :: es' => holds e' r || some es'
         end) es
  end.

End Semantics.

(** ** What the database makes of a predicate

    [and_()] and [or_()] without clauses render no text, and a clause list
    all of whose clauses are such renders no condition either: no text, or
    parentheses around none. A clause without text is left out of the text
    of the [and_] around it and of the condition of [any] and of a filter,
    which is the reading of [holds]: true. In an [or_] it is left out too,
    and under [not_] it leaves a [NOT] without operand, which the database
    rejects: there [holds] is not the reading of the database. *)
Fixpoint renders_nothing (e : expr) : bool :=
  match e with
  | EAnd es | EOr es => forallb renders_nothing es
  | _ => false
  end.

(** Some [not_] of the tree stands over a clause that renders nothing:
    the database rejects the query. *)
Fixpoint bare_not (e : expr) : bool :=
  match e with
  | EPrim _ _ _ => false
  | EAny _ e' | EExists _ _ e' => bare_not e'
  | ENot e' => renders_nothing e' || bare_not e'
  | EAnd es | EOr es => existsb bare_not es
  end.

(** The trees that [holds] reads as the database does: no [not_] and no
    [or_] has a clause that renders nothing, and no [or_] is without
    clauses. *)
Fixpoint well_rendered (e : expr) : bool :=
  match e with
  | EPrim _ _ _ => true
  | EAny _ e' | EExists _ _ e' => well_rendered e'
  | ENot e' => negb (renders_nothing e') && well_rendered e'
  | EAnd es => forallb well_rendered es
  | EOr es =>
      negb (forallb renders_nothing es)
      && forallb (fun e' => negb (renders_nothing e') && well_rendered e') es
  end.

(** The database reads the predicate as [holds] does, and it is true of
    every row. *)
Definition always_true (e : expr) : Prop :=
  well_rendered e = true /\
  forall (row : Type) (prim_holds : primop -> attribute -> pyval -> row -> bool)
    (related : attribute -> row -> list row) (r : row),
    holds row prim_holds related e r = true.

(** ** Python equality and truth *)

Definition num_of (v : pyval) : option Q :=
  match v with
  | PBool b => Some (if b then 1%Q else 0%Q)
  | PInt z => Some (inject_Z z)
  | PFloat q => Some q
  | _ => None
  end.

(** [a == b]: numbers compare by value across [bool], [int] and [float],
    lists element by element, and dicts as maps, whatever the order of
    their keys. *)
Fixpoint py_eq (a b : pyval) {struct a} : bool :=
  match a, b with
  | PNone, PNone => true
  | PStr s, PStr t => String.eqb s t
  | PList l, PList l' =>
      (fix eql (l l' : list pyval) : bool :=
         match l, l' with
         | [], [] => true
         | x :: r, y :: r' => py_eq x y && eql r r'
         | _, _ => false
         end) l l'
  | PDict d, PDict d' =>
      Nat.eqb (length d) (length d') &&
      (fix all (d : list (string * pyval)) : bool :=
         match d with
         | [] => true
         | (k, v) :: r =>
             match dict_get k d' with
             | Some v' => py_eq v v'
             | None => false
             end && all r
         end) d
  | _, _ =>
      match num_of a, num_of b with
      | Some x, Some y => Qeq_bool x y
      | _, _ => false
      end
  end.

(** [bool(v)] *)
Definition py_truthy (v : pyval) : bool :=
  match v with
  | PNone => false
  | PBool b => b
  | PInt z => negb (Z.eqb z 0)
  | PFloat q => negb (Qeq_bool q 0)
  | PStr s => negb (String.eqb s "")
  | PList l => negb (Nat.eqb (length l) 0)
  | PDict d => negb (Nat.eqb (length d) 0)
  end.

(** [x in vals] for a list of values: [any(x == e for e in vals)]. *)
Definition py_in (x : pyval) (vals : list pyval) : bool :=
  existsb (fun e => py_eq x e) vals.

(** [d.get(key)] for a key that is itself a Python value. *)
Definition py_dict_get (d : list (string * pyval)) (key : pyval) : result pyval :=
  match key with
  | PStr k => Ok (default PNone (dict_get k d))
  | PList _ | PDict _ => Raise (TypeError "unhashable type")
  | _ => Ok PNone
  end.

(** ** Entities and serialized relations *)

(** The value of a column attribute of an entity: a JSON-like value, a
    [datetime] or [date] with its [isoformat()], or a [Decimal] with the
    number that [float()] makes of it. *)
Inductive colval :=
| CVal (v : pyval)
| CDateTime (iso : string)
| CDecimal (q : Q).

(** A mapped object: its identity, its class, the values of its column and
    association-proxy attributes and of its relationship attributes. *)
Inductive obj :=
| Obj (oid : nat) (cls : string) (cols : list (string * colval))
    (rels : list (string * relval))
with relval :=
| RNone
| ROne (o : obj)
| RMany (os : list obj).

Definition obj_id (o : obj) : nat := match o with Obj i _ _ _ => i end.
Definition obj_class (o : obj) : string := match o with Obj _ c _ _ => c end.
Definition obj_cols (o : obj) := match o with Obj _ _ c _ => c end.
Definition obj_rels (o : obj) := match o with Obj _ _ _ r => r end.

(** The [_meta] entry of a relation record. *)
Record relmeta := {
  meta_pk : string;
  meta_fk : pyval;
  meta_fk_pair : pyval;
  meta_m2m : bool;
  meta_o2o : bool;
  meta_m2o : bool;
  meta_o2m : bool
}.

(** A relation record [{'_items': .., '_relations': .., '_meta': ..}];
    [_meta] is there when [serialize_relations] was asked for it. *)
Inductive relrec :=
| RelRec (items : list pyval) (relations : list (string * relrec))
    (meta : option relmeta).

Definition rec_items (v : relrec) := match v with RelRec i _ _ => i end.
Definition rec_relations (v : relrec) := match v with RelRec _ r _ => r end.
Definition rec_meta (v : relrec) := match v with RelRec _ _ m => m end.

(** [fields_conf]: the field lists under ['exclude'] and the field lists
    under the class names. *)
Record fields_conf := {
  fc_exclude : list (string * list string);
  fc_fields : list (string * list string)
}.

(** [s.add(o)] and [s.update(os)] on a set of mapped objects, which hash
    by identity; the set is kept in insertion order. *)
Definition set_add (o : obj) (s : list obj) : list obj :=
  if existsb (fun o' => Nat.eqb (obj_id o') (obj_id o)) s then s else s ++ [o].

Definition set_update (os : list obj) (s : list obj) : list obj :=
  fold_left (fun s o => set_add o s) os s.

(** ** serialize.py *)

Section Serializer.

(** [getattr(model_class, name)], [class_mapper(cls).all_orm_descriptors]
    and [class_mapper(cls).primary_key] (the keys of its columns). *)
Variable getattr : string -> string -> option attribute.
Variable all_orm_descriptors : string -> list (string * attribute).
Variable primary_key : string -> list string.

(** Whether [desc.local_attr] can be read on the association proxy that
    [all_orm_descriptors] gives under a key of a class: the proxy reads it
    from the class that owns it, and raises [AttributeError] while it does
    not know that class. It is taken not to change during a call. *)
Variable local_attr_readable : string -> string -> bool.

Definition is_association_proxy (a : attribute) : bool :=
  match a with AssociationProxy _ _ _ _ => true | _ => false end.

Definition get_column_mapping (model_class : string) : list (string * string) :=
  fold_left (fun ret kc =>
      let '(key, column) := kc in
      if is_association_proxy column then dict_set key key ret
      else if is_column column then dict_set (attribute_key column) key ret
      else ret)
    (all_orm_descriptors model_class) [].

(** The value that [serialize] stores for one attribute. *)
Definition serialize_value (proxy : bool) (value : colval) : result pyval :=
  if proxy then
    match value with
    | CVal v => do l <- py_iter v; Ok (PList l)
    | _ => Raise (TypeError "object is not iterable")
    end
  else
    match value with
    | CVal v => Ok v
    | CDateTime iso => Ok (PStr iso)
    | CDecimal q => Ok (PFloat q)
    end.

(** The first loop of [serialize], over [column_mapping.items()]. *)
Fixpoint serialize_fields (model : obj) (exclude_fields fields : list string)
    (column_mapping : list (string * string)) (ret : list (string * pyval))
    : result (list (string * pyval)) :=
  match column_mapping with
  | [] => Ok ret
  | (field, attr) :: rest =>
      match dict_get attr (obj_cols model) with
      | None => Raise (AttributeError
                  ("object has no attribute '" +:+ attr +:+ "'"))
      | Some value =>
          do cattr <- getattr_or_raise getattr (obj_class model) attr;
          do value <- serialize_value (is_association_proxy cattr) value;
          let ret :=
            if negb (str_in field exclude_fields) then
              match fields with
              | [] => dict_set field value ret
              | _ => if str_in field fields then dict_set field value ret
                     else ret
              end
            else ret in
          serialize_fields model exclude_fields fields rest ret
      end
  end.

(** [rel_item.get(key)] *)
Definition rel_item_get (rel_item key : pyval) : result pyval :=
  match rel_item with
  | PDict d => py_dict_get d key
  | _ => Raise (AttributeError "object has no attribute 'get'")
  end.

(** [item.pop(key)] *)
Definition item_pop (item : list (string * pyval)) (key : pyval)
    : result (list (string * pyval)) :=
  match key with
  | PStr k => if dict_mem k item then Ok (dict_remove k item)
              else Raise (KeyError k)
  | PList _ | PDict _ => Raise (TypeError "unhashable type")
  | _ => Raise (KeyError "")
  end.

(** [item.setdefault(k, []).append(rel_item)] *)
Definition item_append (item : list (string * pyval)) (k : string)
    (rel_item : pyval) : result (list (string * pyval)) :=
  match dict_get k item with
  | None => Ok (dict_set k (PList [rel_item]) item)
  | Some (PList l) => Ok (dict_set k (PList (l ++ [rel_item])) item)
  | Some _ => Raise (AttributeError "object has no attribute 'append'")
  end.

(** The loop over [rel_items] of a one-to-many relation that is not
    one-to-one. *)
Fixpoint attach_many (k : string) (meta : relmeta) (rel_items : list pyval)
    (item : list (string * pyval)) : result (list (string * pyval)) :=
  match rel_items with
  | [] => Ok item
  | rel_item :: rest =>
      do x <- py_dict_get item (meta_fk meta);
      do y <- rel_item_get rel_item (meta_fk_pair meta);
      do item <- (if py_eq x y then item_append item k rel_item else Ok item);
      attach_many k meta rest item
  end.

(** The loop over [rel_items] of a one-to-one relation. *)
Fixpoint attach_one (k : string) (meta : relmeta) (rel_items : list pyval)
    (item : list (string * pyval)) : result (list (string * pyval)) :=
  match rel_items with
  | [] => Ok item
  | rel_item :: rest =>
      do _ <- (if is_dict rel_item || match rel_item with PList _ => true | _ => false end
               then Ok tt
               else Raise (AttributeError "object has no attribute 'copy'"));
      do x <- py_dict_get item (meta_fk meta);
      do y <- rel_item_get rel_item (meta_fk_pair meta);
      do item <- (if py_eq x y
                  then do item <- item_pop item (meta_fk meta);
                       Ok (dict_set k rel_item item)
                  else Ok item);
      attach_one k meta rest item
  end.

(** The body of the loop of [serialize] over [relations.items()]. *)
Definition serialize_relation (item : list (string * pyval)) (k : string)
    (v : relrec) : result (list (string * pyval)) :=
  match rec_meta v with
  | None => Raise (AttributeError "'NoneType' object has no attribute 'get'")
  | Some meta =>
      if py_truthy (meta_fk meta) && py_truthy (meta_fk_pair meta) then
        if meta_o2m meta && negb (meta_o2o meta)
        then attach_many k meta (rec_items v) item
        else if meta_o2o meta
             then attach_one k meta (rec_items v) item
             else Ok item
      else Ok item
  end.

Fixpoint serialize_loop (relations : list (string * relrec))
    (item : list (string * pyval)) : result (list (string * pyval)) :=
  match relations with
  | [] => Ok item
  | (k, v) :: rest =>
      do item <- serialize_relation item k v; serialize_loop rest item
  end.

(** [serialize(model, fields_conf, relations)]; no class is taken to be
    named ['exclude']. *)
Definition serialize (model : obj) (conf : fields_conf)
    (relations : list (string * relrec)) : result (list (string * pyval)) :=
  let model_class := obj_class model in
  let exclude_fields := default [] (dict_get model_class (fc_exclude conf)) in
  let fields := default [] (dict_get model_class (fc_fields conf)) in
  let column_mapping := get_column_mapping model_class in
  do ret <- serialize_fields model exclude_fields fields column_mapping [];
  serialize_loop relations ret.

(** [desc.local_attr is relation]: class attributes are the same object
    when they are the same attribute of the same class. *)
Definition same_attribute (a b : attribute) : bool :=
  match a, b with
  | ColumnAttr o k, ColumnAttr o' k' => String.eqb o o' && String.eqb k k'
  | RelationshipAttr o k _, RelationshipAttr o' k' _ =>
      String.eqb o o' && String.eqb k k'
  | AssociationProxy o k _ _, AssociationProxy o' k' _ _ =>
      String.eqb o o' && String.eqb k k'
  | _, _ => false
  end.

(** The loop of [find_association_proxy] over the descriptors of the
    class. Reading [desc.local_attr] is inside a [try]: on [AttributeError]
    the function returns [None] at once, without looking at the descriptors
    that follow. *)
Fixpoint find_association_proxy_loop (model_class : string)
    (descriptors : list (string * attribute)) (relation : attribute)
    : result pyval :=
  match descriptors with
  | [] => Raise (ValueError "Could not find association proxy for relation")
  | (key, desc) :: rest =>
      match desc with
      | AssociationProxy _ _ local_attr _ =>
          if local_attr_readable model_class key then
            if same_attribute local_attr relation then Ok (PStr key)
            else find_association_proxy_loop model_class rest relation
          else Ok PNone
      | _ => find_association_proxy_loop model_class rest relation
      end
  end.

Definition find_association_proxy (model_class : string) (relation : attribute)
    : result pyval :=
  find_association_proxy_loop model_class (all_orm_descriptors model_class)
    relation.

Definition get_pk_column (model_class : string) : result string :=
  match primary_key model_class with
  | [pk] => Ok pk
  | _ => Raise (ValueError "Ambiguous primary key")
  end.

(** [foreign_key] and [fk_pair] of a relationship that is not
    many-to-many. *)
Definition local_foreign_key (p : relationship_property) : pyval * pyval :=
  let foreign_keys := rel_local_columns p in
  match foreign_keys with
  | [foreign_key] =>
      (PStr foreign_key,
       match filter (fun x => String.eqb x.1 foreign_key)
               (rel_local_remote_pairs p) with
       | pr :: _ => PStr pr.2
       | [] => PNone
       end)
  | _ => (PList (map PStr foreign_keys), PNone)
  end.

(** The related objects of [entities] through [name], as a set. *)
Fixpoint collect_relation_items (name : string) (entities : list obj)
    (relation_items : list obj) : result (list obj) :=
  match entities with
  | [] => Ok relation_items
  | item :: rest =>
      match dict_get name (obj_rels item) with
      | None => Raise (AttributeError
                  ("object has no attribute '" +:+ name +:+ "'"))
      | Some RNone => collect_relation_items name rest relation_items
      | Some (RMany os) =>
          collect_relation_items name rest (set_update os relation_items)
      | Some (ROne o) =>
          collect_relation_items name rest (set_add o relation_items)
      end
  end.

(** The flags and join fields that [serialize_relations] computes for
    one relationship attribute. *)
Definition relation_meta (model_class : string) (relation_attr : attribute)
    (p : relationship_property) (relation_pk : string) : result relmeta :=
  let is_m2m := match rel_direction p with MANYTOMANY => true | _ => false end in
  let is_m2o := match rel_direction p with MANYTOONE => true | _ => false end in
  let uselist := rel_uselist p in
  let is_o2o := if negb is_m2m then negb uselist else false in
  do keys <- (if is_m2m
              then do foreign_key <- find_association_proxy model_class relation_attr;
                   Ok (foreign_key, PNone)
              else Ok (local_foreign_key p));
  Ok {| meta_pk := relation_pk;
        meta_fk := keys.1;
        meta_fk_pair := keys.2;
        meta_m2m := is_m2m;
        meta_o2o := is_o2o;
        meta_m2o := is_m2o;
        meta_o2m := match rel_direction p with ONETOMANY => true | _ => false end |}.

(** [relation_attr.property], which must be a relationship for
    [.mapper.class_], [.direction] and [.uselist] to exist. *)
Definition relationship_of (a : attribute) : result relationship_property :=
  match a with
  | RelationshipAttr _ _ p => Ok p
  | _ => Raise (AttributeError "object has no attribute 'mapper'")
  end.

(** The loop of [serialize_relations] over the names of [include_mask];
    [rec] is the recursive call on the related class, the related objects
    and the child mask. *)
Fixpoint serialize_relations_loop
    (rec : string -> list obj -> pyval -> result (list (string * relrec)))
    (model_class : string) (entities : list obj) (conf : fields_conf)
    (meta : bool) (kvs : list (string * pyval))
    (relations : list (string * relrec)) {struct kvs}
    : result (list (string * relrec)) :=
  match kvs with
  | [] => Ok relations
  | (name, mask) :: kvs' =>
      do relation_attr <- getattr_or_raise getattr model_class name;
      do p <- relationship_of relation_attr;
      let relation_class := rel_class p in
      do relation_pk <- get_pk_column relation_class;
      do m <- relation_meta model_class relation_attr p relation_pk;
      do relation_items <- collect_relation_items name entities [];
      do rels <- rec relation_class relation_items mask;
      do items <- res_mapM (fun x => do d <- serialize x conf rels;
                                     Ok (PDict d)) relation_items;
      serialize_relations_loop rec model_class entities conf meta kvs'
        (dict_set name (RelRec items rels (if meta then Some m else None))
           relations)
  end.

Fixpoint serialize_relations (model_class : string) (entities : list obj)
    (include_mask : pyval) (conf : fields_conf) (meta : bool)
    {struct include_mask} : result (list (string * relrec)) :=
  match include_mask with
  | PDict kvs =>
      serialize_relations_loop
        (fun relation_class relation_items mask =>
           serialize_relations relation_class relation_items mask conf true)
        model_class entities conf meta kvs []
  | PList [] | PStr EmptyString => Ok []
  | _ => Raise (TypeError "include_mask is not a mapping")
  end.

End Serializer.

(** ** The many-relation lifter *)

(** [vals = many_rels.setdefault(k, [])] followed by appending to [vals]
    the items that are not in it yet. *)
Definition extend_unique (items : list pyval) (vals : list pyval) : list pyval :=
  fold_left (fun vals item => if py_in item vals then vals else vals ++ [item])
    items vals.

Definition lift_items (k : string) (items : list pyval)
    (many_rels : list (string * list pyval)) : list (string * list pyval) :=
  dict_set k (extend_unique items (default [] (dict_get k many_rels))) many_rels.

(** The loop over [new_rel.items()]. *)
Definition merge_many (new_rel many_rels : list (string * list pyval))
    : list (string * list pyval) :=
  fold_left (fun many_rels kv => lift_items kv.1 kv.2 many_rels) new_rel many_rels.

Definition is_many (m : relmeta) : bool :=
  meta_m2m m || (meta_m2o m && negb (meta_o2o m)).

(** The loop of [get_many_relations] over [serialized_relations.items()];
    [body] handles one entry. *)
Fixpoint lift_loop
    (body : string -> relrec -> list (string * list pyval)
            -> result (list (string * list pyval)))
    (serialized_relations : list (string * relrec))
    (many_rels : list (string * list pyval))
    : result (list (string * list pyval)) :=
  match serialized_relations with
  | [] => Ok many_rels
  | (k, v) :: rest =>
      do many_rels' <- body k v many_rels; lift_loop body rest many_rels'
  end.

(** The body of that loop for the entry [(k, v)]; the recursive call
    [get_many_relations(rel)] starts from an empty [many_rels]. *)
Fixpoint lift_record (k : string) (v : relrec)
    (many_rels : list (string * list pyval)) {struct v}
    : result (list (string * list pyval)) :=
  match v with
  | RelRec items rel meta =>
      match meta with
      | None => Raise (KeyError "_meta")
      | Some m =>
          let many_rels := if is_many m then lift_items k items many_rels
                           else many_rels in
          do new_rel <- lift_loop lift_record rel [];
          Ok (merge_many new_rel many_rels)
      end
  end.

Definition get_many_relations (serialized_relations : list (string * relrec))
    : result (list (string * list pyval)) :=
  lift_loop lift_record serialized_relations [].

(** ** The inclusion mask *)

(** The first loop of [get_include_mask]: [mask] gets a leaf for a path
    without a dot, [pre_mask] (a [defaultdict(set)]) collects the suffixes
    of the others under their first segment. *)
Definition include_step
    (st : list (string * pyval) * list (string * gset string)) (item : string)
    : list (string * pyval) * list (string * gset string) :=
  let '(mask, pre_mask) := st in
  match split_dot1 item with
  | (_, None) => (dict_set item (PDict []) mask, pre_mask)
  | (first, Some suffix) =>
      (mask,
       dict_set first ({[suffix]} ∪ default ∅ (dict_get first pre_mask)) pre_mask)
  end.

(** The second loop, [mask[key] = get_include_mask(values)], over
    [pre_mask.items()]. *)
Fixpoint include_groups (rec : list string -> option pyval)
    (pre_mask : list (string * gset string)) (mask : list (string * pyval))
    : option (list (string * pyval)) :=
  match pre_mask with
  | [] => Some mask
  | (key, values) :: rest =>
      match rec (elements values) with
      | Some sub => include_groups rec rest (dict_set key sub mask)
      | None => None
      end
  end.

Fixpoint get_include_mask_fuel (fuel : nat) (include : list string)
    : option pyval :=
  match fuel with
  | 0 => None
  | S fuel =>
      let '(mask, pre_mask) := fold_left include_step include ([], []) in
      match include_groups (get_include_mask_fuel fuel) pre_mask mask with
      | Some mask => Some (PDict mask)
      | None => None
      end
  end.

(** The largest number of dots in a path: a bound on the nesting. *)
Definition max_dots (include : list string) : nat :=
  foldr (fun item n => Nat.max (count_dots item) n) 0 include.

Definition get_include_mask (include : list string) : pyval :=
  default (PDict []) (get_include_mask_fuel (S (max_dots include)) include).

(** ** An example schema

    [Order {id, customer_id}] with a many-to-one [customer] and a
    one-to-many [items]; [Customer {id, name, region_id}] with a
    many-to-one [region]; [Region {id, name}]; [Item {id, order_id, sku}]. *)

Definition many_to_one (cls local_column remote_column : string)
    : relationship_property :=
  {| rel_direction := MANYTOONE; rel_class := cls; rel_uselist := false;
     rel_local_columns := [local_column];
     rel_local_remote_pairs := [(local_column, remote_column)] |}.

Definition one_to_many (cls local_column remote_column : string)
    : relationship_property :=
  {| rel_direction := ONETOMANY; rel_class := cls; rel_uselist := true;
     rel_local_columns := [local_column];
     rel_local_remote_pairs := [(local_column, remote_column)] |}.

Definition shop_descriptors (cls : string) : list (string * attribute) :=
  if String.eqb cls "Order" then
    [ ("id", ColumnAttr "Order" "id");
      ("customer_id", ColumnAttr "Order" "customer_id");
      ("customer", RelationshipAttr "Order" "customer"
                     (many_to_one "Customer" "customer_id" "id"));
      ("items", RelationshipAttr "Order" "items"
                  (one_to_many "Item" "id" "order_id")) ]
  else if String.eqb cls "Customer" then
    [ ("id", ColumnAttr "Customer" "id");
      ("name", ColumnAttr "Customer" "name");
      ("region_id", ColumnAttr "Customer" "region_id");
      ("region", RelationshipAttr "Customer" "region"
                   (many_to_one "Region" "region_id" "id")) ]
  else if String.eqb cls "Region" then
    [ ("id", ColumnAttr "Region" "id"); ("name", ColumnAttr "Region" "name") ]
  else if String.eqb cls "Item" then
    [ ("id", ColumnAttr "Item" "id");
      ("order_id", ColumnAttr "Item" "order_id");
      ("sku", ColumnAttr "Item" "sku") ]
  else [].

Definition shop_getattr (cls name : string) : option attribute :=
  dict_get name (shop_descriptors cls).

Definition shop_primary_key (cls : string) : list string := ["id"].

Definition shop_readable (cls key : string) : bool := true.

Definition no_conf : fields_conf := {| fc_exclude := []; fc_fields := [] |}.

Definition customer_5 : obj :=
  Obj 50 "Customer"
    [("id", CVal (PInt 5)); ("name", CVal (PStr "Ann"));
     ("region_id", CVal PNone)]
    [("region", RNone)].

Definition order_1 : obj :=
  Obj 1 "Order" [("id", CVal (PInt 1)); ("customer_id", CVal (PInt 5))]
    [("customer", ROne customer_5); ("items", RMany [])].

Definition order_2 : obj :=
  Obj 2 "Order" [("id", CVal (PInt 2)); ("customer_id", CVal (PInt 5))]
    [("customer", ROne customer_5); ("items", RMany [])].

Definition customer_meta : relmeta :=
  {| meta_pk := "id"; meta_fk := PStr "customer_id"; meta_fk_pair := PStr "id";
     meta_m2m := false; meta_o2o := true; meta_m2o := true; meta_o2m := false |}.

Definition tags_meta : relmeta :=
  {| meta_pk := "id"; meta_fk := PStr "tag_ids"; meta_fk_pair := PNone;
     meta_m2m := true; meta_o2o := false; meta_m2o := false; meta_o2m := false |}.

(** ** Predicates used by the statements *)

(** Two fueled computations agree: they give the same result, and it is a
    result rather than an exhausted budget. *)
Definition agree {A} (m m' : fueled A) : Prop := m = m' /\ is_Some m.

(** The weight of one entry of a criteria document. *)
Definition entry_weight (op : string) (operand : pyval) : nat :=
  if dict_mem op primitive_operators then 0 else count_dots op + weight operand.

(** Two predicates are equivalent when they hold of the same rows under
    every interpretation of the comparisons and of the joins. *)
Definition expr_equiv (e1 e2 : expr) : Prop :=
  forall (row : Type) (prim_holds : primop -> attribute -> pyval -> row -> bool)
    (related : attribute -> row -> list row) (r : row),
    holds row prim_holds related e1 r = holds row prim_holds related e2 r.

(** Two compilations end the same way: with equivalent predicates, or
    with the same exception. *)
Definition same_outcome (r1 r2 : result expr) : Prop :=
  match r1, r2 with
  | Ok e1, Ok e2 => expr_equiv e1 e2
  | Raise x1, Raise x2 => x1 = x2
  | _, _ => False
  end.

(** The database treats two predicates alike: it rejects both or
    neither, [holds] is its reading of both or of neither, and they hold of
    the same rows. *)
Definition same_reading (e1 e2 : expr) : Prop :=
  well_rendered e1 = well_rendered e2 /\ bare_not e1 = bare_not e2
  /\ expr_equiv e1 e2.

Definition is_relationship_operator (op : string) : bool :=
  str_in op ["$any"; "$all"; "$length"].

Definition is_logical_operator (op : string) : bool :=
  str_in op ["$or"; "$and"; "$not"].

(** A name that is none of the operator tokens and has no dot. *)
Definition plain_name (s : string) : bool :=
  negb (has_dot s) && negb (dict_mem s primitive_operators)
  && negb (is_relationship_operator s) && negb (is_logical_operator s).

(** A criteria document with a primitive or relationship operator as a
    key at the document level: at its root, or at the root of a clause of
    a document-level [$and], [$or] or [$not]. *)
Inductive misplaced_operator : pyval -> Prop :=
| misplaced_key kvs op operand :
    (op, operand) ∈ kvs ->
    dict_mem op primitive_operators || is_relationship_operator op = true ->
    misplaced_operator (PDict kvs)
| misplaced_in_clauses kvs op clauses clause :
    (op, PList clauses) ∈ kvs -> op = "$and" \/ op = "$or" ->
    clause ∈ clauses -> misplaced_operator clause ->
    misplaced_operator (PDict kvs)
| misplaced_in_not kvs clause :
    ("$not", clause) ∈ kvs -> misplaced_operator clause ->
    misplaced_operator (PDict kvs).

(** The suffixes that the paths of [include] give to the first segment
    [first], and whether [first] itself is one of the paths. *)
Definition suffix_under (first item : string) : option string :=
  match split_dot1 item with
  | (h, Some t) => if String.eqb h first then Some t else None
  | (_, None) => None
  end.

Definition suffixes (include : list string) (first : string) : gset string :=
  list_to_set (omap (suffix_under first) include).

Definition is_bare_path (include : list string) (key : string) : bool :=
  existsb (fun item => negb (has_dot item) && String.eqb item key) include.

(** How many of the flags are true. *)
Definition count_true (flags : list bool) : nat :=
  foldr (fun (b : bool) (n : nat) => if b then S n else n) 0 flags.

Definition cardinality_flags (m : relmeta) : list bool :=
  [meta_m2m m; meta_o2o m; meta_m2o m; meta_o2m m].

(** Exactly one flag is true, or, for a one-to-one relationship, [o2o]
    and one more, which is not [m2m]. *)
Definition flags_ok (m : relmeta) : Prop :=
  if meta_o2o m
  then count_true (cardinality_flags m) = 2 /\ meta_m2m m = false
  else count_true (cardinality_flags m) = 1.

(** The [_meta] entries of a relation record and of the records nested in
    it. *)
Fixpoint record_metas (v : relrec) : list relmeta :=
  match v with
  | RelRec _ rel meta =>
      option_list meta ++ flat_map (fun kv => record_metas kv.2) rel
  end.

Definition relations_metas (rels : list (string * relrec)) : list relmeta :=
  flat_map (fun kv => record_metas kv.2) rels.

(** Every record of the tree has its [_meta]. *)
Fixpoint has_meta (v : relrec) : bool :=
  match v with
  | RelRec _ rel meta =>
      match meta with Some _ => true | None => false end
      && forallb (fun kv => has_meta kv.2) rel
  end.

(** [x] is an item of a record named [k], at any depth of the tree
    [rels], whose [_meta] has [m2m], or [m2o] and not [o2o]. *)
Inductive many_item (k : string) (x : pyval) : list (string * relrec) -> Prop :=
| many_item_here rels items nested m :
    (k, RelRec items nested (Some m)) ∈ rels -> is_many m = true ->
    x ∈ items -> many_item k x rels
| many_item_nested rels k' items nested meta :
    (k', RelRec items nested meta) ∈ rels -> many_item k x nested ->
    many_item k x rels.

(** A value as Python builds it: the keys of a dict are distinct. *)
Fixpoint py_wf (v : pyval) : bool :=
  match v with
  | PList l => forallb py_wf l
  | PDict kvs =>
      bool_decide (NoDup kvs.*1) && forallb (fun kv => py_wf kv.2) kvs
  | _ => true
  end.

(** No item of the list is equal to an earlier one. *)
Definition py_distinct (vals : list pyval) : Prop :=
  forall i j a b, i < j -> vals !! i = Some a -> vals !! j = Some b ->
    py_eq b a = false.

(** [y] stands for [x] in a deduplicated list: it is [x] or equal to it. *)
Definition stands_for (y x : pyval) : Prop := y = x \/ py_eq x y = true.

(** [many_rels] holds, without equal items under one name, the items
    that [src] names. *)
Definition lifted (src : string -> pyval -> Prop)
    (many_rels : list (string * list pyval)) : Prop :=
  NoDup many_rels.*1 /\
  (forall k vals, dict_get k many_rels = Some vals ->
     py_distinct vals /\ forall x, x ∈ vals -> src k x) /\
  (forall k x, src k x ->
     exists vals y, dict_get k many_rels = Some vals /\ y ∈ vals /\ stands_for y x).

Section Paths.
Variable getattr : string -> string -> option attribute.

(** The attribute reached from [attr] through the fields [rest], each one
    looked up in the target class of the relationship before it. *)
Fixpoint resolve_from (attr : attribute) (rest : list string) : option attribute :=
  match rest with
  | [] => Some attr
  | field :: rest' =>
      match attr with
      | RelationshipAttr _ _ p =>
          match getattr (rel_class p) field with
          | Some attr' => resolve_from attr' rest'
          | None => None
          end
      | _ => None
      end
  end.

(** The attribute that the dotted path [fields] names in [model]. *)
Definition resolve_path (model : string) (fields : list string) : option attribute :=
  match fields with
  | [] => None
  | field :: rest =>
      match getattr model field with
      | Some attr => resolve_from attr rest
      | None => None
      end
  end.

End Paths.

(** ** More predicates used by the statements *)

(** The clauses that a conjunction joins. *)
Definition clauses (e : expr) : list expr :=
  match e with
  | EAnd es => es
  | _ => [e]
  end.

(** The ordering in the other direction. *)
Definition flip_ordering (o : ordering) : ordering :=
  match o with
  | Asc e a => Desc e a
  | Desc e a => Asc e a
  end.

(** The number of dots of an ordering path given as a string. *)
Definition item_dots (item : pyval) : nat :=
  match item with
  | PStr s => count_dots s
  | _ => 0
  end.

(** The joins, numbered from [n], carry the aliases [n], [n + 1], ... *)
Definition fresh_from (n : nat) (joins : list join) : Prop :=
  forall i j, joins !! i = Some j -> exists cls, join_alias j = Aliased cls (n + i).

(** Whether [fields_conf] lets the field of a class through: it is not
    excluded and, when the class has a field list, it is on the list. *)
Definition field_selected (conf : fields_conf) (cls field : string) : bool :=
  let exclude_fields := default [] (dict_get cls (fc_exclude conf)) in
  let fields := default [] (dict_get cls (fc_fields conf)) in
  negb (str_in field exclude_fields)
  && match fields with
     | [] => true
     | _ => str_in field fields
     end.

(** [item.get(fk) == rel_item.get(fk_pair)] for a related item that is a
    dict. *)
Definition joins_with (fk fk_pair : string) (item : list (string * pyval))
    (rel_item : pyval) : bool :=
  match rel_item with
  | PDict d =>
      py_eq (default PNone (dict_get fk item)) (default PNone (dict_get fk_pair d))
  | _ => false
  end.

(** [o] is related to the entity [e] through the attribute [name]: it is
    the value of the attribute, or one of the objects of its list. *)
Definition related_through (name : string) (e o : obj) : Prop :=
  match dict_get name (obj_rels e) with
  | Some (ROne o') => o = o'
  | Some (RMany os) => o ∈ os
  | _ => False
  end.

(** ** The validator of the list of included relations *)

Section Inclusion.
Variable getattr : string -> string -> option attribute.

(** [class_mapper(cls).relationships[name]]: the relationship attributes
    of a class by name, with their properties; any other name is a
    [KeyError]. *)
Definition relationships (cls name : string)
    : result (attribute * relationship_property) :=
  match getattr cls name with
  | Some (RelationshipAttr o k p) => Ok (RelationshipAttr o k p, p)
  | _ => Raise (KeyError name)
  end.

(** The loop over [parts[1:]]; a [Load] is the list of the class
    attributes that it joins, in order. *)
Fixpoint joinedload_chain (relationship : relationship_property)
    (load : list attribute) (parts : list string) : result (list attribute) :=
  match parts with
  | [] => Ok load
  | part :: parts' =>
      do (a, p) <- relationships (rel_class relationship) part;
      joinedload_chain p (load ++ [a]) parts'
  end.

(** The body of the loop over [parsed]. *)
Definition included_item (model item : string) : result (list attribute) :=
  let parts := split_dot item in
  do (a, p) <- relationships model (hd "" parts);
  joinedload_chain p [a] (tail parts).

Definition is_str (v : pyval) : bool :=
  match v with PStr _ => true | _ => false end.

(** [parse] of [included_relations_type(model_class)], from the decoded
    value on: a list or a dict is taken as it is, and a string goes through
    [json.loads] first. In the message the name stands between the quotes
    that [str] puts around the key of a [KeyError]. *)
Definition included_relations_parse (model : string) (parsed : pyval)
    : result (list (list attribute) * pyval) :=
  match parsed with
  | PList items =>
      if forallb is_str items then
        match res_mapM (fun item =>
                match item with
                | PStr s => included_item model s
                | _ => Raise (AttributeError "object has no attribute 'split'")
                end) items with
        | Ok options => Ok (options, parsed)
        | Raise (KeyError name) =>
            Raise (ValueError ("No such relation: ''" +:+ name +:+ "''"))
        | Raise e => Raise e
        end
      else Raise (ValueError "Must be list of strings")
  | _ => Raise (ValueError "Must be list of strings")
  end.

(** Every prefix of the path names a relationship. *)
Definition relationship_path (model : string) (fields : list string) : Prop :=
  forall i, i < length fields ->
    exists o k p,
      resolve_path getattr model (take (S i) fields) = Some (RelationshipAttr o k p).

End Inclusion.

(** ** reqparse.py: the arguments of a [RequestParser] *)

Section RequestParser.

(** The arguments ([Argument] or a subclass of it) and their [name]. *)
Variable Argument : Type.
Variable arg_name : Argument -> string.

(** [RequestParser.remove_argument]: the loop over a copy of [self.args]
    that deletes the first argument of that name and stops. *)
Fixpoint remove_argument (name : string) (args : list Argument) : list Argument :=
  match args with
  | [] => []
  | arg :: args' =>
      if String.eqb name (arg_name arg) then args'
      else arg :: remove_argument name args'
  end.

(** [RequestParser.replace_argument], [new_arg] being the argument that
    it builds from its parameters: the first argument of that name is
    deleted and [new_arg] appended. *)
Fixpoint replace_argument (new_arg : Argument) (args : list Argument)
    : list Argument :=
  match args with
  | [] => []
  | arg :: args' =>
      if String.eqb (arg_name new_arg) (arg_name arg) then args' ++ [new_arg]
      else arg :: replace_argument new_arg args'
  end.

(** How many arguments have the name. *)
Definition count_named (name : string) (args : list Argument) : nat :=
  length (filter (fun arg => String.eqb name (arg_name arg)) args).

End RequestParser.

(** ** resource.py: the response of a list resource *)

Section Resource.
Variable getattr : string -> string -> option attribute.
Variable all_orm_descriptors : string -> list (string * attribute).
Variable primary_key : string -> list string.
Variable local_attr_readable : string -> string -> bool.

(** [BaseResource.serialize_relations] *)
Definition resource_serialize_relations (model_class : string)
    (conf : fields_conf) (entities : list obj) (include : list string)
    : result (list (string * relrec)) :=
  serialize_relations getattr all_orm_descriptors primary_key local_attr_readable
    model_class entities (get_include_mask include) conf true.

(** [result.update(many_rels)] *)
Definition result_update (many_rels : list (string * list pyval))
    (result : list (string * pyval)) : list (string * pyval) :=
  fold_left (fun result kv => dict_set kv.1 (PList kv.2) result) many_rels result.

(** The result that [ListResource.get] builds from the entities that the
    query gave, before [process_result]; [table] is
    [str(model_class.__table__)]. *)
Definition list_result (table model_class : string) (conf : fields_conf)
    (results : list obj) (include : list string)
    : result (list (string * pyval)) :=
  do relations <- resource_serialize_relations model_class conf results include;
  do items <- res_mapM (fun x => do d <- serialize getattr all_orm_descriptors
                                          x conf relations;
                                 Ok (PDict d)) results;
  do many_rels <- get_many_relations relations;
  Ok (result_update many_rels [(table, PList items)]).

End Resource.

(** * Facts about the strings *)

Lemma split_dot_nonempty s : split_dot s <> [].
Proof.
  destruct s as [|c s]; simpl; [done|].
  destruct (Ascii.eqb c dot); [done|]. by destruct (split_dot s).
Qed.

Lemma split_dot_length s : length (split_dot s) = S (count_dots s).
Proof.
  induction s as [|c s IH]; simpl; [done|].
  destruct (Ascii.eqb c dot); simpl; [by rewrite IH|].
  pose proof (split_dot_nonempty s). destruct (split_dot s); [done|].
  simpl in *. lia.
Qed.

Lemma split_dot_segments s seg : seg ∈ split_dot s -> count_dots seg = 0.
Proof.
  revert seg. induction s as [|c s IH]; simpl; intros seg Hin.
  - apply list_elem_of_singleton in Hin. by subst.
  - destruct (Ascii.eqb c dot) eqn:Hc.
    + apply elem_of_cons in Hin as [->|Hin]; [done|]. by apply IH.
    + pose proof (split_dot_nonempty s).
      destruct (split_dot s) as [|seg' rest]; [done|].
      apply elem_of_cons in Hin as [->|Hin].
      * simpl. rewrite Hc. apply IH. by left.
      * apply IH. by right.
Qed.

Lemma split_dot_no_dot s : has_dot s = false -> split_dot s = [s].
Proof.
  induction s as [|c s IH]; simpl; [done|].
  destruct (Ascii.eqb c dot); simpl; [done|].
  intros H. by rewrite IH.
Qed.

(** * Facts about fuel *)

Lemma agree_refl {A} (r : result A) : agree (Some r) (Some r).
Proof. split; [done|]. by eexists. Qed.

Lemma agree_bind {A B} (m m' : fueled A) (f f' : A -> fueled B) :
  agree m m' -> (forall a, m = Some (Ok a) -> agree (f a) (f' a)) ->
  agree (fbind m f) (fbind m' f').
Proof.
  intros [<- [r ->]] Hf. destruct r as [a|e]; simpl.
  - by apply Hf.
  - apply agree_refl.
Qed.

Lemma agree_fmapM {A B} (f f' : A -> fueled B) (l : list A) :
  (forall x, x ∈ l -> agree (f x) (f' x)) -> agree (fmapM f l) (fmapM f' l).
Proof.
  induction l as [|x l IH]; intros Hf; simpl.
  - apply agree_refl.
  - apply agree_bind; [apply Hf; by left|]. intros y _.
    apply agree_bind; [apply IH; intros; apply Hf; by right|].
    intros ys _. apply agree_refl.
Qed.

Lemma weight_pos v : 1 <= weight v.
Proof. destruct v; simpl; lia. Qed.

Lemma weight_implicit_eq v : weight (implicit_eq v) <= weight v.
Proof.
  unfold implicit_eq. destruct (is_dict v) eqn:Hd; [done|].
  pose proof (weight_pos v). simpl. lia.
Qed.

Lemma weight_singleton k c : weight (PDict [(k, c)]) <= S (count_dots k + weight c).
Proof. simpl. destruct (dict_mem k primitive_operators); lia. Qed.

Lemma weight_wrap segs c :
  (forall seg, seg ∈ segs -> count_dots seg = 0) ->
  weight (fold_left (fun c chain_attr => PDict [(chain_attr, c)]) segs c)
  <= length segs + weight c.
Proof.
  revert c. induction segs as [|seg segs IH]; intros c Hs; [simpl; lia|].
  cbn [fold_left length]. etrans; [apply IH; intros; apply Hs; by right|].
  pose proof (weight_singleton seg c) as Hw.
  rewrite (Hs seg) in Hw by (by left). lia.
Qed.

Lemma weight_wrap_chain op c :
  weight (wrap_chain (split_dot op) c) <= count_dots op + weight c.
Proof.
  unfold wrap_chain. etrans; [apply weight_wrap|].
  - intros seg Hin. apply (split_dot_segments op).
    rewrite elem_of_reverse in Hin.
    destruct (split_dot op); simpl in *; [done|]. by right.
  - rewrite length_reverse. pose proof (split_dot_length op) as Hl.
    destruct (split_dot op); simpl in *; lia.
Qed.

Lemma weight_entry op operand kvs :
  (op, operand) ∈ kvs -> entry_weight op operand < weight (PDict kvs).
Proof.
  unfold entry_weight. induction kvs as [|[k x] kvs IH]; intros Hin.
  - by apply elem_of_nil in Hin.
  - apply elem_of_cons in Hin as [Heq|Hin].
    + inversion Heq; subst. simpl. lia.
    + specialize (IH Hin). simpl in *. lia.
Qed.

Lemma weight_PList_cons x l :
  weight (PList (x :: l)) = weight x + weight (PList l).
Proof. simpl. lia. Qed.

Lemma weight_elem x l : x ∈ l -> weight x < weight (PList l).
Proof.
  induction l as [|y l IH]; intros Hin.
  - by apply elem_of_nil in Hin.
  - rewrite weight_PList_cons. apply elem_of_cons in Hin as [->|Hin].
    + clear IH. pose proof (weight_pos (PList l)). lia.
    + specialize (IH Hin). lia.
Qed.

Lemma weight_py_iter v items x :
  py_iter v = Ok items -> x ∈ items -> weight x <= weight v.
Proof.
  destruct v; intros Hi Hin; simpl in Hi; try discriminate; inversion Hi; subst.
  - apply list_elem_of_fmap in Hin as (c & -> & _). simpl. lia.
  - apply weight_elem in Hin. lia.
  - apply list_elem_of_fmap in Hin as (c & -> & _).
    pose proof (weight_pos (PDict kvs)). simpl (weight (PStr _)). lia.
Qed.

Section FuelFacts.
Variable getattr : string -> string -> option attribute.

#[local] Arguments fbind : simpl never.
#[local] Arguments flift : simpl never.
#[local] Arguments fret : simpl never.
#[local] Arguments fraise : simpl never.

Lemma logical_agree op f (fn fn' : pyval -> fueled expr) operand w :
  dict_get op logical_operators = Some f ->
  (forall item, weight item < w -> agree (fn item) (fn' item)) ->
  weight operand < w ->
  agree (f fn operand) (f fn' operand).
Proof.
  intros Hf Hfn Hw. unfold logical_operators in Hf. simpl in Hf.
  repeat match type of Hf with
         | (if ?b then _ else _) = _ => destruct b
         end; inversion Hf; subst; clear Hf.
  - apply agree_bind; [apply agree_refl|]. intros items Hi.
    apply agree_bind; [|intros; apply agree_refl].
    apply agree_fmapM. intros x Hx. apply Hfn.
    injection Hi as Hi. pose proof (weight_py_iter _ _ _ Hi Hx). lia.
  - apply agree_bind; [apply agree_refl|]. intros items Hi.
    apply agree_bind; [|intros; apply agree_refl].
    apply agree_fmapM. intros x Hx. apply Hfn.
    injection Hi as Hi. pose proof (weight_py_iter _ _ _ Hi Hx). lia.
  - apply agree_bind; [by apply Hfn|]. intros; apply agree_refl.
Qed.

Lemma length_operator_agree ga ga' w attr operand :
  (forall a c k, weight c < w -> agree (ga a c k) (ga' a c k)) ->
  weight operand < w ->
  agree (length_operator ga attr operand) (length_operator ga' attr operand).
Proof.
  intros Hga Hw. unfold length_operator. apply Hga.
  pose proof (weight_implicit_eq operand). lia.
Qed.

Lemma relationship_agree gf gf' ga ga' w op f attr operand :
  (forall m c, weight c < w -> agree (gf m c) (gf' m c)) ->
  (forall a c k, weight c < w -> agree (ga a c k) (ga' a c k)) ->
  weight operand < w ->
  dict_get op (relationship_operators gf ga) = Some f ->
  exists f', dict_get op (relationship_operators gf' ga') = Some f' /\
    agree (f attr operand) (f' attr operand).
Proof.
  intros Hgf Hga Hw Hf. unfold relationship_operators in *. simpl in *.
  repeat match type of Hf with
         | (if ?b then _ else _) = _ => destruct b
         end; inversion Hf; subst; clear Hf; eexists; (split; [reflexivity|]).
  - apply agree_bind; [apply agree_refl|]. intros cls _.
    apply agree_bind; [by apply Hgf|]. intros; apply agree_refl.
  - apply agree_bind; [apply agree_refl|]. intros cls _.
    apply agree_bind; [by apply Hgf|]. intros e _.
    apply agree_bind; [apply agree_refl|]. intros; apply agree_refl.
  - by eapply length_operator_agree.
Qed.

Lemma relationship_none gf gf' ga ga' op :
  dict_get op (relationship_operators gf ga) = None ->
  dict_get op (relationship_operators gf' ga') = None.
Proof.
  unfold relationship_operators. simpl.
  repeat match goal with
         | |- (if ?b then _ else _) = _ -> _ => destruct b
         end; done.
Qed.

Lemma association_proxy_agree ga ga' w op attr operand :
  (forall a c k, weight c < w -> agree (ga a c k) (ga' a c k)) ->
  weight operand < w ->
  agree
    match dict_get op (association_proxy_operators ga) with
    | Some g => g attr operand
    | None => fraise (KeyError op)
    end
    match dict_get op (association_proxy_operators ga') with
    | Some g => g attr operand
    | None => fraise (KeyError op)
    end.
Proof.
  intros Hga Hw. unfold association_proxy_operators. simpl.
  repeat match goal with
         | |- context [if ?b then _ else _] => destruct b
         end.
  - apply agree_bind; [apply agree_refl|]. intros r _.
    apply agree_bind; [by apply Hga|]. intros; apply agree_refl.
  - apply agree_bind; [apply agree_refl|]. intros r _.
    apply agree_bind; [by apply Hga|]. intros; apply agree_refl.
  - by eapply length_operator_agree.
  - apply agree_refl.
Qed.

Lemma attribute_clause_agree gf gf' ga ga' w attribute key op operand :
  (forall m c, weight c < w -> agree (gf m c) (gf' m c)) ->
  (forall a c k, weight c < w -> agree (ga a c k) (ga' a c k)) ->
  entry_weight op operand < w ->
  agree (attribute_clause getattr gf ga attribute key op operand)
        (attribute_clause getattr gf' ga' attribute key op operand).
Proof.
  intros Hgf Hga Hw. unfold attribute_clause, entry_weight, dict_mem in *.
  destruct (dict_get op primitive_operators) as [f|] eqn:Hprim.
  { destruct (is_column_or_element attribute); apply agree_refl. }
  cbv iota in Hw.
  destruct (dict_get op (relationship_operators gf ga)) as [f|] eqn:Hrel.
  { assert (weight operand < w) as Hw' by (clear -Hw; lia).
    destruct (relationship_agree _ _ _ _ _ _ _ attribute operand Hgf Hga Hw' Hrel)
      as (f' & -> & Hag).
    destruct attribute; try (apply agree_bind; [apply agree_refl|]; intros _ _);
      try (match goal with |- context [is_to_many ?a] => destruct (is_to_many a) end);
      try apply agree_refl; try done.
    by eapply association_proxy_agree. }
  rewrite (relationship_none _ gf' _ ga' _ Hrel).
  destruct (dict_get op logical_operators) as [f|] eqn:Hlog.
  { apply (logical_agree op f _ _ operand w); [done| |lia].
    intros item Hi. by apply Hga. }
  apply agree_bind; [apply agree_refl|]. intros _ _.
  destruct (many_to_one_target attribute); [|apply agree_refl].
  apply agree_bind; [apply agree_refl|]. intros attr _.
  apply agree_bind; [|intros; apply agree_refl].
  apply Hga. pose proof (weight_wrap_chain op (implicit_eq operand)).
  pose proof (weight_implicit_eq operand). lia.
Qed.

Lemma filter_clause_agree gf gf' ga ga' w model op operand :
  (forall m c, weight c < w -> agree (gf m c) (gf' m c)) ->
  (forall a c k, weight c < w -> agree (ga a c k) (ga' a c k)) ->
  entry_weight op operand < w ->
  agree (filter_clause getattr gf ga model op operand)
        (filter_clause getattr gf' ga' model op operand).
Proof.
  intros Hgf Hga Hw. unfold filter_clause, entry_weight in *.
  unfold dict_mem at 2 4.
  destruct (dict_get op (relationship_operators gf ga)) as [f|] eqn:Hrel.
  { assert (exists f', dict_get op (relationship_operators gf' ga') = Some f')
      as [f' ->].
    { revert Hrel. unfold relationship_operators. simpl.
      repeat match goal with
             | |- (if ?b then _ else _) = _ -> _ => destruct b
             end; try done; by eexists. }
    rewrite !orb_true_r. apply agree_refl. }
  rewrite (relationship_none _ gf' _ ga' _ Hrel). rewrite !orb_false_r.
  destruct (dict_mem op primitive_operators); [apply agree_refl|].
  cbv iota in Hw.
  destruct (dict_get op logical_operators) as [f|] eqn:Hlog.
  { apply (logical_agree op f _ _ operand w); [done| |lia].
    intros item Hi. by apply Hgf. }
  apply agree_bind; [apply agree_refl|]. intros attr _.
  apply Hga. pose proof (weight_wrap_chain op (implicit_eq operand)).
  pose proof (weight_implicit_eq operand). lia.
Qed.

Lemma fuel_agree n1 :
  forall n2,
    (forall a c k, weight c < n1 -> weight c < n2 ->
       agree (get_attribute_filter_expr_fuel getattr n1 a c k)
             (get_attribute_filter_expr_fuel getattr n2 a c k)) /\
    (forall m c, weight c < n1 -> weight c < n2 ->
       agree (get_filter_expr_fuel getattr n1 m c)
             (get_filter_expr_fuel getattr n2 m c)).
Proof.
  induction n1 as [|n1 IH]; intros n2; [split; intros; lia|].
  destruct n2 as [|n2]; [split; intros; lia|].
  split.
  - intros a c k H1 H2. cbn [get_attribute_filter_expr_fuel].
    apply agree_bind; [apply agree_refl|]. intros items Hi.
    apply agree_bind; [|intros; apply agree_refl].
    apply agree_fmapM. intros [op operand] Hin.
    destruct c; try discriminate. injection Hi as <-.
    apply (attribute_clause_agree _ _ _ _ (weight (PDict kvs))).
    + intros m c Hc. apply IH; lia.
    + intros a' c k' Hc. apply IH; lia.
    + by apply weight_entry.
  - intros m c H1 H2. cbn [get_filter_expr_fuel].
    apply agree_bind; [apply agree_refl|]. intros items Hi.
    apply agree_bind; [|intros; apply agree_refl].
    apply agree_fmapM. intros [op operand] Hin.
    destruct c; try discriminate. injection Hi as <-.
    apply (filter_clause_agree _ _ _ _ (weight (PDict kvs))).
    + intros m' c Hc. apply IH; lia.
    + intros a' c k' Hc. apply IH; lia.
    + by apply weight_entry.
Qed.

Lemma get_attribute_filter_expr_fuel_enough n a c k :
  weight c < n ->
  get_attribute_filter_expr_fuel getattr n a c k
  = Some (get_attribute_filter_expr getattr a c k).
Proof.
  intros Hn. unfold get_attribute_filter_expr.
  destruct (fuel_agree n (S (weight c))) as [H _].
  destruct (H a c k Hn ltac:(lia)) as [<- [r ->]]. done.
Qed.

Lemma get_filter_expr_fuel_enough n m c :
  weight c < n ->
  get_filter_expr_fuel getattr n m c = Some (get_filter_expr getattr m c).
Proof.
  intros Hn. unfold get_filter_expr.
  destruct (fuel_agree n (S (weight c))) as [_ H].
  destruct (H m c Hn ltac:(lia)) as [<- [r ->]]. done.
Qed.

(** The compilers satisfy the equations of the source, without fuel. *)
Lemma get_attribute_filter_expr_eq a c k :
  Some (get_attribute_filter_expr getattr a c k) =
  fdo items <- flift (dict_items c);
  fdo exprs <- fmapM (fun kv =>
      attribute_clause getattr
        (fun m c => Some (get_filter_expr getattr m c))
        (fun a c k => Some (get_attribute_filter_expr getattr a c k))
        a (default (attribute_key a) k) kv.1 kv.2) items;
  fret (EAnd exprs).
Proof.
  rewrite <- (get_attribute_filter_expr_fuel_enough (S (weight c))) by lia.
  cbn [get_attribute_filter_expr_fuel].
  apply agree_bind; [apply agree_refl|]. intros items Hi.
  apply agree_bind; [|intros; apply agree_refl].
  apply agree_fmapM. intros [op operand] Hin.
  destruct c; try discriminate. injection Hi as <-.
  apply (attribute_clause_agree _ _ _ _ (weight (PDict kvs))).
  - intros m c Hc. rewrite get_filter_expr_fuel_enough by done. apply agree_refl.
  - intros a' c k' Hc. rewrite get_attribute_filter_expr_fuel_enough by done.
    apply agree_refl.
  - by apply weight_entry.
Qed.

Lemma get_filter_expr_eq m c :
  Some (get_filter_expr getattr m c) =
  fdo items <- flift (dict_items c);
  fdo exprs <- fmapM (fun kv =>
      filter_clause getattr
        (fun m c => Some (get_filter_expr getattr m c))
        (fun a c k => Some (get_attribute_filter_expr getattr a c k))
        m kv.1 kv.2) items;
  fret (EAnd exprs).
Proof.
  rewrite <- (get_filter_expr_fuel_enough (S (weight c))) by lia.
  cbn [get_filter_expr_fuel].
  apply agree_bind; [apply agree_refl|]. intros items Hi.
  apply agree_bind; [|intros; apply agree_refl].
  apply agree_fmapM. intros [op operand] Hin.
  destruct c; try discriminate. injection Hi as <-.
  apply (filter_clause_agree _ _ _ _ (weight (PDict kvs))).
  - intros m' c Hc. rewrite get_filter_expr_fuel_enough by done. apply agree_refl.
  - intros a' c k' Hc. rewrite get_attribute_filter_expr_fuel_enough by done.
    apply agree_refl.
  - by apply weight_entry.
Qed.

End FuelFacts.

(** * The criteria compiler *)

Section CompilerFacts.
Variable getattr : string -> string -> option attribute.

Lemma get_filter_expr_empty m : get_filter_expr getattr m (PDict []) = Ok (EAnd []).
Proof. reflexivity. Qed.

Lemma get_attribute_filter_expr_empty a k :
  get_attribute_filter_expr getattr a (PDict []) k = Ok (EAnd []).
Proof. reflexivity. Qed.

Lemma fbind_some {A B} (r : result A) (f : A -> result B) :
  fbind (Some r) (fun a => Some (f a)) = Some (res_bind r f).
Proof. by destruct r. Qed.


(** C3. The document [{a: X, b: Y}] and the document
    [{$and: [{a: X}, {b: Y}]}] compile to equivalent predicates, or both
    raise the same exception: sibling keys are an implicit conjunction. *)
Theorem sibling_keys_are_conjunction (model a b : string) (X Y : pyval) :
  a <> b ->
  same_outcome
    (get_filter_expr getattr model (PDict [(a, X); (b, Y)]))
    (get_filter_expr getattr model
       (PDict [("$and", PList [PDict [(a, X)]; PDict [(b, Y)]])])).
Proof.
  intros _.
  pose proof (get_filter_expr_eq getattr model (PDict [(a, X); (b, Y)])) as HL.
  pose proof (get_filter_expr_eq getattr model (PDict [(a, X)])) as HA.
  pose proof (get_filter_expr_eq getattr model (PDict [(b, Y)])) as HB.
  pose proof (get_filter_expr_eq getattr model
    (PDict [("$and", PList [PDict [(a, X)]; PDict [(b, Y)]])])) as HR.
  cbn -[filter_clause] in HL, HA, HB, HR.
  unfold filter_clause at 1 in HR. cbn -[filter_clause] in HR.
  set (fa := filter_clause _ _ _ model a X) in *.
  set (fb := filter_clause _ _ _ model b Y) in *.
  destruct fa as [[ea|xa]|]; cbn in HL, HA; [|injection HA as HA..|done].
  - injection HA as HA. rewrite HA in HR.
    destruct fb as [[eb|xb]|]; cbn in HL, HB; [| |done]; injection HB as HB;
      rewrite HB in HR; cbn in HR; injection HL as ->; injection HR as ->;
      [|done].
    intros row prim_holds related r. cbn.
    by destruct (holds _ _ _ ea r), (holds _ _ _ eb r).
  - rewrite HA in HR. cbn in HR. injection HL as ->. by injection HR as ->.
Qed.

Lemma fmapM_raise {A B} (f : A -> fueled B) l x e r :
  fmapM f l = Some r -> x ∈ l -> f x = Some (Raise e) -> exists e', r = Raise e'.
Proof.
  revert r. induction l as [|y l IH]; intros r Hr Hin Hx.
  - by apply elem_of_nil in Hin.
  - cbn in Hr. destruct (f y) as [[b|e1]|] eqn:Hy; cbn in Hr; [|by simplify_eq; eauto|done].
    apply elem_of_cons in Hin as [->|Hin]; [congruence|].
    destruct (fmapM f l) as [[bs|e2]|]; cbn in Hr; [|by simplify_eq; eauto|done].
    by destruct (IH _ eq_refl Hin Hx).
Qed.

Lemma fmapM_total {A B} (f : A -> fueled B) l :
  (forall y, is_Some (f y)) -> is_Some (fmapM f l).
Proof.
  intros Hf. induction l as [|y l [r IH]]; [by eexists|].
  cbn. destruct (Hf y) as [[b|e] ->]; cbn; [|by eexists].
  rewrite IH. destruct r; by eexists.
Qed.

Lemma dict_mem_relationship_operators gf ga op :
  dict_mem op (relationship_operators gf ga) = is_relationship_operator op.
Proof.
  unfold dict_mem, relationship_operators, is_relationship_operator. cbn.
  by repeat match goal with |- context [String.eqb ?a ?b] => destruct (String.eqb a b) end.
Qed.

Lemma filter_clause_top_level gf ga model op operand :
  dict_mem op primitive_operators || is_relationship_operator op = true ->
  filter_clause getattr gf ga model op operand
  = Some (Raise (ValueError ("Can't use operator '" +:+ op +:+ "' on the top level"))).
Proof.
  intros H. unfold filter_clause.
  by rewrite dict_mem_relationship_operators, H.
Qed.

Lemma get_filter_expr_raise_entry model kvs op operand e :
  (op, operand) ∈ kvs ->
  filter_clause getattr
    (fun m c => Some (get_filter_expr getattr m c))
    (fun a c k => Some (get_attribute_filter_expr getattr a c k))
    model op operand = Some (Raise e) ->
  exists e', get_filter_expr getattr model (PDict kvs) = Raise e'.
Proof.
  intros Hin Hop.
  pose proof (get_filter_expr_eq getattr model (PDict kvs)) as Heq.
  cbn -[filter_clause] in Heq.
  match type of Heq with
  | _ = fbind (fmapM ?f kvs) _ =>
      destruct (fmapM f kvs) as [r|] eqn:Hm; [|done];
      destruct (fmapM_raise f _ _ e _ Hm Hin Hop) as [e' ->]
  end.
  cbn in Heq. injection Heq as ->. by eexists.
Qed.

Lemma app_String ch a s : String ch a +:+ s = String ch (a +:+ s).
Proof. reflexivity. Qed.

Lemma split_dot_app a s :
  has_dot a = false -> split_dot (a +:+ "." +:+ s) = a :: split_dot s.
Proof.
  change ("." +:+ s) with (String dot s).
  induction a as [|ch a IH]; [done|].
  rewrite app_String. cbn.
  destruct (Ascii.eqb ch dot); cbn; [done|]. intros H. by rewrite IH.
Qed.

Lemma has_dot_app a s : has_dot (a +:+ "." +:+ s) = true.
Proof.
  change ("." +:+ s) with (String dot s).
  induction a as [|ch a IH]; [done|].
  rewrite app_String. cbn. rewrite IH. apply orb_true_r.
Qed.

Lemma dotted_not_operator op :
  has_dot op = true ->
  dict_mem op primitive_operators = false /\
  is_relationship_operator op = false /\
  dict_get op logical_operators = None.
Proof.
  intros Hdot.
  unfold dict_mem, is_relationship_operator, primitive_operators,
    logical_operators. cbn.
  repeat match goal with
         | |- context [String.eqb op ?k] =>
             destruct (String.eqb_spec op k) as [->|_]; [discriminate Hdot|]
         end.
  done.
Qed.

Lemma plain_name_spec s :
  plain_name s = true ->
  has_dot s = false /\ dict_mem s primitive_operators = false /\
  is_relationship_operator s = false /\ dict_get s logical_operators = None.
Proof.
  unfold plain_name. rewrite !andb_true_iff, !negb_true_iff.
  intros [[[H1 H2] H3] H4]. repeat split; try done.
  revert H4. unfold is_logical_operator, logical_operators. cbn.
  by repeat match goal with
            | |- context [String.eqb s ?k] => destruct (String.eqb s k)
            end.
Qed.

Lemma implicit_eq_idem v : implicit_eq (implicit_eq v) = implicit_eq v.
Proof. unfold implicit_eq. by destruct (is_dict v) eqn:Hv; [rewrite Hv|]. Qed.

Lemma attribute_clause_subfield gf ga A key f operand :
  plain_name f = true ->
  attribute_clause getattr gf ga A key f operand =
  fdo _ <- flift (property A);
  match many_to_one_target A with
  | None => fraise (ValueError ("Can't get '" +:+ f +:+ "' subfield from '"
              +:+ key +:+ "': not a many-to-one relation"))
  | Some target_class =>
      fdo attr <- flift (getattr_or_raise getattr target_class f);
      fdo e <- ga attr (implicit_eq operand) (Some f);
      fret (EExists target_class A e)
  end.
Proof.
  intros Hf. destruct (plain_name_spec f Hf) as (Hd & Hp & Hr & Hl).
  unfold attribute_clause. unfold dict_mem in Hp.
  destruct (dict_get f primitive_operators); [done|].
  pose proof (dict_mem_relationship_operators gf ga f) as Hr'.
  rewrite Hr in Hr'. unfold dict_mem in Hr'.
  destruct (dict_get f (relationship_operators gf ga)); [done|].
  rewrite Hl, (split_dot_no_dot f Hd). reflexivity.
Qed.

Lemma filter_clause_attribute gf ga model op operand :
  dict_mem op primitive_operators = false ->
  is_relationship_operator op = false ->
  dict_get op logical_operators = None ->
  filter_clause getattr gf ga model op operand =
  fdo attr <- flift (getattr_or_raise getattr model (hd "" (split_dot op)));
  ga attr (wrap_chain (split_dot op) (implicit_eq operand))
    (Some (hd "" (split_dot op))).
Proof.
  intros Hp Hr Hl. unfold filter_clause.
  by rewrite dict_mem_relationship_operators, Hp, Hr, Hl.
Qed.

Lemma dict_get_logical_operators op :
  is_logical_operator op = false -> dict_get op logical_operators = None.
Proof.
  unfold is_logical_operator, logical_operators. cbn.
  by repeat match goal with
            | |- context [String.eqb op ?k] => destruct (String.eqb op k)
            end.
Qed.

(** C7. A criteria document with a primitive comparison operator or a
    relationship operator as a key at the document level (at the root, or
    at the root of a clause of a document-level [$and], [$or] or [$not])
    does not compile: [get_filter_expr] raises, and with enough fuel the
    fueled compiler gives that exception rather than running out. When the
    offending key comes first the exception is the [ValueError] of the
    top-level check; a first key that is no operator and whose first
    segment is not an attribute of the model raises [AttributeError]. *)
Theorem operator_at_document_level_fails (model : string) (criteria : pyval) :
  (misplaced_operator criteria ->
   exists e,
     get_filter_expr getattr model criteria = Raise e /\
     forall fuel, weight criteria < fuel ->
       get_filter_expr_fuel getattr fuel model criteria = Some (Raise e)) /\
  (forall op operand rest,
     criteria = PDict ((op, operand) :: rest) ->
     (dict_mem op primitive_operators || is_relationship_operator op = true ->
      get_filter_expr getattr model criteria
      = Raise (ValueError ("Can't use operator '" +:+ op +:+ "' on the top level")))
     /\ (dict_mem op primitive_operators = false ->
         is_relationship_operator op = false ->
         is_logical_operator op = false ->
         getattr model (hd "" (split_dot op)) = None ->
         exists msg,
           get_filter_expr getattr model criteria = Raise (AttributeError msg))).
Proof.
  split.
  - intros Hbad.
    assert (exists e, get_filter_expr getattr model criteria = Raise e) as [e He].
    { induction Hbad as [kvs op operand Hin Hop
                        |kvs op clauses clause Hin Hop Hcl _ [e IH]
                        |kvs clause Hin _ [e IH]].
      - eapply get_filter_expr_raise_entry; [done|].
        by apply filter_clause_top_level.
      - destruct (fmapM_total (fun c => Some (get_filter_expr getattr model c)) clauses)
          as [r Hr]; [by eexists|].
        destruct (fmapM_raise _ _ _ e _ Hr Hcl) as [e' ->]; [by rewrite IH|].
        apply (get_filter_expr_raise_entry model kvs op (PList clauses) e');
          [done|].
        unfold filter_clause. rewrite dict_mem_relationship_operators.
        destruct Hop as [-> | ->]; cbn; rewrite Hr; reflexivity.
      - apply (get_filter_expr_raise_entry model kvs "$not" clause e); [done|].
        unfold filter_clause. cbn. rewrite IH. reflexivity. }
    exists e. split; [done|]. intros fuel Hf.
    by rewrite get_filter_expr_fuel_enough, He.
  - intros op operand rest ->. split.
    + intros Hop. apply (inj Some).
      rewrite get_filter_expr_eq. cbn -[filter_clause].
      by rewrite filter_clause_top_level.
    + intros Hp Hr Hl Hget. eexists. apply (inj Some).
      rewrite get_filter_expr_eq. cbn -[filter_clause].
      rewrite filter_clause_attribute;
        [|done|done|by apply dict_get_logical_operators].
      unfold getattr_or_raise. rewrite Hget. reflexivity.
Qed.

Lemma get_attribute_filter_expr_subfield A k f operand :
  plain_name f = true ->
  get_attribute_filter_expr getattr A (PDict [(f, operand)]) k =
  do _ <- property A;
  match many_to_one_target A with
  | None => Raise (ValueError ("Can't get '" +:+ f +:+ "' subfield from '"
              +:+ default (attribute_key A) k +:+ "': not a many-to-one relation"))
  | Some target_class =>
      do attr <- getattr_or_raise getattr target_class f;
      do e <- get_attribute_filter_expr getattr attr (implicit_eq operand) (Some f);
      Ok (EAnd [EExists target_class A e])
  end.
Proof.
  intros Hf. apply (inj Some). rewrite get_attribute_filter_expr_eq.
  cbn -[attribute_clause]. rewrite attribute_clause_subfield by done.
  destruct (property A); cbn; [|done].
  destruct (many_to_one_target A); cbn; [|done].
  destruct (getattr_or_raise getattr s f); cbn; [|done].
  by destruct (get_attribute_filter_expr getattr a0 (implicit_eq operand) (Some f)).
Qed.

(** C2. For names [a], [b], [c] the dotted key [a.b.c] is folded into
    [{b: {c: V}}] under [a], and the criteria [{a.b.c: V}] compile to the
    same result as [{a: {b: {c: V}}}]; when [a] and [b] are many-to-one
    relationships the result is an [exists] subquery per step, around the
    compiled criteria of [c]. *)
Theorem dotted_key_is_nested (model a b c : string) (V : pyval) :
  plain_name a = true -> plain_name b = true -> plain_name c = true ->
  let dotted := a +:+ "." +:+ b +:+ "." +:+ c in
  wrap_chain (split_dot dotted) (implicit_eq V)
    = PDict [(b, PDict [(c, implicit_eq V)])]
  /\ get_filter_expr getattr model (PDict [(dotted, V)])
    = get_filter_expr getattr model (PDict [(a, PDict [(b, PDict [(c, V)])])])
  /\ (forall A B C ta tb,
       getattr model a = Some A -> many_to_one_target A = Some ta ->
       getattr ta b = Some B -> many_to_one_target B = Some tb ->
       getattr tb c = Some C ->
       get_filter_expr getattr model (PDict [(dotted, V)])
       = (do e <- get_attribute_filter_expr getattr C (implicit_eq V) (Some c);
          Ok (EAnd [EAnd [EExists ta A (EAnd [EExists tb B e])]]))).
Proof.
  intros Ha Hb Hc dotted.
  destruct (plain_name_spec a Ha) as (Hda & Hpa & Hra & Hla).
  destruct (plain_name_spec b Hb) as (Hdb & _).
  destruct (plain_name_spec c Hc) as (Hdc & _).
  assert (split_dot dotted = [a; b; c]) as Hsplit.
  { unfold dotted. rewrite split_dot_app by done.
    rewrite split_dot_app by done. by rewrite split_dot_no_dot. }
  destruct (dotted_not_operator dotted (has_dot_app a _)) as (Hpd & Hrd & Hld).
  assert (forall X, get_filter_expr getattr model (PDict [(dotted, X)])
    = (do attr <- getattr_or_raise getattr model a;
       do e <- get_attribute_filter_expr getattr attr
                 (PDict [(b, PDict [(c, implicit_eq X)])]) (Some a);
       Ok (EAnd [e]))) as Hdotted.
  { intros X. apply (inj Some). rewrite get_filter_expr_eq.
    cbn -[filter_clause]. rewrite filter_clause_attribute by done.
    rewrite Hsplit. cbn.
    destruct (getattr_or_raise getattr model a) as [attr|]; cbn; [|done].
    by destruct (get_attribute_filter_expr getattr attr _ (Some a)). }
  assert (get_filter_expr getattr model (PDict [(a, PDict [(b, PDict [(c, V)])])])
    = (do attr <- getattr_or_raise getattr model a;
       do e <- get_attribute_filter_expr getattr attr
                 (PDict [(b, PDict [(c, V)])]) (Some a);
       Ok (EAnd [e]))) as Hnested.
  { apply (inj Some). rewrite get_filter_expr_eq.
    cbn -[filter_clause]. rewrite filter_clause_attribute by done.
    rewrite (split_dot_no_dot a Hda). cbn.
    destruct (getattr_or_raise getattr model a) as [attr|]; cbn; [|done].
    by destruct (get_attribute_filter_expr getattr attr _ (Some a)). }
  assert (forall A k, get_attribute_filter_expr getattr A
                        (PDict [(b, PDict [(c, implicit_eq V)])]) k
                    = get_attribute_filter_expr getattr A
                        (PDict [(b, PDict [(c, V)])]) k) as Hinner.
  { intros A k. rewrite !(get_attribute_filter_expr_subfield A k b) by done.
    destruct (property A); cbn; [|done].
    destruct (many_to_one_target A); [|done].
    destruct (getattr_or_raise getattr s b) as [B|]; cbn; [|done].
    rewrite !(get_attribute_filter_expr_subfield B (Some b) c) by done.
    by rewrite implicit_eq_idem. }
  split; [by rewrite Hsplit|]. split.
  - rewrite Hdotted, Hnested.
    destruct (getattr_or_raise getattr model a) as [attr|]; cbn; [|done].
    by rewrite Hinner.
  - intros A B C ta tb HA HtA HB HtB HC. rewrite Hdotted.
    unfold getattr_or_raise at 1. rewrite HA. cbn.
    rewrite (get_attribute_filter_expr_subfield A (Some a) b) by done.
    assert (property A = Ok A) as -> by (by destruct A).
    cbn. rewrite HtA. unfold getattr_or_raise at 1. rewrite HB. cbn.
    rewrite (get_attribute_filter_expr_subfield B (Some b) c) by done.
    assert (property B = Ok B) as -> by (by destruct B).
    cbn. rewrite HtB. unfold getattr_or_raise at 1. rewrite HC. cbn.
    rewrite implicit_eq_idem.
    by destruct (get_attribute_filter_expr getattr C (implicit_eq V) (Some c)).
Qed.

End CompilerFacts.

(** * The ordering compiler *)

Section OrderingFacts.
Variable getattr : string -> string -> option attribute.

Lemma order_by_chain_rejects fields rest : forall i idx ent attr joins o k p,
  i < length rest ->
  resolve_from getattr attr (take i rest) = Some (RelationshipAttr o k p) ->
  rel_direction p <> MANYTOONE ->
  exists msg,
    order_by_chain getattr fields idx rest ent attr joins = Raise (ValueError msg).
Proof.
  induction rest as [|field rest IH]; intros i idx ent attr joins o k p Hi Hres Hdir;
    [simpl in Hi; lia|].
  destruct i as [|i].
  - cbn in Hres. injection Hres as ->. cbn.
    destruct (rel_direction p); [|done|]; by eexists.
  - cbn in Hres. destruct attr as [| o' k' p' | |]; try done.
    destruct (getattr (rel_class p') field) as [attr'|] eqn:Hget; [|done].
    cbn. destruct (rel_direction p') eqn:Hd; try by eexists.
    unfold getattr_or_raise. rewrite Hget. cbn.
    eapply IH; [|done..]. simpl in Hi. lia.
Qed.

Lemma order_by_chain_accepts fields rest : forall idx ent attr joins C,
  (forall j, j < length rest -> exists o k p,
     resolve_from getattr attr (take j rest) = Some (RelationshipAttr o k p)
     /\ rel_direction p = MANYTOONE) ->
  resolve_from getattr attr rest = Some C ->
  exists ent' joins',
    order_by_chain getattr fields idx rest ent attr joins = Ok (ent', C, joins')
    /\ length joins' = length joins + length rest.
Proof.
  induction rest as [|field rest IH]; intros idx ent attr joins C Hm2o Hres.
  - cbn in Hres. injection Hres as ->. exists ent, joins. cbn. split; [done|lia].
  - destruct (Hm2o 0) as (o & k & p & H0 & Hd); [simpl; lia|].
    cbn in H0. injection H0 as ->. cbn in Hres.
    destruct (getattr (rel_class p) field) as [attr'|] eqn:Hget; [|done].
    cbn. rewrite Hd. unfold getattr_or_raise. rewrite Hget. cbn.
    edestruct (IH (S idx) (Aliased (rel_class p) (length joins)) attr') as (ent' & joins' & -> & Hlen);
      [|done|].
    + intros j Hj. destruct (Hm2o (S j)) as (o' & k' & p' & HS & Hd');
        [simpl; lia|]. cbn in HS. rewrite Hget in HS. eauto.
    + eexists _, _. split; [done|]. rewrite Hlen, length_app. simpl. lia.
Qed.

Lemma order_by_loop_raise model items : forall st item,
  item ∈ items ->
  (forall st, exists e, order_by_item getattr model item st = Raise e) ->
  exists e, order_by_loop getattr model items st = Raise e.
Proof.
  induction items as [|x items IH]; intros st item Hin Hbad.
  - by apply elem_of_nil in Hin.
  - cbn. apply elem_of_cons in Hin as [<-|Hin].
    + destruct (Hbad st) as [e ->]. by eexists.
    + destruct (order_by_item getattr model x st) as [st'|e]; cbn; [|by eexists].
      by eapply IH.
Qed.

(** C8. For an ordering path of more than one segment: when a segment
    before the last names a relationship that is not many-to-one,
    [get_order_by] raises [ValueError], alone or in a list of paths; when
    every segment before the last is a many-to-one relationship and the
    last a column, it returns the ordering on that column, with one join
    per relationship. *)
Theorem ordering_path_through_relations (model item path : string) (direction : Z) :
  get_direction (PStr item) = Ok (path, direction) ->
  1 < length (split_dot path) ->
  (forall i o k p,
     S i < length (split_dot path) ->
     resolve_path getattr model (take (S i) (split_dot path))
       = Some (RelationshipAttr o k p) ->
     rel_direction p <> MANYTOONE ->
     (exists msg, get_order_by getattr model (PStr item) = Raise (ValueError msg))
     /\ (forall items, PStr item ∈ items ->
           exists e, get_order_by getattr model (PList items) = Raise e))
  /\ (forall o k,
        (forall j, S j < length (split_dot path) -> exists o' k' p,
           resolve_path getattr model (take (S j) (split_dot path))
             = Some (RelationshipAttr o' k' p)
           /\ rel_direction p = MANYTOONE) ->
        resolve_path getattr model (split_dot path) = Some (ColumnAttr o k) ->
        exists ent joins,
          get_order_by getattr model (PStr item)
          = Ok ([if (0 <? direction)%Z then Asc ent (ColumnAttr o k)
                 else Desc ent (ColumnAttr o k)], joins)
          /\ length joins = length (split_dot path) - 1).
Proof.
  intros Hdir Hlen.
  destruct (split_dot path) as [|field rest] eqn:Hsplit; [simpl in Hlen; lia|].
  split.
  - intros i o k p Hi Hres Hd. cbn in Hres.
    destruct (getattr model field) as [attr|] eqn:Hget; [|done].
    assert (forall st, exists msg,
      order_by_item getattr model (PStr item) st = Raise (ValueError msg)) as Hitem.
    { intros [orderings joins]. unfold order_by_item. rewrite Hdir. cbn.
      rewrite Hsplit. cbn. unfold getattr_or_raise at 1. rewrite Hget. cbn.
      destruct (order_by_chain_rejects (field :: rest) rest i 0 (Mapped model)
                  attr joins o k p) as [msg ->]; [simpl in Hi; lia|done..|].
      by eexists. }
    split.
    + cbn -[order_by_item]. destruct (Hitem ([], [])) as [msg ->]. by eexists.
    + intros items Hin. cbn -[order_by_item]. eapply order_by_loop_raise; [done|].
      intros st. destruct (Hitem st) as [msg ->]. by eexists.
  - intros o k Hm2o Hres. cbn in Hres.
    destruct (getattr model field) as [attr|] eqn:Hget; [|done].
    destruct (order_by_chain_accepts (field :: rest) rest 0 (Mapped model) attr []
                (ColumnAttr o k)) as (ent & joins & Hchain & Hjoins); [|done|].
    { intros j Hj. destruct (Hm2o j) as (o' & k' & p & HS & Hd'); [simpl; lia|].
      cbn in HS. rewrite Hget in HS. eauto. }
    exists ent, joins. split; [|simpl in *; lia].
    cbn -[order_by_item]. unfold order_by_item. rewrite Hdir. cbn.
    rewrite Hsplit. cbn.
    unfold getattr_or_raise. rewrite Hget. cbn. rewrite Hchain. cbn.
    by destruct (0 <? direction)%Z.
Qed.

End OrderingFacts.

(** * Facts about dictionaries *)

Section DictFacts.
Context {V : Type}.
Implicit Types (d : list (string * V)) (k : string) (v : V).

Lemma dict_get_set_eq k v d : dict_get k (dict_set k v d) = Some v.
Proof.
  induction d as [|[k' v'] d IH]; cbn; [by rewrite String.eqb_refl|].
  destruct (String.eqb_spec k k') as [->|Hne]; cbn.
  - by rewrite String.eqb_refl.
  - by destruct (String.eqb_spec k k').
Qed.

Lemma dict_get_set_ne k k' v d :
  k <> k' -> dict_get k' (dict_set k v d) = dict_get k' d.
Proof.
  intros Hne. induction d as [|[k0 v0] d IH]; cbn.
  - by destruct (String.eqb_spec k' k) as [->|].
  - destruct (String.eqb_spec k k0) as [->|]; cbn.
    + by destruct (String.eqb_spec k' k0) as [->|].
    + by rewrite IH.
Qed.

Lemma dict_get_elem k v d : dict_get k d = Some v -> (k, v) ∈ d.
Proof.
  induction d as [|[k0 v0] d IH]; cbn; [done|].
  destruct (String.eqb_spec k k0) as [->|].
  - intros [= ->]. by left.
  - intros H. right. by apply IH.
Qed.

Lemma dict_get_None k d : dict_get k d = None <-> k ∉ d.*1.
Proof.
  induction d as [|[k0 v0] d IH]; cbn.
  - split; [intros _; apply not_elem_of_nil|done].
  - rewrite not_elem_of_cons. destruct (String.eqb_spec k k0) as [->|]; [|tauto].
    split; [done|]. by intros [? _].
Qed.

Lemma elem_dict_get k v d : NoDup d.*1 -> (k, v) ∈ d -> dict_get k d = Some v.
Proof.
  induction d as [|[k0 v0] d IH]; cbn; intros Hnd Hin.
  - by apply elem_of_nil in Hin.
  - apply NoDup_cons in Hnd as [Hk0 Hnd].
    apply elem_of_cons in Hin as [[= -> ->]|Hin]; [by rewrite String.eqb_refl|].
    destruct (String.eqb_spec k k0) as [->|]; [|by apply IH].
    destruct Hk0. apply list_elem_of_fmap. by exists (k0, v).
Qed.

Lemma dict_set_keys k v d :
  (dict_set k v d).*1 = if dict_mem k d then d.*1 else d.*1 ++ [k].
Proof.
  unfold dict_mem. induction d as [|[k0 v0] d IH]; cbn; [done|].
  destruct (String.eqb_spec k k0) as [->|]; cbn; [done|].
  rewrite IH. by destruct (dict_get k d).
Qed.

Lemma dict_set_nodup k v d : NoDup d.*1 -> NoDup (dict_set k v d).*1.
Proof.
  intros Hnd. rewrite dict_set_keys. unfold dict_mem.
  destruct (dict_get k d) eqn:Hg; [done|].
  apply NoDup_app. split; [done|]. split; [|apply NoDup_singleton].
  intros x Hx ->%list_elem_of_singleton. by apply dict_get_None in Hg.
Qed.

Lemma elem_of_dict_set kv k v d : kv ∈ dict_set k v d -> kv = (k, v) \/ kv ∈ d.
Proof.
  induction d as [|[k0 v0] d IH]; cbn.
  - intros ->%list_elem_of_singleton. by left.
  - destruct (String.eqb_spec k k0) as [->|].
    + intros [->|H]%elem_of_cons; [by left|]. right. by right.
    + intros [->|H]%elem_of_cons; [right; by left|].
      destruct (IH H); [by left|]. right. by right.
Qed.

Lemma dict_get_remove_ne k k' d :
  k <> k' -> dict_get k' (dict_remove k d) = dict_get k' d.
Proof.
  intros Hne. induction d as [|[k0 v0] d IH]; cbn; [done|].
  destruct (String.eqb_spec k k0) as [->|]; cbn.
  - by destruct (String.eqb_spec k' k0) as [->|].
  - by rewrite IH.
Qed.

Lemma dict_get_remove_eq k d : NoDup d.*1 -> dict_get k (dict_remove k d) = None.
Proof.
  induction d as [|[k0 v0] d IH]; cbn; [done|].
  intros [Hk0 Hnd]%NoDup_cons.
  destruct (String.eqb_spec k k0) as [->|Hne]; cbn.
  - by apply dict_get_None.
  - destruct (String.eqb_spec k k0); [done|]. by apply IH.
Qed.

End DictFacts.

(** * The inclusion mask resolver *)

Lemma split_dot1_None item h :
  split_dot1 item = (h, None) -> h = item /\ has_dot item = false.
Proof.
  revert h. induction item as [|ch item IH]; cbn; intros h.
  - by intros [= <-].
  - destruct (Ascii.eqb ch dot); [done|]. cbn.
    destruct (split_dot1 item) as [h' t'] eqn:Hs. intros [= <- ->].
    destruct (IH h' eq_refl) as [-> ->]. done.
Qed.

Lemma split_dot1_Some item h t :
  split_dot1 item = (h, Some t) ->
  item = h +:+ "." +:+ t /\ has_dot h = false /\ count_dots item = S (count_dots t).
Proof.
  change ("." +:+ t) with (String dot t).
  revert h. induction item as [|ch item IH]; cbn; intros h; [done|].
  destruct (Ascii.eqb ch dot) eqn:Hc; cbn.
  - intros [= <- <-]. apply Ascii.eqb_eq in Hc as ->. done.
  - destruct (split_dot1 item) as [h' t'] eqn:Hs. intros [= <- ->].
    destruct (IH h' eq_refl) as (-> & Hh & ->). cbn. by rewrite Hc.
Qed.

Lemma split_dot1_app h t :
  has_dot h = false -> split_dot1 (h +:+ "." +:+ t) = (h, Some t).
Proof.
  change ("." +:+ t) with (String dot t).
  induction h as [|ch h IH]; [done|]. rewrite app_String. cbn.
  destruct (Ascii.eqb ch dot); cbn; [done|]. intros H. by rewrite IH.
Qed.

Lemma split_dot1_no_dot item : has_dot item = false -> split_dot1 item = (item, None).
Proof.
  induction item as [|ch item IH]; cbn; [done|].
  destruct (Ascii.eqb ch dot); cbn; [done|]. intros H. by rewrite IH.
Qed.

Lemma max_dots_elem item include : item ∈ include -> count_dots item <= max_dots include.
Proof.
  induction include as [|x l IH]; intros Hin; [by apply elem_of_nil in Hin|].
  change (max_dots (x :: l)) with (Nat.max (count_dots x) (max_dots l)).
  apply elem_of_cons in Hin as [->|Hin]; [lia|]. specialize (IH Hin). lia.
Qed.

Lemma max_dots_bound include n :
  0 < n -> (forall item, item ∈ include -> count_dots item < n) -> max_dots include < n.
Proof.
  intros Hn. induction include as [|x l IH]; intros H; [done|].
  change (max_dots (x :: l)) with (Nat.max (count_dots x) (max_dots l)).
  pose proof (H x ltac:(by left)). 
  assert (max_dots l < n) by (apply IH; intros; apply H; by right). lia.
Qed.

(** Where the suffixes collected in [pre_mask] come from. *)
Lemma include_fold_suffix include : forall mask0 pre0 mask pre key values t,
  fold_left include_step include (mask0, pre0) = (mask, pre) ->
  (key, values) ∈ pre -> t ∈ values ->
  (exists item, item ∈ include /\ split_dot1 item = (key, Some t))
  \/ (exists values0, (key, values0) ∈ pre0 /\ t ∈ values0).
Proof.
  induction include as [|item include IH];
    intros mask0 pre0 mask pre key values t Hfold Hin Ht.
  - cbn in Hfold. injection Hfold as <- <-. right. eauto.
  - cbn [fold_left] in Hfold. unfold include_step at 2 in Hfold.
    destruct (split_dot1 item) as [h [s|]] eqn:Hs.
    + destruct (IH _ _ _ _ _ _ _ Hfold Hin Ht) as [(item' & Hi & Hs')|(v0 & Hv0 & Ht0)].
      * left. exists item'. split; [by right|done].
      * apply elem_of_dict_set in Hv0 as [[= -> ->]|Hv0]; [|right; eauto].
        apply elem_of_union in Ht0 as [->%elem_of_singleton|Ht0].
        -- left. exists item. split; [by left|done].
        -- destruct (dict_get h pre0) as [old|] eqn:Hold; cbn in Ht0.
           ++ right. exists old. split; [by apply dict_get_elem|done].
           ++ by apply not_elem_of_empty in Ht0.
    + destruct (IH _ _ _ _ _ _ _ Hfold Hin Ht) as [(item' & Hi & Hs')|?]; [|by right].
      left. exists item'. split; [by right|done].
Qed.

Lemma include_fold_nonempty include : forall mask0 pre0 mask pre key values,
  fold_left include_step include (mask0, pre0) = (mask, pre) ->
  (forall key values, (key, values) ∈ pre0 -> exists t, t ∈ values) ->
  (key, values) ∈ pre -> exists t, t ∈ values.
Proof.
  induction include as [|item include IH];
    intros mask0 pre0 mask pre key values Hfold Hpre0 Hin.
  - cbn in Hfold. injection Hfold as <- <-. eauto.
  - cbn [fold_left] in Hfold. unfold include_step at 2 in Hfold.
    destruct (split_dot1 item) as [h [s|]] eqn:Hs.
    + eapply (IH _ _ _ _ _ _ Hfold); [|done].
      intros k v [[= -> ->]|Hv]%elem_of_dict_set; [|eauto].
      exists s. apply elem_of_union. left. by apply elem_of_singleton.
    + by eapply (IH _ _ _ _ _ _ Hfold).
Qed.

Lemma include_fold_dots include mask pre key values :
  fold_left include_step include ([], []) = (mask, pre) ->
  (key, values) ∈ pre ->
  max_dots (elements values) < max_dots include.
Proof.
  intros Hfold Hin.
  assert (forall t, t ∈ values -> count_dots t < max_dots include) as Hlt.
  { intros t Ht.
    destruct (include_fold_suffix _ _ _ _ _ _ _ _ Hfold Hin Ht)
      as [(item & Hi & Hs)|(v0 & Hv0 & _)]; [|by apply elem_of_nil in Hv0].
    apply split_dot1_Some in Hs as (_ & _ & Hc).
    pose proof (max_dots_elem _ _ Hi). lia. }
  destruct (include_fold_nonempty _ _ _ _ _ key values Hfold) as [t0 Ht0];
    [intros k v Hv; by apply elem_of_nil in Hv|done|].
  apply max_dots_bound; [specialize (Hlt t0 Ht0); lia|].
  intros t Ht%elem_of_elements. by apply Hlt.
Qed.

Lemma include_groups_agree rec rec' pre : forall mask,
  (forall key values, (key, values) ∈ pre ->
     rec (elements values) = rec' (elements values) /\ is_Some (rec (elements values))) ->
  include_groups rec pre mask = include_groups rec' pre mask
  /\ is_Some (include_groups rec pre mask).
Proof.
  induction pre as [|[key values] pre IH]; intros mask Hrec; cbn.
  - split; [done|by eexists].
  - destruct (Hrec key values ltac:(by left)) as [<- [sub ->]].
    apply IH. intros k' v' Hin. apply (Hrec k'). by right.
Qed.

Lemma include_fuel_agree n : forall n' include,
  max_dots include < n -> max_dots include < n' ->
  get_include_mask_fuel n include = get_include_mask_fuel n' include
  /\ is_Some (get_include_mask_fuel n include).
Proof.
  induction n as [|n IH]; intros n' include Hn Hn'; [lia|].
  destruct n' as [|n']; [lia|]. cbn.
  destruct (fold_left include_step include ([], [])) as [mask pre] eqn:Hfold.
  destruct (include_groups_agree (get_include_mask_fuel n)
              (get_include_mask_fuel n') pre mask) as [<- [m ->]]; [|split; [done|by eexists]].
  intros key values Hin.
  pose proof (include_fold_dots _ _ _ _ _ Hfold Hin).
  apply IH; lia.
Qed.

Lemma get_include_mask_fuel_enough n include :
  max_dots include < n ->
  get_include_mask_fuel n include = Some (get_include_mask include).
Proof.
  intros Hn. unfold get_include_mask.
  destruct (include_fuel_agree n (S (max_dots include)) include Hn ltac:(lia))
    as [<- [m ->]]. done.
Qed.

(** [get_include_mask] satisfies the equation of the source. *)
Lemma get_include_mask_eq include :
  Some (get_include_mask include) =
  let '(mask, pre_mask) := fold_left include_step include ([], []) in
  match include_groups (fun values => Some (get_include_mask values)) pre_mask mask with
  | Some mask => Some (PDict mask)
  | None => None
  end.
Proof.
  rewrite <- (get_include_mask_fuel_enough (S (max_dots include))) by lia.
  cbn [get_include_mask_fuel].
  destruct (fold_left include_step include ([], [])) as [mask pre] eqn:Hfold.
  destruct (include_groups_agree (get_include_mask_fuel (max_dots include))
              (fun values => Some (get_include_mask values)) pre mask) as [<- _]; [|done].
  intros key values Hin.
  pose proof (include_fold_dots _ _ _ _ _ Hfold Hin).
  rewrite get_include_mask_fuel_enough by done. split; [done|by eexists].
Qed.

Lemma elem_of_suffixes include first t :
  t ∈ suffixes include first <->
  exists item, item ∈ include /\ split_dot1 item = (first, Some t).
Proof.
  unfold suffixes. rewrite elem_of_list_to_set, list_elem_of_omap.
  split; intros (item & Hin & Hs); exists item; (split; [done|]).
  - unfold suffix_under in Hs. destruct (split_dot1 item) as [h [s|]]; [|done].
    destruct (String.eqb_spec h first) as [->|]; [|done]. by injection Hs as ->.
  - unfold suffix_under. rewrite Hs. by rewrite String.eqb_refl.
Qed.

Lemma suffixes_cons item include first :
  suffixes (item :: include) first
  = match suffix_under first item with
    | Some t => {[t]} ∪ suffixes include first
    | None => suffixes include first
    end.
Proof. unfold suffixes. cbn. by destruct (suffix_under first item). Qed.

(** What the first loop leaves in [mask] and [pre_mask]. *)
Lemma include_fold_lookup include : forall mask0 pre0 mask pre,
  fold_left include_step include (mask0, pre0) = (mask, pre) ->
  NoDup mask0.*1 -> NoDup pre0.*1 ->
  NoDup mask.*1 /\ NoDup pre.*1 /\
  (forall key, dict_get key mask
     = if is_bare_path include key then Some (PDict []) else dict_get key mask0) /\
  (forall key, default ∅ (dict_get key pre)
     = suffixes include key ∪ default ∅ (dict_get key pre0)).
Proof.
  induction include as [|item include IH]; intros mask0 pre0 mask pre Hfold Hm Hp.
  - cbn in Hfold. injection Hfold as <- <-. repeat split; try done.
    intros key. unfold suffixes. cbn. by rewrite (left_id_L ∅ (∪)).
  - cbn [fold_left] in Hfold. unfold include_step at 2 in Hfold.
    destruct (split_dot1 item) as [h [s|]] eqn:Hs.
    + destruct (IH _ _ _ _ Hfold Hm (dict_set_nodup _ _ _ Hp))
        as (Hm' & Hp' & Hmask & Hpre).
      apply split_dot1_Some in Hs as Hs'. destruct Hs' as (Hitem & Hh & Hdots).
      assert (has_dot item = true) as Hdot by (rewrite Hitem; apply has_dot_app).
      repeat split; try done.
      * intros key. rewrite Hmask. cbn. by rewrite Hdot.
      * intros key. rewrite Hpre, suffixes_cons. unfold suffix_under. rewrite Hs.
        destruct (String.eqb_spec h key) as [->|Hne].
        -- rewrite dict_get_set_eq. cbn. apply set_eq. intros x.
           rewrite !elem_of_union. tauto.
        -- by rewrite dict_get_set_ne.
    + destruct (IH _ _ _ _ Hfold (dict_set_nodup _ _ _ Hm) Hp)
        as (Hm' & Hp' & Hmask & Hpre).
      apply split_dot1_None in Hs as Hs'. destruct Hs' as [-> Hdot].
      repeat split; try done.
      * intros key. rewrite Hmask. cbn. rewrite Hdot. cbn.
        destruct (String.eqb_spec item key) as [->|Hne]; cbn.
        -- rewrite dict_get_set_eq. by destruct (is_bare_path include key).
        -- by rewrite dict_get_set_ne.
      * intros key. rewrite Hpre, suffixes_cons. unfold suffix_under. by rewrite Hs.
Qed.

(** What the second loop leaves in [mask]. *)
Lemma include_groups_lookup rec pre : forall mask final,
  include_groups rec pre mask = Some final ->
  NoDup pre.*1 -> NoDup mask.*1 ->
  NoDup final.*1 /\
  forall key, match dict_get key pre with
              | Some values => rec (elements values)
              | None => dict_get key mask
              end = dict_get key final.
Proof.
  induction pre as [|[k0 v0] pre IH]; intros mask final Hg Hp Hm.
  - cbn in Hg. by injection Hg as <-.
  - cbn in Hg. destruct (rec (elements v0)) as [sub|] eqn:Hrec; [|done].
    cbn in Hp. apply NoDup_cons in Hp as [Hk0 Hp].
    destruct (IH _ _ Hg Hp (dict_set_nodup _ _ _ Hm)) as [Hf Hlook].
    split; [done|]. intros key. cbn. rewrite <- Hlook.
    destruct (String.eqb_spec key k0) as [->|Hne].
    + apply dict_get_None in Hk0. by rewrite Hk0, dict_get_set_eq.
    + by rewrite dict_get_set_ne.
Qed.

(** The mask as a map: a first segment with suffixes maps to the mask of
    its suffixes, a path without a dot and without suffixes to a leaf. *)
Lemma get_include_mask_lookup include :
  exists mask,
    get_include_mask include = PDict mask /\ NoDup mask.*1 /\
    forall key,
      dict_get key mask =
      if decide (suffixes include key = ∅)
      then (if is_bare_path include key then Some (PDict []) else None)
      else Some (get_include_mask (elements (suffixes include key))).
Proof.
  pose proof (get_include_mask_eq include) as Heq.
  destruct (fold_left include_step include ([], [])) as [mask pre] eqn:Hfold.
  destruct (include_fold_lookup _ _ _ _ _ Hfold ltac:(constructor) ltac:(constructor))
    as (Hm & Hp & Hmask & Hpre).
  destruct (include_groups _ pre mask) as [final|] eqn:Hg; [|done].
  injection Heq as ->.
  destruct (include_groups_lookup _ _ _ _ Hg Hp Hm) as [Hf Hlook].
  exists final. repeat split; try done.
  intros key. rewrite <- Hlook. specialize (Hpre key). cbn in Hpre.
  rewrite Hmask. cbn.
  destruct (dict_get key pre) as [values|] eqn:Hk; cbn in Hpre.
  - rewrite (right_id_L ∅ (∪)) in Hpre. subst values.
    apply dict_get_elem in Hk.
    destruct (include_fold_nonempty _ _ _ _ _ key (suffixes include key) Hfold)
      as [t Ht]; [intros k v Hv; by apply elem_of_nil in Hv|done|].
    destruct (decide (suffixes include key = ∅)) as [He|]; [|done].
    rewrite He in Ht. by apply not_elem_of_empty in Ht.
  - destruct (decide (suffixes include key = ∅)) as [|Hne]; [done|].
    destruct Hne. by rewrite (right_id_L ∅ (∪)) in Hpre.
Qed.

Lemma get_include_mask_nonempty include :
  include <> [] -> get_include_mask include <> PDict [].
Proof.
  intros Hne. destruct (get_include_mask_lookup include) as (mask & -> & _ & Hlook).
  destruct include as [|item include]; [done|].
  intros [= ->].
  destruct (split_dot1 item) as [h [t|]] eqn:Hs.
  - specialize (Hlook h). cbn [dict_get] in Hlook.
    destruct (decide (suffixes (item :: include) h = ∅)) as [He|]; [|done].
    assert (t ∈ suffixes (item :: include) h) as Ht.
    { apply elem_of_suffixes. exists item. split; [by left|done]. }
    rewrite He in Ht. by apply not_elem_of_empty in Ht.
  - apply split_dot1_None in Hs as [-> Hdot].
    specialize (Hlook item). cbn [dict_get is_bare_path existsb] in Hlook.
    rewrite Hdot, String.eqb_refl in Hlook.
    cbn [negb andb orb] in Hlook.
    by destruct (decide (suffixes (item :: include) item = ∅)).
Qed.

(** C9. [get_include_mask(['a', 'b.c', 'b.d'])] equals
    [{'a': {}, 'b': {'c': {}, 'd': {}}}] as a Python dict; in general each
    path is split at its first dot, the suffixes are grouped by first
    segment, and a first segment with suffixes maps to the mask of its
    suffixes. *)
Theorem include_mask_of_paths :
  py_eq (get_include_mask ["a"; "b.c"; "b.d"])
    (PDict [("a", PDict []); ("b", PDict [("c", PDict []); ("d", PDict [])])])
  = true
  /\ forall include, exists mask,
       get_include_mask include = PDict mask /\ NoDup mask.*1 /\
       forall first,
         (forall t, t ∈ suffixes include first <->
            exists item, item ∈ include /\ split_dot1 item = (first, Some t)) /\
         dict_get first mask =
           if decide (suffixes include first = ∅)
           then (if is_bare_path include first then Some (PDict []) else None)
           else Some (get_include_mask (elements (suffixes include first))).
Proof.
  split; [by vm_compute|].
  intros include. destruct (get_include_mask_lookup include) as (mask & ? & ? & Hl).
  exists mask. repeat split; try done; apply elem_of_suffixes.
Qed.

(** C10. When the list has both a name and a longer path that starts with
    it, the mask has one entry for the name, and it is the mask of the
    suffixes, not the empty leaf. *)
Theorem bare_path_is_overwritten (include : list string) (name rest : string) :
  has_dot name = false ->
  name ∈ include -> (name +:+ "." +:+ rest) ∈ include ->
  exists (mask : list (string * pyval)) (values : gset string),
    get_include_mask include = PDict mask /\ NoDup mask.*1 /\
    (forall t, t ∈ values <-> (name +:+ "." +:+ t) ∈ include) /\
    dict_get name mask = Some (get_include_mask (elements values)) /\
    get_include_mask (elements values) <> PDict [].
Proof.
  intros Hdot Hbare Hdotted.
  destruct (get_include_mask_lookup include) as (mask & Hmask & Hnd & Hlook).
  exists mask, (suffixes include name).
  assert (forall t, t ∈ suffixes include name <-> (name +:+ "." +:+ t) ∈ include) as Hs.
  { intros t. rewrite elem_of_suffixes. split.
    - intros (item & Hin & Hsp). by apply split_dot1_Some in Hsp as (-> & _ & _).
    - intros Hin. eexists. split; [done|]. by apply split_dot1_app. }
  assert (rest ∈ suffixes include name) as Hrest by (by apply Hs).
  repeat split; try done; try by apply Hs.
  - rewrite Hlook. destruct (decide (suffixes include name = ∅)) as [He|]; [|done].
    rewrite He in Hrest. by apply not_elem_of_empty in Hrest.
  - apply get_include_mask_nonempty. intros He.
    apply elem_of_elements in Hrest. rewrite He in Hrest.
    by apply elem_of_nil in Hrest.
Qed.

Lemma bare_path_is_overwritten_witness :
  exists (mask : list (string * pyval)) (values : gset string),
    get_include_mask ["b"; "b.c"] = PDict mask /\ NoDup mask.*1 /\
    (forall t, t ∈ values <-> ("b" +:+ "." +:+ t) ∈ ["b"; "b.c"]) /\
    dict_get "b" mask = Some (get_include_mask (elements values)) /\
    get_include_mask (elements values) <> PDict [].
Proof.
  apply (bare_path_is_overwritten ["b"; "b.c"] "b" "c").
  - reflexivity.
  - by left.
  - right. by left.
Defined.

(** * The entity field serializer *)

Section SerializeFacts.
Variable getattr : string -> string -> option attribute.
Variable all_orm_descriptors : string -> list (string * attribute).

Lemma serialize_fields_nodup model exclude_fields fields column_mapping :
  forall ret ret',
    serialize_fields getattr model exclude_fields fields column_mapping ret = Ok ret' ->
    NoDup ret.*1 -> NoDup ret'.*1.
Proof.
  induction column_mapping as [|[field attr] rest IH]; intros ret ret' Hs Hnd.
  - cbn in Hs. by injection Hs as <-.
  - cbn in Hs. destruct (dict_get attr (obj_cols model)) as [value|]; [|done].
    destruct (getattr_or_raise getattr (obj_class model) attr) as [cattr|]; [|done].
    cbn in Hs.
    destruct (serialize_value (is_association_proxy cattr) value) as [v|]; [|done].
    cbn in Hs. apply IH in Hs; [done|].
    destruct (negb (str_in field exclude_fields)); [|done].
    destruct fields; [by apply dict_set_nodup|].
    destruct (str_in field (s :: fields)); [by apply dict_set_nodup|done].
Qed.

Lemma serialize_no_relations_nodup model conf ret :
  serialize getattr all_orm_descriptors model conf [] = Ok ret -> NoDup ret.*1.
Proof.
  unfold serialize. intros Hs.
  destruct (serialize_fields _ _ _ _ _ _) as [r|] eqn:Hf; [|done].
  cbn in Hs. injection Hs as <-.
  eapply serialize_fields_nodup; [done|constructor].
Qed.

(** Related items whose join value differs from [x] leave the entity's
    map as it is. *)
Lemma attach_one_skip k meta fk fk_pair item x (skipped rest : list pyval) :
  meta_fk meta = PStr fk -> meta_fk_pair meta = PStr fk_pair ->
  default PNone (dict_get fk item) = x ->
  Forall (fun r => exists d, r = PDict d /\
            py_eq x (default PNone (dict_get fk_pair d)) = false) skipped ->
  attach_one k meta (skipped ++ rest) item = attach_one k meta rest item.
Proof.
  intros Hfk Hpair Hx. induction 1 as [|r skipped (d & -> & Hne) _ IH]; [done|].
  cbn. rewrite Hfk, Hpair. cbn. rewrite Hx, Hne. cbn. apply IH.
Qed.

(** A related item whose join value matches replaces the local join field. *)
Lemma attach_one_match k meta fk fk_pair item d (rest : list pyval) :
  meta_fk meta = PStr fk -> meta_fk_pair meta = PStr fk_pair ->
  py_eq (default PNone (dict_get fk item))
        (default PNone (dict_get fk_pair d)) = true ->
  dict_mem fk item = true ->
  attach_one k meta (PDict d :: rest) item
  = attach_one k meta rest (dict_set k (PDict d) (dict_remove fk item)).
Proof.
  intros Hfk Hpair Hmatch Hmem. cbn. rewrite Hfk, Hpair. cbn.
  by rewrite Hmatch, Hmem.
Qed.

(** C4. [serialize] with a one-to-one relation record, for an entity
    whose map has the local join field: the first related item whose
    remote join value equals the local one is stored as a dict under the
    relation name, the local join field is removed, and every other field
    of the entity's map is as it was. The related items before it do not
    match, and those after it have a join value. *)
Theorem one_to_one_is_inlined (model : obj) (conf : fields_conf)
    (k fk fk_pair : string) (meta : relmeta)
    (ret rel_item : list (string * pyval)) (before after : list pyval)
    (nested : list (string * relrec)) :
  serialize getattr all_orm_descriptors model conf [] = Ok ret ->
  meta_o2o meta = true ->
  meta_fk meta = PStr fk -> fk <> "" ->
  meta_fk_pair meta = PStr fk_pair -> fk_pair <> "" ->
  k <> fk ->
  dict_mem fk ret = true ->
  py_eq (default PNone (dict_get fk ret))
        (default PNone (dict_get fk_pair rel_item)) = true ->
  Forall (fun r => exists d, r = PDict d /\
            py_eq (default PNone (dict_get fk ret))
                  (default PNone (dict_get fk_pair d)) = false) before ->
  Forall (fun r => exists d, r = PDict d /\
            py_eq PNone (default PNone (dict_get fk_pair d)) = false) after ->
  let relations :=
    [(k, RelRec (before ++ PDict rel_item :: after) nested (Some meta))] in
  exists item,
    serialize getattr all_orm_descriptors model conf relations = Ok item
    /\ item = dict_set k (PDict rel_item) (dict_remove fk ret)
    /\ dict_get k item = Some (PDict rel_item)
    /\ dict_get fk item = None
    /\ forall field, field <> k -> field <> fk ->
         dict_get field item = dict_get field ret.
Proof.
  intros Hret Ho2o Hfk Hfk_ne Hpair Hpair_ne Hk Hmem Hmatch Hbefore Hafter relations.
  pose proof (serialize_no_relations_nodup _ _ _ Hret) as Hnd.
  exists (dict_set k (PDict rel_item) (dict_remove fk ret)).
  assert (dict_get fk (dict_set k (PDict rel_item) (dict_remove fk ret)) = None)
    as Hgone.
  { rewrite dict_get_set_ne by done. by apply dict_get_remove_eq. }
  repeat split.
  - unfold serialize in *.
    destruct (serialize_fields _ _ _ _ _ _) as [r|]; [|done].
    cbn in Hret. injection Hret as ->. cbn -[attach_one].
    rewrite Hfk, Hpair, Ho2o. cbn -[attach_one].
    destruct (String.eqb_spec fk ""); [done|].
    destruct (String.eqb_spec fk_pair ""); [done|].
    rewrite andb_false_r. cbn -[attach_one].
    rewrite (attach_one_skip k meta fk fk_pair ret _ before) by done.
    rewrite (attach_one_match k meta fk fk_pair) by done.
    rewrite <- (app_nil_r after).
    rewrite (attach_one_skip k meta fk fk_pair _ PNone after []); try done.
    by rewrite Hgone.
  - apply dict_get_set_eq.
  - done.
  - intros field Hf1 Hf2. rewrite dict_get_set_ne by done.
    by apply dict_get_remove_ne.
Qed.

End SerializeFacts.

(** * The relation graph serializer *)

(** Induction on Python values, with the hypothesis for the elements of a
    list and the values of a dict. *)
Lemma pyval_ind' (P : pyval -> Prop) :
  P PNone -> (forall b, P (PBool b)) -> (forall z, P (PInt z)) ->
  (forall q, P (PFloat q)) -> (forall s, P (PStr s)) ->
  (forall l, Forall P l -> P (PList l)) ->
  (forall kvs, Forall (fun kv => P kv.2) kvs -> P (PDict kvs)) ->
  forall v, P v.
Proof.
  intros HN HB HI HF HS HL HD.
  fix IH 1. intros [|b|z|q|s|l|kvs];
    [apply HN|apply HB|apply HI|apply HF|apply HS| |].
  - apply HL. induction l as [|x l IHl]; constructor; [apply IH|apply IHl].
  - apply HD. induction kvs as [|[k x] kvs IHk]; constructor; [apply IH|apply IHk].
Qed.

Lemma relrec_ind' (P : relrec -> Prop) :
  (forall items rel meta, Forall (fun kv => P kv.2) rel -> P (RelRec items rel meta)) ->
  forall v, P v.
Proof.
  intros H. fix IH 1. intros [items rel meta]. apply H.
  induction rel as [|[k v] rel IHr]; constructor; [apply IH|apply IHr].
Qed.

Section RelationFacts.
Variable getattr : string -> string -> option attribute.
Variable all_orm_descriptors : string -> list (string * attribute).
Variable primary_key : string -> list string.
Variable local_attr_readable : string -> string -> bool.

Lemma relation_meta_flags model_class relation_attr p relation_pk m :
  relation_meta all_orm_descriptors local_attr_readable model_class relation_attr p relation_pk = Ok m ->
  flags_ok m
  /\ (meta_m2m m = true <-> rel_direction p = MANYTOMANY)
  /\ (meta_m2o m = true <-> rel_direction p = MANYTOONE)
  /\ (meta_o2m m = true <-> rel_direction p = ONETOMANY)
  /\ meta_o2o m = negb (meta_m2m m) && negb (rel_uselist p).
Proof.
  unfold relation_meta. intros H.
  destruct (rel_direction p) eqn:Hd; cbn in H;
    [| |destruct (find_association_proxy _ _ _ _); [cbn in H|done]];
    injection H as <-; unfold flags_ok; cbn;
    destruct (rel_uselist p); cbn; repeat split; intros; done.
Qed.

Lemma relations_metas_dict_set name v (rels : list (string * relrec)) :
  Forall flags_ok (record_metas v) ->
  Forall flags_ok (relations_metas rels) ->
  Forall flags_ok (relations_metas (dict_set name v rels)).
Proof.
  intros Hv. unfold relations_metas.
  induction rels as [|[k v'] rels IH]; cbn; intros Hr.
  - by rewrite app_nil_r.
  - apply Forall_app in Hr as [H1 H2].
    destruct (String.eqb name k); cbn; apply Forall_app; auto.
Qed.

Lemma serialize_relations_loop_flags rec model_class entities conf meta kvs :
  Forall (fun kv => forall c e rels, rec c e kv.2 = Ok rels ->
            Forall flags_ok (relations_metas rels)) kvs ->
  forall relations rels,
    serialize_relations_loop getattr all_orm_descriptors primary_key local_attr_readable rec
      model_class entities conf meta kvs relations = Ok rels ->
    Forall flags_ok (relations_metas relations) ->
    Forall flags_ok (relations_metas rels).
Proof.
  induction 1 as [|[name mask] kvs Hrec _ IH]; intros relations rels Hs Hacc.
  - cbn in Hs. by injection Hs as <-.
  - cbn in Hs.
    destruct (getattr_or_raise getattr model_class name) as [attr|]; [|done].
    cbn in Hs. destruct (relationship_of attr) as [p|]; [|done].
    cbn in Hs. destruct (get_pk_column primary_key (rel_class p)) as [pk|]; [|done].
    cbn in Hs.
    destruct (relation_meta all_orm_descriptors local_attr_readable model_class attr p pk) as [m|] eqn:Hm;
      [|done].
    cbn in Hs. destruct (collect_relation_items name entities []) as [items|]; [|done].
    cbn in Hs. destruct (rec (rel_class p) items mask) as [nested|] eqn:Hn; [|done].
    cbn in Hs. destruct (res_mapM _ items) as [ser|]; [|done].
    cbn in Hs. apply IH in Hs; [done|].
    apply relations_metas_dict_set; [|done].
    cbn. apply Forall_app. split.
    + destruct meta; cbn; [|constructor].
      constructor; [|constructor]. by apply relation_meta_flags in Hm as [? _].
    + by apply (Hrec _ _ _ Hn).
Qed.

(** C5. Every [_meta] that [serialize_relations] computes, at any depth,
    has exactly one of its four flags true, or [o2o] and one more that is
    not [m2m]. *)
Theorem relation_flags (model_class : string) (entities : list obj)
    (include_mask : pyval) (conf : fields_conf) (meta : bool)
    (rels : list (string * relrec)) :
  serialize_relations getattr all_orm_descriptors primary_key local_attr_readable
    model_class entities include_mask conf meta = Ok rels ->
  Forall flags_ok (relations_metas rels).
Proof.
  revert model_class entities meta rels.
  induction include_mask as [| | | |s|l _|kvs IH] using pyval_ind';
    intros model_class entities meta rels Hs; try done.
  - destruct s; [|done]. cbn in Hs. injection Hs as <-. constructor.
  - destruct l; [|done]. cbn in Hs. injection Hs as <-. constructor.
  - cbn in Hs. eapply serialize_relations_loop_flags; [|done|constructor].
    eapply Forall_impl; [done|]. intros [k mask] Hm c e r Hr. cbn in *.
    by eapply Hm.
Qed.

End RelationFacts.

(** * The many-relation lifter *)

Lemma Qeq_bool_trans x y z :
  Qeq_bool x y = true -> Qeq_bool y z = true -> Qeq_bool x z = true.
Proof.
  rewrite !Qeq_bool_iff. intros H1 H2. by rewrite H1.
Qed.

Lemma py_eq_num a b :
  py_eq a b = true -> is_Some (num_of a) ->
  exists x y, num_of a = Some x /\ num_of b = Some y /\ Qeq_bool x y = true.
Proof.
  intros H [x Hx]. destruct a; try discriminate Hx;
    destruct b; try discriminate H; cbn in *; eauto.
Qed.

Lemma py_eq_of_num a b x y :
  num_of a = Some x -> num_of b = Some y -> py_eq a b = Qeq_bool x y.
Proof.
  intros Ha Hb. destruct a; try discriminate Ha;
    destruct b; try discriminate Hb; cbn in *; congruence.
Qed.

Lemma py_eq_trans a : forall b c,
  py_eq a b = true -> py_eq b c = true -> py_eq a c = true.
Proof.
  induction a as [|x|x|x|s|l IH|kvs IH] using pyval_ind'; intros b c Hab Hbc.
  - destruct b; try discriminate Hab. done.
  - destruct (py_eq_num _ _ Hab) as (x1 & y1 & H1 & H2 & H3); [by eexists|].
    destruct (py_eq_num _ _ Hbc) as (x2 & y2 & H4 & H5 & H6); [by eexists|].
    rewrite (py_eq_of_num _ _ _ _ H1 H5). simplify_eq. by eapply Qeq_bool_trans.
  - destruct (py_eq_num _ _ Hab) as (x1 & y1 & H1 & H2 & H3); [by eexists|].
    destruct (py_eq_num _ _ Hbc) as (x2 & y2 & H4 & H5 & H6); [by eexists|].
    rewrite (py_eq_of_num _ _ _ _ H1 H5). simplify_eq. by eapply Qeq_bool_trans.
  - destruct (py_eq_num _ _ Hab) as (x1 & y1 & H1 & H2 & H3); [by eexists|].
    destruct (py_eq_num _ _ Hbc) as (x2 & y2 & H4 & H5 & H6); [by eexists|].
    rewrite (py_eq_of_num _ _ _ _ H1 H5). simplify_eq. by eapply Qeq_bool_trans.
  - destruct b; try discriminate Hab. destruct c; try discriminate Hbc.
    cbn in *. apply String.eqb_eq in Hab, Hbc. subst. apply String.eqb_refl.
  - destruct b as [| | | | |l2|]; try discriminate Hab.
    destruct c as [| | | | |l3|]; try discriminate Hbc.
    revert l2 l3 Hab Hbc. induction IH as [|x l Hx _ IHl]; intros l2 l3 Hab Hbc.
    + destruct l2; [|discriminate Hab]. done.
    + destruct l2 as [|y l2]; [discriminate Hab|].
      destruct l3 as [|z l3]; [discriminate Hbc|].
      cbn in Hab, Hbc. apply andb_true_iff in Hab as [H1 H2].
      apply andb_true_iff in Hbc as [H3 H4].
      cbn. apply andb_true_iff. split; [by eapply Hx|by eapply IHl].
  - destruct b as [| | | | | |d2]; try discriminate Hab.
    destruct c as [| | | | | |d3]; try discriminate Hbc.
    cbn in Hab, Hbc. apply andb_true_iff in Hab as [Hl1 H1].
    apply andb_true_iff in Hbc as [Hl2 H2].
    cbn. apply andb_true_iff. split.
    { apply Nat.eqb_eq in Hl1, Hl2. apply Nat.eqb_eq. congruence. }
    assert (forall k v, (k, v) ∈ d2 ->
              exists v', dict_get k d3 = Some v' /\ py_eq v v' = true) as Hd2.
    { clear -H2. induction d2 as [|[k0 v0] d2 IHd]; intros k v Hin.
      - by apply elem_of_nil in Hin.
      - apply andb_true_iff in H2 as [Hh Ht].
        apply elem_of_cons in Hin as [[= -> ->]|Hin]; [|by apply IHd].
        destruct (dict_get k0 d3); [eauto|done]. }
    clear H2 Hl1 Hl2. induction IH as [|[k v] kvs Hv _ IHk]; [done|].
    apply andb_true_iff in H1 as [Hh Ht].
    apply andb_true_iff. split; [|by apply IHk].
    destruct (dict_get k d2) as [v2|] eqn:Hk2; [|done].
    destruct (Hd2 k v2 (dict_get_elem _ _ _ Hk2)) as (v3 & -> & H23).
    by eapply Hv.
Qed.

Lemma stands_for_trans z y x : stands_for z y -> stands_for y x -> stands_for z x.
Proof.
  intros [->|Hzy] [->|Hyx]; [by left|by right|by right|].
  right. by eapply py_eq_trans.
Qed.

Lemma py_in_false x vals : py_in x vals = false -> forall e, e ∈ vals -> py_eq x e = false.
Proof.
  unfold py_in. induction vals as [|e' vals IH]; cbn; intros H e He.
  - by apply elem_of_nil in He.
  - apply orb_false_iff in H as [H1 H2].
    apply elem_of_cons in He as [->|He]; [done|by apply IH].
Qed.

Lemma py_in_true x vals : py_in x vals = true -> exists e, e ∈ vals /\ py_eq x e = true.
Proof.
  unfold py_in. induction vals as [|e' vals IH]; cbn; intros H; [done|].
  apply orb_true_iff in H as [H|H].
  - exists e'. split; [by left|done].
  - destruct (IH H) as (e & He & Heq). exists e. split; [by right|done].
Qed.

Lemma py_distinct_snoc vals x :
  py_distinct vals -> py_in x vals = false -> py_distinct (vals ++ [x]).
Proof.
  intros Hd Hx i j a b Hij Hi Hj.
  assert (j < length (vals ++ [x])) as Hlen by (by eapply lookup_lt_Some).
  rewrite length_app in Hlen. cbn in Hlen.
  rewrite lookup_app_l in Hi by lia.
  destruct (decide (j < length vals)) as [Hlt|Hge].
  - rewrite lookup_app_l in Hj by done. by apply (Hd i j).
  - rewrite lookup_app_r in Hj by lia.
    replace (j - length vals) with 0 in Hj by lia. cbn in Hj. injection Hj as <-.
    eapply py_in_false; [done|]. by eapply list_elem_of_lookup_2.
Qed.

Lemma extend_unique_spec items : forall vals,
  py_distinct vals ->
  py_distinct (extend_unique items vals)
  /\ (forall y, y ∈ vals -> y ∈ extend_unique items vals)
  /\ (forall y, y ∈ extend_unique items vals -> y ∈ vals \/ y ∈ items)
  /\ (forall x, x ∈ items -> exists y, y ∈ extend_unique items vals /\ stands_for y x).
Proof.
  unfold extend_unique.
  induction items as [|item items IH]; intros vals Hd; cbn.
  - repeat split; auto. intros x Hx. by apply elem_of_nil in Hx.
  - destruct (py_in item vals) eqn:Hin.
    + destruct (IH vals Hd) as (H1 & H2 & H3 & H4). repeat split; auto.
      * intros y Hy. destruct (H3 y Hy); [by left|]. right. by right.
      * intros x [->|Hx]%elem_of_cons; [|by apply H4].
        destruct (py_in_true _ _ Hin) as (e & He & Heq).
        exists e. split; [by apply H2|by right].
    + destruct (IH (vals ++ [item]) (py_distinct_snoc _ _ Hd Hin))
        as (H1 & H2 & H3 & H4). repeat split; auto.
      * intros y Hy. apply H2. apply elem_of_app. by left.
      * intros y Hy. destruct (H3 y Hy) as [Hy'|Hy']; [|right; by right].
        apply elem_of_app in Hy' as [?|Hy']; [by left|].
        apply list_elem_of_singleton in Hy' as ->. right. by left.
      * intros x [->|Hx]%elem_of_cons; [|by apply H4].
        exists item. split; [|by left]. apply H2. apply elem_of_app. right. by left.
Qed.

Lemma lifted_refine (src src2 : string -> pyval -> Prop) many_rels :
  lifted src many_rels ->
  (forall k x, src k x -> src2 k x) ->
  (forall k x, src2 k x -> exists y, src k y /\ stands_for y x) ->
  lifted src2 many_rels.
Proof.
  intros (Hnd & Hs & Hc) H1 H2. repeat split; [done| | |].
  - by apply (Hs k).
  - intros x Hx. apply H1. by apply (Hs k vals).
  - intros k x Hx. destruct (H2 k x Hx) as (y & Hy & Hyx).
    destruct (Hc k y Hy) as (vals & z & Hv & Hz & Hzy).
    exists vals, z. repeat split; [done..|]. by eapply stands_for_trans.
Qed.

Lemma lifted_iff (src src2 : string -> pyval -> Prop) many_rels :
  lifted src many_rels -> (forall k x, src k x <-> src2 k x) -> lifted src2 many_rels.
Proof.
  intros H Hiff. eapply lifted_refine; [done|by intros; apply Hiff|].
  intros k x Hx. exists x. split; [by apply Hiff|by left].
Qed.

Lemma lifted_empty : lifted (fun _ _ => False) [].
Proof. repeat split; [constructor|done..]. Qed.

Lemma py_distinct_nil : py_distinct [].
Proof. intros i j a b _ Hi. done. Qed.

Lemma lift_items_lifted src k items many_rels :
  lifted src many_rels ->
  lifted (fun k' x => src k' x \/ (k' = k /\ x ∈ items))
    (lift_items k items many_rels).
Proof.
  intros (Hnd & Hs & Hc). unfold lift_items.
  set (old := default [] (dict_get k many_rels)).
  assert (py_distinct old /\ forall x, x ∈ old -> src k x) as [Hdo Hso].
  { unfold old. destruct (dict_get k many_rels) as [vals|] eqn:Hk; cbn.
    - by apply Hs.
    - split; [apply py_distinct_nil|]. intros x Hx. by apply elem_of_nil in Hx. }
  destruct (extend_unique_spec items old Hdo) as (H1 & H2 & H3 & H4).
  repeat split.
  - by apply dict_set_nodup.
  - destruct (decide (k0 = k)) as [->|Hne].
    + rewrite dict_get_set_eq in H. by injection H as <-.
    + rewrite dict_get_set_ne in H by done. by apply (Hs k0).
  - intros x Hx. destruct (decide (k0 = k)) as [->|Hne].
    + rewrite dict_get_set_eq in H. injection H as <-.
      destruct (H3 x Hx); [left; by apply Hso|by right].
    + rewrite dict_get_set_ne in H by done. left. by apply (Hs k0 vals).
  - intros k' x [Hx|[-> Hx]].
    + destruct (Hc k' x Hx) as (vals & y & Hv & Hy & Hyx).
      destruct (decide (k' = k)) as [->|Hne].
      * eexists _, y. rewrite dict_get_set_eq. repeat split; [|done].
        apply H2. unfold old. by rewrite Hv.
      * exists vals, y. by rewrite dict_get_set_ne.
    + destruct (H4 x Hx) as (y & Hy & Hyx). eexists _, y.
      by rewrite dict_get_set_eq.
Qed.

Lemma merge_fold_lifted new : forall src many_rels,
  lifted src many_rels ->
  lifted (fun k x => src k x \/ exists vals, (k, vals) ∈ new /\ x ∈ vals)
    (merge_many new many_rels).
Proof.
  unfold merge_many.
  induction new as [|[k0 vals0] new IH]; intros src many_rels Hl; cbn.
  - eapply lifted_iff; [done|]. intros k x. split; [by left|].
    intros [?|(vals & Hin & _)]; [done|]. by apply elem_of_nil in Hin.
  - eapply lifted_iff; [apply IH, lift_items_lifted, Hl|].
    intros k x. cbn. split.
    + intros [[?|[-> Hx]]|(vals & Hin & Hx)].
      * by left.
      * right. exists vals0. split; [by left|done].
      * right. exists vals. split; [by right|done].
    + intros [?|(vals & [[= -> ->]|Hin]%elem_of_cons & Hx)].
      * left. by left.
      * left. by right.
      * right. eauto.
Qed.

Lemma merge_many_lifted src src' new many_rels :
  lifted src many_rels -> lifted src' new ->
  lifted (fun k x => src k x \/ src' k x) (merge_many new many_rels).
Proof.
  intros Hl (Hnd' & Hs' & Hc').
  eapply lifted_refine; [by apply (merge_fold_lifted new)| |].
  - intros k x [?|(vals & Hin & Hx)]; [by left|]. right.
    apply (Hs' k vals); [|done]. by apply elem_dict_get.
  - intros k x [Hx|Hx].
    + exists x. split; [by left|by left].
    + destruct (Hc' k x Hx) as (vals & y & Hv & Hy & Hyx).
      exists y. split; [|done]. right. exists vals.
      split; [by apply dict_get_elem|done].
Qed.

Lemma many_item_nil k x : ~ many_item k x [].
Proof.
  intros H. inversion H as [? ? ? ? Hin|? ? ? ? ? Hin]; subst;
    by apply elem_of_nil in Hin.
Qed.

Lemma many_item_cons k x kv rels :
  many_item k x (kv :: rels) <-> many_item k x [kv] \/ many_item k x rels.
Proof.
  split.
  - intros H. inversion H as [? items nested m Hin Hm Hx
                             |? k' items nested meta Hin Hn]; subst;
      apply elem_of_cons in Hin as [<-|Hin].
    + left. eapply many_item_here; [by left|done..].
    + right. by eapply many_item_here.
    + left. eapply many_item_nested; [by left|done].
    + right. by eapply many_item_nested.
  - intros [H|H];
      inversion H as [? items nested m Hin Hm Hx|? k' items nested meta Hin Hn];
      subst.
    + apply list_elem_of_singleton in Hin as <-.
      eapply many_item_here; [by left|done..].
    + apply list_elem_of_singleton in Hin as <-.
      eapply many_item_nested; [by left|done].
    + eapply many_item_here; [by right|done..].
    + eapply many_item_nested; [by right|done].
Qed.

Lemma many_item_single k x k0 items nested meta :
  many_item k x [(k0, RelRec items nested meta)] <->
  (k = k0 /\ exists m, meta = Some m /\ is_many m = true /\ x ∈ items)
  \/ many_item k x nested.
Proof.
  split.
  - intros H. inversion H as [? items' nested' m Hin Hm Hx
                             |? k' items' nested' meta' Hin Hn]; subst;
      apply list_elem_of_singleton in Hin; injection Hin as ? ? ? ?; subst.
    + left. eauto.
    + by right.
  - intros [[-> (m & -> & Hm & Hx)]|Hn].
    + eapply many_item_here; [by left|done..].
    + eapply many_item_nested; [by left|done].
Qed.

Lemma lift_loop_lifted body rels :
  Forall (fun kv => forall src many_rels,
            lifted src many_rels ->
            exists many_rels',
              body kv.1 kv.2 many_rels = Ok many_rels' /\
              lifted (fun k x => src k x \/ many_item k x [kv]) many_rels') rels ->
  forall src many_rels,
    lifted src many_rels ->
    exists many_rels',
      lift_loop body rels many_rels = Ok many_rels' /\
      lifted (fun k x => src k x \/ many_item k x rels) many_rels'.
Proof.
  induction 1 as [|[k0 v0] rels Hb _ IH]; intros src many_rels Hl.
  - exists many_rels. split; [done|]. eapply lifted_iff; [done|].
    intros k x. split; [by left|]. intros [?|H]; [done|]. by apply many_item_nil in H.
  - cbn in Hb |- *. destruct (Hb src many_rels Hl) as (m1 & -> & Hl1). cbn.
    destruct (IH _ _ Hl1) as (m2 & -> & Hl2). exists m2. split; [done|].
    eapply lifted_iff; [done|]. intros k x. cbn. rewrite (many_item_cons k x (k0, v0) rels).
    tauto.
Qed.

Lemma lift_record_lifted v : forall k src many_rels,
  has_meta v = true -> lifted src many_rels ->
  exists many_rels',
    lift_record k v many_rels = Ok many_rels' /\
    lifted (fun k' x => src k' x \/ many_item k' x [(k, v)]) many_rels'.
Proof.
  induction v as [items rel meta IH] using relrec_ind'.
  intros k src many_rels Hm Hl. cbn in Hm.
  destruct meta as [m|]; [|done]. cbn in Hm.
  destruct (lift_loop_lifted lift_record rel) with (src := fun (_ : string) (_ : pyval) => False)
    (many_rels := @nil (string * list pyval)) as (new_rel & Hnew & Hlnew).
  { apply Forall_forall. intros [k' v'] Hin src' m' Hl'. cbn.
    rewrite Forall_forall in IH. apply (IH (k', v') Hin); [|done].
    rewrite forallb_forall in Hm. apply (Hm (k', v')). by apply list_elem_of_In. }
  { apply lifted_empty. }
  cbn. rewrite Hnew. cbn. eexists. split; [done|].
  eapply lifted_iff.
  - apply merge_many_lifted; [|exact Hlnew].
    instantiate (1 := fun k' x => src k' x \/ (k' = k /\ is_many m = true /\ x ∈ items)).
    destruct (is_many m) eqn:Hmany.
    + eapply lifted_iff; [by apply lift_items_lifted|]. intros k' x. cbn. tauto.
    + eapply lifted_iff; [done|]. intros k' x. cbn. split; [by left|].
      by intros [?|(_ & ? & _)].
  - intros k' x. cbn. rewrite many_item_single. split.
    + intros [[?|(-> & ? & ?)]|[[]|?]]; [by left|right; left; eauto|by right; right].
    + intros [?|[(-> & m' & [= <-] & ? & ?)|?]]; [by left; left|left; right; eauto|].
      right. by right.
Qed.

Lemma py_eq_dict_entries d d' :
  py_eq (PDict d) (PDict d') = true <->
  length d = length d' /\
  forall k v, (k, v) ∈ d -> exists v', dict_get k d' = Some v' /\ py_eq v v' = true.
Proof.
  cbn. rewrite andb_true_iff, Nat.eqb_eq.
  split; intros [Hl H]; (split; [done|]); clear Hl.
  - induction d as [|[k0 v0] d IH]; intros k v Hin.
    + by apply elem_of_nil in Hin.
    + apply andb_true_iff in H as [Hh Ht].
      apply elem_of_cons in Hin as [[= -> ->]|Hin]; [|by apply IH].
      destruct (dict_get k0 d'); [eauto|done].
  - induction d as [|[k0 v0] d IH]; [done|].
    apply andb_true_iff. split.
    + destruct (H k0 v0) as (v' & -> & Hv); [by left|done].
    + apply IH. intros k v Hin. apply H. by right.
Qed.

Lemma dict_keys_elem {V} k (d : list (string * V)) :
  k ∈ d.*1 <-> exists v, (k, v) ∈ d.
Proof.
  rewrite list_elem_of_fmap. split.
  - intros ([k' v] & -> & Hin). eauto.
  - intros [v Hin]. by exists (k, v).
Qed.

Lemma py_eq_sym a : forall b,
  py_wf a = true -> py_wf b = true -> py_eq a b = true -> py_eq b a = true.
Proof.
  induction a as [|x|x|x|s|l IH|d IH] using pyval_ind'; intros b Ha Hb Hab.
  - by destruct b.
  - destruct b; try discriminate Hab; cbn in *;
      apply Qeq_bool_iff; symmetry; by apply Qeq_bool_iff.
  - destruct b; try discriminate Hab; cbn in *;
      apply Qeq_bool_iff; symmetry; by apply Qeq_bool_iff.
  - destruct b; try discriminate Hab; cbn in *;
      apply Qeq_bool_iff; symmetry; by apply Qeq_bool_iff.
  - destruct b; try discriminate Hab. cbn in *.
    apply String.eqb_eq in Hab as ->. apply String.eqb_refl.
  - destruct b as [| | | | |l2|]; try discriminate Hab.
    cbn in Ha, Hb. revert l2 Ha Hb Hab.
    induction IH as [|x l Hx _ IHl]; intros l2 Ha Hb Hab.
    + by destruct l2.
    + destruct l2 as [|y l2]; [discriminate Hab|].
      cbn in Ha, Hb, Hab. apply andb_true_iff in Ha as [Ha1 Ha2].
      apply andb_true_iff in Hb as [Hb1 Hb2].
      apply andb_true_iff in Hab as [H1 H2].
      cbn. apply andb_true_iff. split; [by apply Hx|by apply IHl].
  - destruct b as [| | | | | |d2]; try discriminate Hab.
    cbn in Ha, Hb. apply andb_true_iff in Ha as [Hnd1 Hw1].
    apply andb_true_iff in Hb as [Hnd2 Hw2].
    apply bool_decide_eq_true in Hnd1, Hnd2.
    apply py_eq_dict_entries in Hab as [Hlen Hent].
    apply py_eq_dict_entries. split; [done|].
    assert (d.*1 ≡ₚ d2.*1) as Hperm.
    { apply submseteq_length_Permutation.
      - apply NoDup_submseteq; [done|]. intros k [v Hin]%dict_keys_elem.
        destruct (Hent k v Hin) as (v' & Hv' & _).
        apply dict_keys_elem. exists v'. by apply dict_get_elem.
      - rewrite !length_fmap. lia. }
    intros k v' Hin'.
    assert (k ∈ d.*1) as [v Hin]%dict_keys_elem.
    { rewrite Hperm. apply dict_keys_elem. eauto. }
    exists v. split; [by apply elem_dict_get|].
    destruct (Hent k v Hin) as (v2 & Hv2 & Heq).
    rewrite (elem_dict_get _ _ _ Hnd2 Hin') in Hv2. injection Hv2 as <-.
    rewrite Forall_forall in IH. apply (IH (k, v) Hin); [| |done].
    + rewrite forallb_forall in Hw1. apply (Hw1 (k, v)). by apply list_elem_of_In.
    + rewrite forallb_forall in Hw2. apply (Hw2 (k, v')). by apply list_elem_of_In.
Qed.

(** C6. On a tree of relation records that all have their [_meta],
    [get_many_relations] returns a mapping whose list under a name holds
    only items of records of that name, anywhere in the tree, whose
    [_meta] has [m2m], or [m2o] and not [o2o]; every such item is in the
    list or equal to an item of it; no item of a list is equal to one
    before it, and, the items being values as Python builds them, no two
    items of a list are equal. *)
Theorem many_relations_are_lifted (rels : list (string * relrec)) :
  forallb (fun kv => has_meta kv.2) rels = true ->
  exists many_rels,
    get_many_relations rels = Ok many_rels /\
    NoDup many_rels.*1 /\
    (forall k vals, dict_get k many_rels = Some vals ->
       py_distinct vals /\ forall x, x ∈ vals -> many_item k x rels) /\
    (forall k x, many_item k x rels ->
       exists vals y, dict_get k many_rels = Some vals /\ y ∈ vals /\ stands_for y x) /\
    ((forall k x, many_item k x rels -> py_wf x = true) ->
     forall k vals i j a b,
       dict_get k many_rels = Some vals -> i <> j ->
       vals !! i = Some a -> vals !! j = Some b -> py_eq a b = false).
Proof.
  intros Hm. unfold get_many_relations.
  destruct (lift_loop_lifted lift_record rels) with (src := fun (_ : string) (_ : pyval) => False)
    (many_rels := @nil (string * list pyval)) as (many & Hmany & Hl).
  { apply Forall_forall. intros [k v] Hin src m Hl. cbn.
    apply lift_record_lifted; [|done].
    rewrite forallb_forall in Hm. apply (Hm (k, v)). by apply list_elem_of_In. }
  { apply lifted_empty. }
  exists many. split; [done|].
  assert (lifted (fun k x => many_item k x rels) many) as (Hnd & Hs & Hc).
  { eapply lifted_iff; [done|]. intros k x. cbn. tauto. }
  repeat split; [done|by apply (Hs k)|by apply (Hs k)|done|].
  intros Hwf k vals i j a b Hk Hij Hi Hj.
  destruct (Hs k vals Hk) as [Hd Hin].
  destruct (decide (i < j)) as [Hlt|Hge].
  - destruct (py_eq a b) eqn:Hab; [|done].
    rewrite <- (Hd i j a b Hlt Hi Hj). symmetry.
    apply py_eq_sym; [| |done]; apply (Hwf k), Hin;
      by eapply list_elem_of_lookup_2.
  - apply (Hd j i b a); [lia|done..].
Qed.

(** * The statements on the example schema *)

Example compile_customer_name :
  get_filter_expr shop_getattr "Order"
    (PDict [("customer", PDict [("name", PDict [("$eq", PStr "Ann")])])])
  = Ok (EAnd [EAnd [EExists "Customer"
                      (RelationshipAttr "Order" "customer"
                         (many_to_one "Customer" "customer_id" "id"))
                      (EAnd [EPrim OpEq (ColumnAttr "Customer" "name")
                               (PStr "Ann")])]]).
Proof. vm_compute. reflexivity. Qed.

Example compile_top_level_operator :
  get_filter_expr shop_getattr "Order" (PDict [("$eq", PInt 1)])
  = Raise (ValueError "Can't use operator '$eq' on the top level").
Proof. vm_compute. reflexivity. Qed.

Example compile_length :
  get_filter_expr shop_getattr "Order" (PDict [("items", PDict [("$length", PInt 2)])])
  = Ok (EAnd [EAnd [EAnd [EPrim OpEq
          (CountScalar (RelationshipAttr "Order" "items"
                          (one_to_many "Item" "id" "order_id")))
          (PInt 2)]]]).
Proof. vm_compute. reflexivity. Qed.

Example order_by_customer_name :
  get_order_by shop_getattr "Order" (PList [PStr "-customer.name"; PStr "id"])
  = Ok ([Desc (Aliased "Customer" 0) (ColumnAttr "Customer" "name");
         Asc (Mapped "Order") (ColumnAttr "Order" "id")],
        [{| join_alias := Aliased "Customer" 0; join_from := Mapped "Order";
            join_attr := RelationshipAttr "Order" "customer"
                           (many_to_one "Customer" "customer_id" "id") |}]).
Proof. vm_compute. reflexivity. Qed.

Example serialize_two_orders :
  (do rels <- serialize_relations shop_getattr shop_descriptors shop_primary_key shop_readable
                "Order" [order_1; order_2] (get_include_mask ["customer"])
                no_conf true;
   res_mapM (fun x => serialize shop_getattr shop_descriptors x no_conf rels)
     [order_1; order_2])
  = Ok [ [("id", PInt 1);
          ("customer", PDict [("id", PInt 5); ("name", PStr "Ann");
                              ("region_id", PNone)])];
         [("id", PInt 2);
          ("customer", PDict [("id", PInt 5); ("name", PStr "Ann");
                              ("region_id", PNone)])] ].
Proof. vm_compute. reflexivity. Qed.



Lemma dotted_key_is_nested_witness :
  plain_name "customer" = true /\ plain_name "region" = true /\
  plain_name "name" = true /\
  get_filter_expr shop_getattr "Order" (PDict [("customer.region.name", PStr "EU")])
  = get_filter_expr shop_getattr "Order"
      (PDict [("customer", PDict [("region", PDict [("name", PStr "EU")])])]).
Proof.
  repeat (split; [reflexivity|]).
  apply (dotted_key_is_nested shop_getattr "Order" "customer" "region" "name"
           (PStr "EU")); reflexivity.
Defined.

Lemma sibling_keys_are_conjunction_witness :
  "id" <> "customer_id" /\
  same_outcome
    (get_filter_expr shop_getattr "Order"
       (PDict [("id", PInt 1); ("customer_id", PInt 5)]))
    (get_filter_expr shop_getattr "Order"
       (PDict [("$and", PList [PDict [("id", PInt 1)];
                               PDict [("customer_id", PInt 5)]])])).
Proof.
  split; [discriminate|].
  apply (sibling_keys_are_conjunction shop_getattr "Order" "id" "customer_id").
  discriminate.
Defined.

Lemma operator_at_document_level_fails_witness :
  misplaced_operator (PDict [("$or", PList [PDict [("id", PInt 1)];
                                            PDict [("$in", PList [PInt 1])]])])
  /\ exists e,
       get_filter_expr shop_getattr "Order"
         (PDict [("$or", PList [PDict [("id", PInt 1)];
                                PDict [("$in", PList [PInt 1])]])])
       = Raise e.
Proof.
  assert (misplaced_operator
            (PDict [("$or", PList [PDict [("id", PInt 1)];
                                   PDict [("$in", PList [PInt 1])]])])) as Hbad.
  { eapply (misplaced_in_clauses _ "$or" _ (PDict [("$in", PList [PInt 1])])).
    - left.
    - right. reflexivity.
    - right. left.
    - eapply (misplaced_key _ "$in"); [left|reflexivity]. }
  split; [exact Hbad|].
  destruct (proj1 (operator_at_document_level_fails shop_getattr "Order" _) Hbad)
    as (e & He & _).
  exists e. exact He.
Defined.

Lemma ordering_path_through_relations_witness :
  (exists msg,
     get_order_by shop_getattr "Order" (PStr "items.sku") = Raise (ValueError msg))
  /\ (exists ent joins,
        get_order_by shop_getattr "Order" (PStr "-customer.name")
        = Ok ([Desc ent (ColumnAttr "Customer" "name")], joins)
        /\ length joins = 1).
Proof.
  split.
  - assert (1 < length (split_dot "items.sku")) as Hlen by (vm_compute; lia).
    destruct (ordering_path_through_relations shop_getattr "Order"
                "items.sku" "items.sku" 1%Z eq_refl Hlen) as [Hfail _].
    apply (Hfail 0 "Order" "items" (one_to_many "Item" "id" "order_id")).
    + exact Hlen.
    + reflexivity.
    + discriminate.
  - assert (1 < length (split_dot "customer.name")) as Hlen by (vm_compute; lia).
    destruct (ordering_path_through_relations shop_getattr "Order"
                "-customer.name" "customer.name" (-1)%Z eq_refl Hlen) as [_ Hok].
    apply (Hok "Customer" "name").
    + intros j Hj. assert (j = 0) as -> by (vm_compute in Hj; lia).
      exists "Order", "customer", (many_to_one "Customer" "customer_id" "id").
      split; reflexivity.
    + reflexivity.
Defined.

Lemma one_to_one_is_inlined_witness :
  exists item,
    serialize shop_getattr shop_descriptors order_1 no_conf
      [("customer",
        RelRec ([PDict [("id", PInt 4); ("name", PStr "Bob")]] ++
                PDict [("id", PInt 5); ("name", PStr "Ann")] ::
                [PDict [("id", PInt 6); ("name", PStr "Cy")]])
          [] (Some customer_meta))]
    = Ok item
    /\ item = dict_set "customer" (PDict [("id", PInt 5); ("name", PStr "Ann")])
                (dict_remove "customer_id" [("id", PInt 1); ("customer_id", PInt 5)])
    /\ dict_get "customer" item = Some (PDict [("id", PInt 5); ("name", PStr "Ann")])
    /\ dict_get "customer_id" item = None
    /\ forall field, field <> "customer" -> field <> "customer_id" ->
         dict_get field item
         = dict_get field [("id", PInt 1); ("customer_id", PInt 5)].
Proof.
  apply (one_to_one_is_inlined shop_getattr shop_descriptors order_1 no_conf
           "customer" "customer_id" "id" customer_meta
           [("id", PInt 1); ("customer_id", PInt 5)]
           [("id", PInt 5); ("name", PStr "Ann")]
           [PDict [("id", PInt 4); ("name", PStr "Bob")]]
           [PDict [("id", PInt 6); ("name", PStr "Cy")]] []).
  - reflexivity.
  - reflexivity.
  - reflexivity.
  - discriminate.
  - reflexivity.
  - discriminate.
  - discriminate.
  - reflexivity.
  - reflexivity.
  - constructor; [|constructor]. eexists. split; reflexivity.
  - constructor; [|constructor]. eexists. split; reflexivity.
Defined.

Lemma relation_flags_witness :
  exists rels,
    serialize_relations shop_getattr shop_descriptors shop_primary_key shop_readable
      "Order" [order_1; order_2]
      (PDict [("customer", PDict [("region", PDict [])]); ("items", PDict [])])
      no_conf true = Ok rels
    /\ Forall flags_ok (relations_metas rels).
Proof.
  eexists. split.
  - vm_compute. reflexivity.
  - eapply (relation_flags shop_getattr shop_descriptors shop_primary_key shop_readable
              "Order" [order_1; order_2]
              (PDict [("customer", PDict [("region", PDict [])]); ("items", PDict [])])
              no_conf true).
    vm_compute. reflexivity.
Defined.

Lemma many_relations_are_lifted_witness :
  exists many_rels,
    get_many_relations
      [("tags", RelRec [PDict [("id", PInt 1)]; PDict [("id", PInt 2)];
                        PDict [("id", PInt 1)]]
                  [] (Some tags_meta));
       ("customer", RelRec [PDict [("id", PInt 5)]]
                      [("tags", RelRec [PDict [("id", PInt 2)]; PDict [("id", PInt 3)]]
                                  [] (Some tags_meta))]
                      (Some customer_meta))]
    = Ok many_rels
    /\ many_rels = [("tags", [PDict [("id", PInt 1)]; PDict [("id", PInt 2)];
                              PDict [("id", PInt 3)]])].
Proof.
  destruct (many_relations_are_lifted
    [("tags", RelRec [PDict [("id", PInt 1)]; PDict [("id", PInt 2)];
                      PDict [("id", PInt 1)]]
                [] (Some tags_meta));
     ("customer", RelRec [PDict [("id", PInt 5)]]
                    [("tags", RelRec [PDict [("id", PInt 2)]; PDict [("id", PInt 3)]]
                                [] (Some tags_meta))]
                    (Some customer_meta))] eq_refl) as (many & Hmany & _).
  exists many. split; [exact Hmany|].
  vm_compute in Hmany. by injection Hmany as <-.
Defined.

(** * More facts about dictionaries *)

Section MoreDictFacts.
Context {V : Type}.
Implicit Types (d : list (string * V)) (k : string) (v : V).

Lemma dict_mem_cons k k0 v0 d :
  dict_mem k ((k0, v0) :: d) = String.eqb k k0 || dict_mem k d.
Proof. unfold dict_mem. cbn. by destruct (String.eqb k k0). Qed.

Lemma dict_mem_set k k' v d :
  dict_mem k (dict_set k' v d) = String.eqb k k' || dict_mem k d.
Proof.
  unfold dict_mem. destruct (String.eqb_spec k k') as [->|Hne].
  - by rewrite dict_get_set_eq.
  - by rewrite dict_get_set_ne.
Qed.

Lemma dict_set_absent k v d : dict_get k d = None -> dict_set k v d = d ++ [(k, v)].
Proof.
  induction d as [|[k0 v0] d IH]; cbn; [done|].
  destruct (String.eqb k k0); [done|]. intros H. by rewrite IH.
Qed.

Lemma dict_set_same k v d : dict_get k d = Some v -> dict_set k v d = d.
Proof.
  induction d as [|[k0 v0] d IH]; cbn; [done|].
  destruct (String.eqb_spec k k0) as [->|]; [by intros [= ->]|].
  intros H. by rewrite IH.
Qed.

Lemma dict_set_set k v v' d : dict_set k v' (dict_set k v d) = dict_set k v' d.
Proof.
  induction d as [|[k0 v0] d IH]; cbn; [by rewrite String.eqb_refl|].
  destruct (String.eqb_spec k k0) as [->|Hne]; cbn.
  - by rewrite String.eqb_refl.
  - destruct (String.eqb_spec k k0); [done|]. by rewrite IH.
Qed.

End MoreDictFacts.

(** * More about the criteria compiler *)

Section MoreCompilerFacts.
Variable getattr : string -> string -> option attribute.

Lemma fmapM_app {A B} (f : A -> fueled B) l1 l2 :
  fmapM f (l1 ++ l2) =
  fdo a <- fmapM f l1; fdo b <- fmapM f l2; fret (a ++ b).
Proof.
  induction l1 as [|x l1 IH]; cbn.
  - by destruct (fmapM f l2) as [[b|e]|].
  - destruct (f x) as [[y|e]|]; cbn; [|done..]. rewrite IH.
    destruct (fmapM f l1) as [[a|e]|]; cbn; [|done..].
    by destruct (fmapM f l2) as [[b|e]|].
Qed.

Lemma fmapM_result {A B} (f : A -> result B) l :
  fmapM (fun x => Some (f x)) l = Some (res_mapM f l).
Proof.
  induction l as [|x l IH]; [done|]. cbn. destruct (f x); cbn; [|done].
  rewrite IH. by destruct (res_mapM f l).
Qed.

Lemma holds_and_app (row : Type) prim_holds related es1 es2 (r : row) :
  holds row prim_holds related (EAnd (es1 ++ es2)) r
  = holds row prim_holds related (EAnd es1) r
    && holds row prim_holds related (EAnd es2) r.
Proof.
  induction es1 as [|e es1 IH]; [done|].
  cbn in *. by rewrite IH, andb_assoc.
Qed.

(** X1. A document is the conjunction of its parts, and fails where its first
    failing entry does: the entries of [kvs1 ++ kvs2] are compiled in order,
    those of [kvs2] only when those of [kvs1] all compiled. *)
Theorem document_is_conjunction_of_parts (model : string)
    (kvs1 kvs2 : list (string * pyval)) :
  get_filter_expr getattr model (PDict (kvs1 ++ kvs2))
  = (do e1 <- get_filter_expr getattr model (PDict kvs1);
     do e2 <- get_filter_expr getattr model (PDict kvs2);
     Ok (EAnd (clauses e1 ++ clauses e2)))
  /\ forall e1 e2 e,
       get_filter_expr getattr model (PDict kvs1) = Ok e1 ->
       get_filter_expr getattr model (PDict kvs2) = Ok e2 ->
       get_filter_expr getattr model (PDict (kvs1 ++ kvs2)) = Ok e ->
       forall (row : Type) prim_holds related (r : row),
         holds row prim_holds related e r
         = holds row prim_holds related e1 r && holds row prim_holds related e2 r.
Proof.
  pose proof (get_filter_expr_eq getattr model (PDict (kvs1 ++ kvs2))) as H12.
  pose proof (get_filter_expr_eq getattr model (PDict kvs1)) as H1.
  pose proof (get_filter_expr_eq getattr model (PDict kvs2)) as H2.
  cbn -[filter_clause] in H12, H1, H2. rewrite fmapM_app in H12.
  match type of H1 with
  | _ = fbind (fmapM ?f kvs1) _ => set (F := f) in *
  end.
  assert (get_filter_expr getattr model (PDict (kvs1 ++ kvs2))
    = (do e1 <- get_filter_expr getattr model (PDict kvs1);
       do e2 <- get_filter_expr getattr model (PDict kvs2);
       Ok (EAnd (clauses e1 ++ clauses e2)))) as Heq.
  { destruct (fmapM F kvs1) as [[es1|x1]|]; cbn in H1, H12; [| |done].
    - injection H1 as ->.
      destruct (fmapM F kvs2) as [[es2|x2]|]; cbn in H2, H12; [| |done].
      + injection H2 as ->. by injection H12 as ->.
      + injection H2 as ->. by injection H12 as ->.
    - injection H1 as ->. by injection H12 as ->. }
  split; [done|]. intros e1 e2 e He1 He2 He row prim_holds related r.
  rewrite Heq, He1, He2 in He. cbn in He. injection He as <-.
  clear -H1 H2 He1 He2. rewrite He1 in H1. rewrite He2 in H2.
  destruct (fmapM F kvs1) as [[es1|x1]|]; cbn in H1; [|done..].
  destruct (fmapM F kvs2) as [[es2|x2]|]; cbn in H2; [|done..].
  injection H1 as ->. injection H2 as ->. apply holds_and_app.
Qed.

Lemma get_filter_expr_not model c :
  get_filter_expr getattr model (PDict [("$not", c)])
  = (do e <- get_filter_expr getattr model c; Ok (EAnd [ENot e])).
Proof.
  apply (inj Some). rewrite get_filter_expr_eq. cbn.
  by destruct (get_filter_expr getattr model c).
Qed.

Lemma get_attribute_filter_expr_key a c k :
  get_attribute_filter_expr getattr a c (Some (default (attribute_key a) k))
  = get_attribute_filter_expr getattr a c k.
Proof.
  apply (inj Some). by rewrite !get_attribute_filter_expr_eq.
Qed.

Lemma get_attribute_filter_expr_not a c k :
  get_attribute_filter_expr getattr a (PDict [("$not", c)]) k
  = (do e <- get_attribute_filter_expr getattr a c k; Ok (EAnd [ENot e])).
Proof.
  apply (inj Some). rewrite get_attribute_filter_expr_eq. cbn.
  rewrite get_attribute_filter_expr_key.
  by destruct (get_attribute_filter_expr getattr a c k).
Qed.

(** Induction on predicates, with the hypothesis for the clauses of a
    clause list. *)
Lemma expr_ind' (P : expr -> Prop) :
  (forall op a v, P (EPrim op a v)) ->
  (forall a e, P e -> P (EAny a e)) ->
  (forall t a e, P e -> P (EExists t a e)) ->
  (forall e, P e -> P (ENot e)) ->
  (forall es, Forall P es -> P (EAnd es)) ->
  (forall es, Forall P es -> P (EOr es)) ->
  forall e, P e.
Proof.
  intros HP HA HE HN Hand Hor.
  fix IH 1. intros [op a v|a e|t a e|e|es|es];
    [apply HP|apply HA, IH|apply HE, IH|apply HN, IH| |].
  - apply Hand. induction es as [|e es IHes]; constructor; [apply IH|apply IHes].
  - apply Hor. induction es as [|e es IHes]; constructor; [apply IH|apply IHes].
Qed.

Lemma renders_nothing_no_bare_not e : renders_nothing e = true -> bare_not e = false.
Proof.
  induction e as [op a v|a e IH|t a e IH|e IH|es IH|es IH] using expr_ind';
    try done.
  - cbn. intros H. induction IH as [|e es He _ IHes]; [done|].
    cbn in H |- *. apply andb_true_iff in H as [H1 H2].
    by rewrite He, IHes.
  - cbn. intros H. induction IH as [|e es He _ IHes]; [done|].
    cbn in H |- *. apply andb_true_iff in H as [H1 H2].
    by rewrite He, IHes.
Qed.

Lemma double_negation_reading e :
  let e' := EAnd [ENot (EAnd [ENot e])] in
  (renders_nothing e = false -> same_reading e' e)
  /\ (renders_nothing e = true -> bare_not e' = true /\ bare_not e = false).
Proof.
  intros e'. subst e'. split.
  - intros Hn. repeat split.
    + cbn. rewrite Hn. cbn. by rewrite !andb_true_r.
    + cbn. rewrite Hn. cbn. by rewrite !orb_false_r.
    + intros row prim_holds related r. cbn.
      by destruct (holds _ _ _ e r).
  - intros Hn. split; [cbn; by rewrite Hn|by apply renders_nothing_no_bare_not].
Qed.

(** X2. Double negation, at the document level and under an attribute.
    When [P] does not compile, [{$not: {$not: P}}] raises the same
    exception. When [P] compiles to a predicate that renders a condition,
    [{$not: {$not: P}}] compiles to a predicate that the database treats
    alike and that holds of the same rows. When the predicate of [P]
    renders nothing, as that of the empty document, the database accepts
    it and rejects its double negation. *)
Theorem not_not_is_identity (model : string) (a : attribute)
    (k : option string) (criteria : pyval) :
  let twice := PDict [("$not", PDict [("$not", criteria)])] in
  (forall compile,
     compile = get_filter_expr getattr model
     \/ compile = (fun c => get_attribute_filter_expr getattr a c k) ->
     (forall x, compile criteria = Raise x -> compile twice = Raise x)
     /\ (forall e, compile criteria = Ok e ->
           exists e', compile twice = Ok e'
             /\ (renders_nothing e = false -> same_reading e' e)
             /\ (renders_nothing e = true ->
                 bare_not e' = true /\ bare_not e = false)))
  /\ get_filter_expr getattr model (PDict []) = Ok (EAnd [])
  /\ renders_nothing (EAnd []) = true.
Proof.
  intros twice. subst twice. split; [|done].
  intros compile Hc.
  assert (forall c, compile (PDict [("$not", c)])
                    = (do e <- compile c; Ok (EAnd [ENot e]))) as Hnot.
  { intros c. destruct Hc as [-> | ->].
    - apply get_filter_expr_not.
    - apply get_attribute_filter_expr_not. }
  split.
  - intros x Hx. by rewrite !Hnot, Hx.
  - intros e He. exists (EAnd [ENot (EAnd [ENot e])]).
    split; [by rewrite !Hnot, He|]. apply double_negation_reading.
Qed.

Lemma res_mapM_not model cs :
  res_mapM (get_filter_expr getattr model)
    (map (fun c => PDict [("$not", c)]) cs)
  = (do es <- res_mapM (get_filter_expr getattr model) cs;
     Ok (map (fun e => EAnd [ENot e]) es)).
Proof.
  induction cs as [|c cs IH]; [done|].
  cbn [map res_mapM]. rewrite get_filter_expr_not, IH.
  destruct (get_filter_expr getattr model c); cbn; [|done].
  by destruct (res_mapM _ cs).
Qed.

Lemma de_morgan_reading es :
  let not_or := EAnd [ENot (EAnd [EOr es])] in
  let and_nots := EAnd [EAnd (map (fun e => EAnd [ENot e]) es)] in
  (es <> [] -> Forall (fun e => renders_nothing e = false) es ->
   same_reading not_or and_nots)
  /\ (Exists (fun e => renders_nothing e = true) es -> bare_not and_nots = true)
  /\ (es = [] -> bare_not not_or = true /\ always_true and_nots).
Proof.
  intros not_or and_nots. subst not_or and_nots. split; [|split].
  - intros Hne Hall.
    assert (forallb renders_nothing es = false) as Hrn.
    { destruct es as [|e es]; [done|]. apply Forall_cons in Hall as [He _].
      cbn. by rewrite He. }
    repeat split.
    + cbn. rewrite Hrn. cbn. rewrite !andb_true_r. clear Hne Hrn.
      induction Hall as [|e es He _ IH]; [done|]. cbn. rewrite He, IH. cbn.
      by rewrite andb_true_r.
    + cbn. rewrite Hrn. cbn. rewrite !orb_false_r. clear Hne Hrn.
      induction Hall as [|e es He _ IH]; [done|]. cbn. rewrite He, IH. cbn.
      by rewrite orb_false_r.
    + intros row prim_holds related r. cbn. rewrite !andb_true_r.
      clear. induction es as [|e es IH]; [done|]. cbn in *.
      by rewrite negb_orb, IH, andb_true_r.
  - intros Hex. cbn. rewrite !orb_false_r.
    induction Hex as [e es He|e es _ IH]; cbn.
    + by rewrite He.
    + rewrite IH. by rewrite orb_true_r.
  - intros ->. split; [done|]. split; [done|]. done.
Qed.

(** X3. De Morgan for a list of clauses. The negation of their
    disjunction and the conjunction of their negations raise the same
    exception, that of the first clause that does not compile. When all
    compile, to predicates that render a condition, and there is a clause,
    the two compile to predicates that the database treats alike and that
    hold of the same rows. When the predicate of a clause renders nothing,
    the database rejects the conjunction of the negations; and without
    clauses it rejects the negated disjunction, while the conjunction is
    true of every row. *)
Theorem not_or_is_and_of_nots (model : string) (cs : list pyval) :
  let not_or :=
    get_filter_expr getattr model (PDict [("$not", PDict [("$or", PList cs)])]) in
  let and_nots :=
    get_filter_expr getattr model
      (PDict [("$and", PList (map (fun c => PDict [("$not", c)]) cs))]) in
  (forall x, res_mapM (get_filter_expr getattr model) cs = Raise x ->
     not_or = Raise x /\ and_nots = Raise x)
  /\ (forall es, res_mapM (get_filter_expr getattr model) cs = Ok es ->
        exists e1 e2,
          not_or = Ok e1 /\ and_nots = Ok e2
          /\ (es <> [] -> Forall (fun e => renders_nothing e = false) es ->
              same_reading e1 e2)
          /\ (Exists (fun e => renders_nothing e = true) es -> bare_not e2 = true)
          /\ (es = [] -> bare_not e1 = true /\ always_true e2)).
Proof.
  intros not_or and_nots.
  assert (not_or = (do es <- res_mapM (get_filter_expr getattr model) cs;
                    Ok (EAnd [ENot (EAnd [EOr es])]))) as Hl.
  { unfold not_or. rewrite get_filter_expr_not.
    assert (get_filter_expr getattr model (PDict [("$or", PList cs)])
      = (do es <- res_mapM (get_filter_expr getattr model) cs; Ok (EAnd [EOr es])))
      as ->.
    { apply (inj Some). rewrite get_filter_expr_eq. cbn.
      rewrite fmapM_result. by destruct (res_mapM _ cs). }
    by destruct (res_mapM _ cs). }
  assert (and_nots = (do es <- res_mapM (get_filter_expr getattr model) cs;
                      Ok (EAnd [EAnd (map (fun e => EAnd [ENot e]) es)]))) as Hr.
  { unfold and_nots.
    assert (forall l, get_filter_expr getattr model (PDict [("$and", PList l)])
      = (do es <- res_mapM (get_filter_expr getattr model) l; Ok (EAnd [EAnd es])))
      as ->.
    { intros l. apply (inj Some). rewrite get_filter_expr_eq. cbn.
      rewrite fmapM_result. by destruct (res_mapM _ l). }
    rewrite res_mapM_not. by destruct (res_mapM _ cs). }
  rewrite Hl, Hr. split.
  - intros x ->. done.
  - intros es ->. eexists _, _. split; [done|]. split; [done|].
    apply de_morgan_reading.
Qed.

Lemma get_filter_expr_cons model op operand rest :
  Some (get_filter_expr getattr model (PDict ((op, operand) :: rest))) =
  fdo e <- filter_clause getattr
             (fun m c => Some (get_filter_expr getattr m c))
             (fun a c k => Some (get_attribute_filter_expr getattr a c k))
             model op operand;
  fdo es <- fmapM (fun kv => filter_clause getattr
             (fun m c => Some (get_filter_expr getattr m c))
             (fun a c k => Some (get_attribute_filter_expr getattr a c k))
             model kv.1 kv.2) rest;
  fret (EAnd (e :: es)).
Proof.
  rewrite get_filter_expr_eq. cbn -[filter_clause].
  destruct (filter_clause _ _ _ model op operand) as [[e|x]|]; cbn -[filter_clause];
    [|done..].
  by destruct (fmapM _ rest) as [[es|x]|].
Qed.

Lemma get_attribute_filter_expr_cons a k op operand rest :
  Some (get_attribute_filter_expr getattr a (PDict ((op, operand) :: rest)) k) =
  fdo e <- attribute_clause getattr
             (fun m c => Some (get_filter_expr getattr m c))
             (fun a c k => Some (get_attribute_filter_expr getattr a c k))
             a (default (attribute_key a) k) op operand;
  fdo es <- fmapM (fun kv => attribute_clause getattr
             (fun m c => Some (get_filter_expr getattr m c))
             (fun a c k => Some (get_attribute_filter_expr getattr a c k))
             a (default (attribute_key a) k) kv.1 kv.2) rest;
  fret (EAnd (e :: es)).
Proof.
  rewrite get_attribute_filter_expr_eq. cbn -[attribute_clause].
  destruct (attribute_clause _ _ _ a _ op operand) as [[e|x]|];
    cbn -[attribute_clause]; [|done..].
  by destruct (fmapM _ rest) as [[es|x]|].
Qed.

Lemma implicit_eq_scalar operand :
  is_dict operand = false ->
  implicit_eq (PDict [("$eq", operand)]) = implicit_eq operand.
Proof. intros H. unfold implicit_eq. by rewrite H. Qed.

(** X4. An operand that is not a document stands for [{$eq: operand}]: under
    a key that names an attribute or a path, at the document level and
    under an attribute, and under [$length]. Nothing else of the document
    changes. *)
Theorem scalar_operand_is_eq (model : string) (a : attribute) (k : option string)
    (op : string) (operand : pyval) (rest : list (string * pyval)) :
  is_dict operand = false ->
  dict_mem op primitive_operators = false ->
  is_logical_operator op = false ->
  (is_relationship_operator op = false ->
   get_filter_expr getattr model (PDict ((op, operand) :: rest))
   = get_filter_expr getattr model (PDict ((op, PDict [("$eq", operand)]) :: rest)))
  /\ (op <> "$any" -> op <> "$all" ->
      get_attribute_filter_expr getattr a (PDict ((op, operand) :: rest)) k
      = get_attribute_filter_expr getattr a
          (PDict ((op, PDict [("$eq", operand)]) :: rest)) k).
Proof.
  intros Hd Hp Hl. split.
  - intros Hr. apply (inj Some). rewrite !get_filter_expr_cons.
    rewrite !filter_clause_attribute by (done || by apply dict_get_logical_operators).
    by rewrite implicit_eq_scalar.
  - intros Hany Hall. apply (inj Some). rewrite !get_attribute_filter_expr_cons.
    f_equal. unfold attribute_clause. unfold dict_mem in Hp.
    destruct (dict_get op primitive_operators); [done|].
    rewrite (dict_get_logical_operators op Hl).
    rewrite implicit_eq_scalar by done.
    destruct (String.eqb_spec op "$length") as [->|Hlen].
    + cbn. unfold length_operator. by rewrite implicit_eq_scalar.
    + assert (forall V (x y z : V),
        dict_get op [("$any", x); ("$all", y); ("$length", z)] = None) as Hnone.
      { intros V x y z. cbn.
        destruct (String.eqb_spec op "$any"); [done|].
        destruct (String.eqb_spec op "$all"); [done|].
        by destruct (String.eqb_spec op "$length"). }
      unfold relationship_operators. by rewrite Hnone.
Qed.

(** X5. On a column, [$nin] is the negation of [$in]: [{$nin: L}] and
    [{$not: {$in: L}}] both raise the exception of an operand that cannot
    be iterated over, or both compile, to equivalent predicates that the
    database reads as [holds] does. *)
Theorem nin_is_not_in (a : attribute) (k : option string) (L : pyval) :
  is_column_or_element a = true ->
  let nin := get_attribute_filter_expr getattr a (PDict [("$nin", L)]) k in
  let not_in :=
    get_attribute_filter_expr getattr a (PDict [("$not", PDict [("$in", L)])]) k in
  same_outcome nin not_in
  /\ (forall items, py_iter L = Ok items ->
        nin = Ok (EAnd [ENot (EPrim OpIn a L)])
        /\ not_in = Ok (EAnd [ENot (EAnd [EPrim OpIn a L])])
        /\ well_rendered (EAnd [ENot (EPrim OpIn a L)]) = true
        /\ well_rendered (EAnd [ENot (EAnd [EPrim OpIn a L])]) = true)
  /\ (forall x, py_iter L = Raise x -> nin = Raise x /\ not_in = Raise x).
Proof.
  intros Hc nin not_in.
  assert (nin = (do _ <- py_iter L; Ok (EAnd [ENot (EPrim OpIn a L)]))) as Hnin.
  { apply (inj Some). unfold nin. rewrite get_attribute_filter_expr_cons.
    unfold attribute_clause. cbn. rewrite Hc. unfold in_.
    by destruct (py_iter L). }
  assert (not_in
          = (do _ <- py_iter L; Ok (EAnd [ENot (EAnd [EPrim OpIn a L])]))) as Hnot.
  { apply (inj Some). unfold not_in. rewrite get_attribute_filter_expr_cons.
    unfold attribute_clause. cbn -[get_attribute_filter_expr].
    assert (get_attribute_filter_expr getattr a (PDict [("$in", L)])
              (Some (default (attribute_key a) k))
            = (do _ <- py_iter L; Ok (EAnd [EPrim OpIn a L]))) as ->.
    { apply (inj Some). rewrite get_attribute_filter_expr_cons.
      unfold attribute_clause. cbn. rewrite Hc. unfold in_.
      by destruct (py_iter L). }
    by destruct (py_iter L). }
  rewrite Hnin, Hnot. split; [|split].
  - destruct (py_iter L); cbn; [|done].
    intros row prim_holds related r. cbn. by rewrite !andb_true_r.
  - intros items ->. done.
  - intros x ->. done.
Qed.

(** X6. The operator must fit the attribute. A plain value, or a primitive
    operator, under an attribute that is not a column (a relationship, an
    association proxy) raises [ValueError]; so does a relationship operator
    under a column or a many-to-one relationship. *)
Theorem operator_must_fit_attribute (model f : string) (A : attribute)
    (rest : list (string * pyval)) :
  plain_name f = true ->
  getattr model f = Some A ->
  (is_column_or_element A = false ->
   (forall operand, is_dict operand = false ->
      get_filter_expr getattr model (PDict ((f, operand) :: rest))
      = Raise (ValueError ("Can't use primitive operator '$eq' on '" +:+ f
                            +:+ "': not a column")))
   /\ (forall op operand rest', dict_mem op primitive_operators = true ->
         get_filter_expr getattr model
           (PDict ((f, PDict ((op, operand) :: rest')) :: rest))
         = Raise (ValueError ("Can't use primitive operator '" +:+ op +:+ "' on '"
                               +:+ f +:+ "': not a column"))))
  /\ (is_column A = true \/ is_Some (many_to_one_target A) ->
      forall op operand rest', is_relationship_operator op = true ->
        get_filter_expr getattr model
          (PDict ((f, PDict ((op, operand) :: rest')) :: rest))
        = Raise (ValueError ("Can't use '" +:+ op +:+ "' operator on '" +:+ f
                   +:+ "': not a *-to-many relation nor association proxy"))).
Proof.
  intros Hf HA. destruct (plain_name_spec f Hf) as (Hd & Hp & Hr & Hl).
  assert (forall c, get_filter_expr getattr model (PDict ((f, c) :: rest))
    = (do e <- get_attribute_filter_expr getattr A (implicit_eq c) (Some f);
       do r <- get_filter_expr getattr model (PDict rest);
       Ok (EAnd (e :: clauses r)))) as Hdoc.
  { intros c. apply (inj Some). rewrite get_filter_expr_cons.
    rewrite filter_clause_attribute by done.
    rewrite (split_dot_no_dot f Hd). cbn -[filter_clause].
    unfold getattr_or_raise. rewrite HA. cbn -[filter_clause].
    destruct (get_attribute_filter_expr getattr A _ _); cbn -[filter_clause]; [|done].
    pose proof (get_filter_expr_eq getattr model (PDict rest)) as Hrest.
    cbn -[filter_clause] in Hrest.
    destruct (fmapM _ rest) as [[es|x]|]; cbn in *; [| |done];
      by injection Hrest as ->. }
  assert (forall op operand rest', dict_mem op primitive_operators = true ->
    is_column_or_element A = false ->
    get_attribute_filter_expr getattr A (PDict ((op, operand) :: rest')) (Some f)
    = Raise (ValueError ("Can't use primitive operator '" +:+ op +:+ "' on '"
                               +:+ f +:+ "': not a column"))) as Hprim.
  { intros op operand rest' Hop Hc. apply (inj Some).
    rewrite get_attribute_filter_expr_cons. unfold attribute_clause.
    unfold dict_mem in Hop. destruct (dict_get op primitive_operators); [|done].
    by rewrite Hc. }
  split.
  - intros Hc. split.
    + intros operand Ho. rewrite Hdoc. unfold implicit_eq. rewrite Ho.
      by rewrite Hprim.
    + intros op operand rest' Hop. rewrite Hdoc. cbn [implicit_eq is_dict].
      unfold implicit_eq. cbn [is_dict]. by rewrite Hprim.
  - intros HA' op operand rest' Hop. rewrite Hdoc. unfold implicit_eq.
    cbn [is_dict].
    assert (get_attribute_filter_expr getattr A (PDict ((op, operand) :: rest')) (Some f)
      = Raise (ValueError ("Can't use '" +:+ op +:+ "' operator on '" +:+ f
                   +:+ "': not a *-to-many relation nor association proxy"))) as ->;
      [|done].
    apply (inj Some). rewrite get_attribute_filter_expr_cons.
    unfold attribute_clause.
    assert (dict_get op primitive_operators = None) as ->.
    { revert Hop. unfold is_relationship_operator. cbn.
      destruct (String.eqb_spec op "$any") as [->|]; [done|].
      destruct (String.eqb_spec op "$all") as [->|]; [done|].
      destruct (String.eqb_spec op "$length") as [->|]; done. }
    pose proof (dict_mem_relationship_operators
      (fun m c => Some (get_filter_expr getattr m c))
      (fun a c k => Some (get_attribute_filter_expr getattr a c k)) op) as Hm.
    rewrite Hop in Hm. unfold dict_mem in Hm.
    destruct (dict_get op (relationship_operators _ _)); [|done].
    destruct HA' as [Hcol|[t Ht]].
    + by destruct A.
    + destruct A as [| o k' p | |]; try done. cbn in Ht |- *.
      by destruct (rel_direction p).
Qed.

Lemma wrap_chain_cons f0 f1 rest c :
  wrap_chain (f0 :: f1 :: rest) c = PDict [(f1, wrap_chain (f1 :: rest) c)].
Proof.
  unfold wrap_chain. cbn [tail]. rewrite reverse_cons, fold_left_app. done.
Qed.

Lemma wrap_chain_single f0 c : wrap_chain [f0] c = c.
Proof. done. Qed.

Lemma subfield_chain_rejects rest : forall f0 i attr key c A,
  Forall (fun s => plain_name s = true) rest ->
  i < length rest ->
  resolve_from getattr attr (take i rest) = Some A ->
  is_column A = true \/
    (exists o k p, A = RelationshipAttr o k p /\ rel_direction p <> MANYTOONE) ->
  exists msg,
    get_attribute_filter_expr getattr attr (wrap_chain (f0 :: rest) c) key
    = Raise (ValueError msg).
Proof.
  induction rest as [|f1 rest IH]; intros f0 i attr key c A Hplain Hi Hres HA;
    [simpl in Hi; lia|].
  apply Forall_cons in Hplain as [Hf1 Hplain].
  rewrite wrap_chain_cons, get_attribute_filter_expr_subfield by done.
  destruct i as [|i].
  - cbn in Hres. injection Hres as ->.
    destruct HA as [Hc|(o & k & p & -> & Hd)].
    + destruct A; try done. cbn. by eexists.
    + cbn. destruct (rel_direction p); [|done|]; by eexists.
  - cbn in Hres. destruct attr as [| o' k' p' | |]; try done.
    destruct (getattr (rel_class p') f1) as [attr'|] eqn:Hget; [|done].
    destruct rest as [|f2 rest]; [simpl in Hi; lia|].
    assert (implicit_eq (wrap_chain (f1 :: f2 :: rest) c)
            = wrap_chain (f1 :: f2 :: rest) c) as ->
      by (by rewrite wrap_chain_cons).
    cbn -[wrap_chain get_attribute_filter_expr].
    destruct (rel_direction p') eqn:Hd; try by eexists.
    unfold getattr_or_raise. rewrite Hget.
    cbn -[wrap_chain get_attribute_filter_expr].
    destruct (IH f1 i attr' (Some f1) c A) as [msg ->]; [done|simpl in *; lia|done..|].
    by eexists.
Qed.

(** X7. A dotted key cannot pass through a column or a to-many relationship:
    when a segment before the last names one, the criteria do not compile
    and [ValueError] is raised. *)
Theorem filter_path_through_relations (model op : string) (operand : pyval)
    (rest : list (string * pyval)) (i : nat) (A : attribute) :
  Forall (fun s => plain_name s = true) (split_dot op) ->
  S i < length (split_dot op) ->
  resolve_path getattr model (take (S i) (split_dot op)) = Some A ->
  is_column A = true \/
    (exists o k p, A = RelationshipAttr o k p /\ rel_direction p <> MANYTOONE) ->
  exists msg,
    get_filter_expr getattr model (PDict ((op, operand) :: rest))
    = Raise (ValueError msg).
Proof.
  intros Hplain Hi Hres HA.
  assert (has_dot op = true) as Hdot.
  { destruct (has_dot op) eqn:Hd; [done|].
    rewrite (split_dot_no_dot op Hd) in Hi. simpl in Hi. lia. }
  destruct (dotted_not_operator op Hdot) as (Hp & Hr & Hl).
  pose proof (get_filter_expr_eq getattr model (PDict ((op, operand) :: rest))) as Heq.
  cbn -[filter_clause] in Heq.
  rewrite filter_clause_attribute in Heq by done.
  destruct (split_dot op) as [|f0 fs] eqn:Hsplit; [simpl in Hi; lia|].
  cbn in Hres. destruct (getattr model f0) as [attr|] eqn:Hget; [|done].
  cbn -[filter_clause wrap_chain get_attribute_filter_expr] in Heq.
  unfold getattr_or_raise in Heq.
  rewrite Hget in Heq.
  cbn -[filter_clause wrap_chain get_attribute_filter_expr] in Heq.
  apply Forall_cons in Hplain as [_ Hplain].
  destruct (subfield_chain_rejects fs f0 i attr (Some f0) (implicit_eq operand) A)
    as [msg Hmsg]; [done|simpl in Hi; lia|done..|].
  rewrite Hmsg in Heq. cbn in Heq. injection Heq as ->. by eexists.
Qed.

(** X8. The compilers terminate: the calls that a criteria document causes
    are never nested deeper than its weight, so that any fuel above it
    gives the result of the compiler, and never exhaustion. *)
Theorem compilation_terminates (fuel : nat) (model : string) (a : attribute)
    (k : option string) (criteria : pyval) :
  weight criteria < fuel ->
  get_filter_expr_fuel getattr fuel model criteria
  = Some (get_filter_expr getattr model criteria)
  /\ get_attribute_filter_expr_fuel getattr fuel a criteria k
     = Some (get_attribute_filter_expr getattr a criteria k).
Proof.
  intros Hf. split.
  - by apply get_filter_expr_fuel_enough.
  - by apply get_attribute_filter_expr_fuel_enough.
Qed.

End MoreCompilerFacts.

(** * More about the ordering compiler *)

Section MoreOrderingFacts.
Variable getattr : string -> string -> option attribute.

Lemma fresh_from_app n joins new :
  fresh_from n joins -> fresh_from (n + length joins) new ->
  fresh_from n (joins ++ new).
Proof.
  intros H1 H2 i j Hij. apply lookup_app_Some in Hij as [Hij|[Hlen Hij]].
  - by apply H1.
  - destruct (H2 _ _ Hij) as [cls ->]. exists cls. f_equal. lia.
Qed.

Lemma order_by_chain_joins fields rest : forall idx ent attr joins ent' attr' joins',
  order_by_chain getattr fields idx rest ent attr joins = Ok (ent', attr', joins') ->
  exists new, joins' = joins ++ new /\ length new = length rest
    /\ fresh_from (length joins) new.
Proof.
  induction rest as [|field rest IH]; intros idx ent attr joins ent' attr' joins' H.
  - cbn in H. injection H as <- <- <-. exists []. rewrite app_nil_r.
    split; [done|]. split; [done|]. by intros i j Hij.
  - cbn in H. destruct (property attr); cbn in H; [|done].
    destruct (many_to_one_target attr) as [cls|]; [|done].
    destruct (getattr_or_raise getattr cls field) as [attr1|]; cbn in H; [|done].
    apply IH in H as (new & -> & Hlen & Hfresh).
    eexists (_ :: new). split; [by rewrite <- app_assoc|].
    split; [simpl; lia|]. intros [|i] j Hij.
    + cbn in Hij. injection Hij as <-. exists cls. cbn. f_equal. lia.
    + cbn in Hij. destruct (Hfresh _ _ Hij) as [cls' ->]. exists cls'.
      rewrite length_app. cbn. f_equal. lia.
Qed.

Lemma count_dots_tail path :
  length (tail (split_dot path)) = count_dots path.
Proof.
  pose proof (split_dot_length path) as H.
  destruct (split_dot path); simpl in *; lia.
Qed.

Lemma get_direction_dots item path d :
  get_direction item = Ok (path, d) -> count_dots path = item_dots item.
Proof.
  destruct item as [| | | |s|l|]; try done; [|by destruct l].
  destruct s as [|c s]; [done|]. cbn.
  destruct (Ascii.eqb_spec c "-"%char) as [->|]; [by intros [= <- <-]|].
  destruct (Ascii.eqb_spec c "+"%char) as [->|]; [by intros [= <- <-]|].
  by intros [= <- <-].
Qed.

Lemma order_by_item_counts model item orderings joins orderings' joins' :
  order_by_item getattr model item (orderings, joins) = Ok (orderings', joins') ->
  length orderings' = S (length orderings)
  /\ exists new, joins' = joins ++ new /\ length new = item_dots item
       /\ fresh_from (length joins) new.
Proof.
  unfold order_by_item. intros H.
  destruct (get_direction item) as [[path d]|] eqn:Hdir; cbn in H; [|done].
  destruct (getattr_or_raise _ _ _) as [attr|]; cbn in H; [|done].
  destruct (order_by_chain _ _ _ _ _ _ _) as [[[ent attr'] joins1]|] eqn:Hc;
    cbn in H; [|done].
  destruct (property attr'); cbn in H; [|done].
  destruct (negb (is_column attr')); [done|].
  apply order_by_chain_joins in Hc as (new & -> & Hlen & Hfresh).
  assert (length new = item_dots item) as Hdots.
  { rewrite Hlen, <- (get_direction_dots item path d Hdir).
    apply count_dots_tail. }
  destruct (0 <? d)%Z; injection H as <- <-;
    (split; [rewrite length_app; simpl; lia|by exists new]).
Qed.

Lemma order_by_loop_counts model items : forall orderings joins orderings' joins',
  order_by_loop getattr model items (orderings, joins) = Ok (orderings', joins') ->
  length orderings' = length orderings + length items
  /\ exists new, joins' = joins ++ new
       /\ length new = sum_list (map item_dots items)
       /\ fresh_from (length joins) new.
Proof.
  induction items as [|item items IH]; intros orderings joins orderings' joins' H.
  - cbn in H. injection H as <- <-. split; [simpl; lia|].
    exists []. rewrite app_nil_r. split; [done|]. split; [done|]. by intros i j Hij.
  - cbn -[order_by_item] in H.
    destruct (order_by_item getattr model item (orderings, joins))
      as [[orderings1 joins1]|] eqn:Hitem; cbn -[order_by_item] in H; [|done].
    apply order_by_item_counts in Hitem as (Hlen1 & new1 & -> & Hd1 & Hf1).
    apply IH in H as (Hlen & new & -> & Hd & Hf).
    split; [simpl; lia|]. exists (new1 ++ new).
    split; [by rewrite app_assoc|]. split; [rewrite length_app; simpl; lia|].
    apply fresh_from_app; [done|]. by rewrite length_app in Hf.
Qed.

(** X9. What [get_order_by] returns for a list of paths: one ordering per
    path, and one join per dot of the paths, each with an alias of its own,
    the [i]-th join carrying the [i]-th alias: a relationship that two paths
    share is joined twice. *)
Theorem one_join_per_dot (model : string) (items : list pyval)
    (orderings : list ordering) (joins : list join) :
  get_order_by getattr model (PList items) = Ok (orderings, joins) ->
  length orderings = length items
  /\ length joins = sum_list (map item_dots items)
  /\ (forall i j, joins !! i = Some j -> exists cls, join_alias j = Aliased cls i)
  /\ NoDup (map join_alias joins).
Proof.
  unfold get_order_by. intros H.
  apply order_by_loop_counts in H as (Hlen & new & -> & Hd & Hf).
  cbn in *. split; [done|]. split; [done|].
  assert (forall i j, new !! i = Some j -> exists cls, join_alias j = Aliased cls i)
    as Hfresh by (intros i j Hij; by apply Hf).
  split; [done|]. apply NoDup_alt. intros i i' e Hi Hi'.
  rewrite list_lookup_fmap in Hi, Hi'.
  destruct (new !! i) as [j|] eqn:Hj; [|done].
  destruct (new !! i') as [j'|] eqn:Hj'; [|done].
  cbn in Hi, Hi'. destruct (Hfresh _ _ Hj) as [c Hc].
  destruct (Hfresh _ _ Hj') as [c' Hc']. congruence.
Qed.

Lemma order_by_chain_rejects_column fields rest : forall i idx ent attr joins o k,
  i < length rest ->
  resolve_from getattr attr (take i rest) = Some (ColumnAttr o k) ->
  exists msg,
    order_by_chain getattr fields idx rest ent attr joins = Raise (ValueError msg).
Proof.
  induction rest as [|field rest IH]; intros i idx ent attr joins o k Hi Hres;
    [simpl in Hi; lia|].
  destruct i as [|i].
  - cbn in Hres. injection Hres as ->. cbn. by eexists.
  - cbn in Hres. destruct attr as [| o' k' p' | |]; try done.
    destruct (getattr (rel_class p') field) as [attr'|] eqn:Hget; [|done].
    cbn. destruct (rel_direction p') eqn:Hd; try by eexists.
    unfold getattr_or_raise. rewrite Hget. cbn.
    eapply IH; [|done]. simpl in Hi. lia.
Qed.

(** X10. An ordering path must end at a column of a known attribute: a first
    segment that the model does not have raises [AttributeError]; a path
    that leads, through many-to-one relationships, to a relationship raises
    [ValueError], as a path that goes on after a column does. *)
Theorem ordering_path_must_end_at_column (model item path : string) (direction : Z) :
  get_direction (PStr item) = Ok (path, direction) ->
  (getattr model (hd "" (split_dot path)) = None ->
   exists msg, get_order_by getattr model (PStr item) = Raise (AttributeError msg))
  /\ (forall o k p,
        (forall j, S j < length (split_dot path) -> exists o' k' p',
           resolve_path getattr model (take (S j) (split_dot path))
             = Some (RelationshipAttr o' k' p')
           /\ rel_direction p' = MANYTOONE) ->
        resolve_path getattr model (split_dot path) = Some (RelationshipAttr o k p) ->
        get_order_by getattr model (PStr item)
        = Raise (ValueError ("'" +:+ path +:+ "' is not a column")))
  /\ (forall i o k,
        S i < length (split_dot path) ->
        resolve_path getattr model (take (S i) (split_dot path))
          = Some (ColumnAttr o k) ->
        exists msg, get_order_by getattr model (PStr item) = Raise (ValueError msg)).
Proof.
  intros Hdir.
  pose proof (split_dot_nonempty path) as Hne.
  destruct (split_dot path) as [|field rest] eqn:Hsplit; [done|]. clear Hne.
  split; [|split].
  - cbn [hd]. intros Hget. cbn -[order_by_item]. unfold order_by_item.
    rewrite Hdir. cbn. rewrite Hsplit. cbn. unfold getattr_or_raise.
    rewrite Hget. cbn. by eexists.
  - intros o k p Hm2o Hres. cbn in Hres.
    destruct (getattr model field) as [attr|] eqn:Hget; [|done].
    destruct (order_by_chain_accepts getattr (field :: rest) rest 0 (Mapped model)
                attr [] (RelationshipAttr o k p)) as (ent & joins & Hchain & _);
      [|done|].
    { intros j Hj. destruct (Hm2o j) as (o' & k' & p' & HS & Hd'); [simpl; lia|].
      cbn in HS. rewrite Hget in HS. eauto. }
    cbn -[order_by_item]. unfold order_by_item. rewrite Hdir. cbn.
    rewrite Hsplit. cbn. unfold getattr_or_raise. rewrite Hget. cbn.
    rewrite Hchain. reflexivity.
  - intros i o k Hi Hres. cbn in Hres.
    destruct (getattr model field) as [attr|] eqn:Hget; [|done].
    destruct (order_by_chain_rejects_column (field :: rest) rest i 0 (Mapped model)
                attr [] o k) as [msg Hmsg]; [simpl in Hi; lia|done|].
    cbn -[order_by_item]. unfold order_by_item. rewrite Hdir. cbn.
    rewrite Hsplit. cbn. unfold getattr_or_raise. rewrite Hget. cbn.
    rewrite Hmsg. by eexists.
Qed.

(** X11. The sign of an ordering path: [+path] orders as [path] does, and
    [-path] the other way round, on the same columns and through the same
    joins; both fail as [path] fails. *)
Theorem ordering_sign (model path : string) :
  get_direction (PStr path) = Ok (path, 1%Z) ->
  get_order_by getattr model (PStr ("+" +:+ path))
  = get_order_by getattr model (PStr path)
  /\ get_order_by getattr model (PStr ("-" +:+ path))
     = (do (orderings, joins) <- get_order_by getattr model (PStr path);
        Ok (map flip_ordering orderings, joins)).
Proof.
  intros Hdir. unfold get_order_by. cbn -[order_by_item].
  unfold order_by_item. rewrite Hdir.
  change (get_direction (PStr ("+" +:+ path))) with (Ok (A:=string * Z) (path, 1%Z)).
  change (get_direction (PStr ("-" +:+ path))) with (Ok (A:=string * Z) (path, (-1)%Z)).
  cbn. split; [done|].
  destruct (getattr_or_raise getattr model _) as [attr|]; cbn; [|done].
  destruct (order_by_chain _ _ _ _ _ _ _) as [[[ent attr'] joins]|]; cbn; [|done].
  destruct (property attr'); cbn; [|done].
  by destruct (is_column attr').
Qed.

End MoreOrderingFacts.

(** * More about the entity field serializer *)

Section MoreSerializeFacts.
Variable getattr : string -> string -> option attribute.
Variable all_orm_descriptors : string -> list (string * attribute).

Lemma serialize_fields_mem model exclude_fields fields column_mapping field :
  forall ret ret',
    serialize_fields getattr model exclude_fields fields column_mapping ret = Ok ret' ->
    dict_mem field ret'
    = dict_mem field ret
      || (dict_mem field column_mapping
          && (negb (str_in field exclude_fields)
              && match fields with [] => true | _ => str_in field fields end)).
Proof.
  induction column_mapping as [|[f attr] rest IH]; intros ret ret' Hs.
  - cbn in Hs. injection Hs as <-. by rewrite orb_false_r.
  - cbn in Hs. destruct (dict_get attr (obj_cols model)) as [value|]; [|done].
    destruct (getattr_or_raise getattr (obj_class model) attr) as [cattr|]; [|done].
    cbn in Hs.
    destruct (serialize_value (is_association_proxy cattr) value) as [v|]; [|done].
    cbn in Hs. apply IH in Hs. rewrite Hs, dict_mem_cons. clear Hs IH.
    destruct (String.eqb_spec field f) as [->|Hne]; cbn.
    + destruct (str_in f exclude_fields); cbn.
      * by rewrite andb_false_r.
      * destruct fields as [|f0 fields];
          [rewrite dict_mem_set, String.eqb_refl; cbn; by rewrite orb_true_r|].
        destruct (str_in f (f0 :: fields)); cbn.
        -- rewrite dict_mem_set, String.eqb_refl. cbn. by rewrite orb_true_r.
        -- by rewrite andb_false_r.
    + assert (forall v0, dict_mem field (dict_set f v0 ret) = dict_mem field ret) as Hset.
      { intros v0. rewrite dict_mem_set. by destruct (String.eqb_spec field f). }
      destruct (negb (str_in f exclude_fields)); [|done].
      destruct fields as [|f0 fields]; [by rewrite Hset|].
      destruct (str_in f (f0 :: fields)); [by rewrite Hset|done].
Qed.

Lemma get_column_mapping_mem descriptors field : forall ret,
  dict_mem field
    (fold_left (fun ret kc =>
        let '(key, column) := kc in
        if is_association_proxy column then dict_set key key ret
        else if is_column column then dict_set (attribute_key column) key ret
        else ret) descriptors ret) = true
  <-> dict_mem field ret = true
      \/ exists key d, (key, d) ∈ descriptors /\
           (is_association_proxy d = true /\ field = key
            \/ is_column d = true /\ field = attribute_key d).
Proof.
  induction descriptors as [|[key d] descriptors IH]; intros ret.
  - cbn. split; [by left|]. intros [?|(k & d & Hin & _)]; [done|].
    by apply elem_of_nil in Hin.
  - cbn [fold_left]. rewrite IH. clear IH. split.
    + intros [Hm|(k' & d' & Hin & Hd)].
      * destruct (is_association_proxy d) eqn:Hp.
        -- rewrite dict_mem_set in Hm. apply orb_true_iff in Hm as [He|?]; [|by left].
           apply String.eqb_eq in He as ->. right. exists key, d.
           split; [by left|by left].
        -- destruct (is_column d) eqn:Hc; [|by left].
           rewrite dict_mem_set in Hm. apply orb_true_iff in Hm as [He|?]; [|by left].
           apply String.eqb_eq in He as ->. right. exists key, d.
           split; [by left|by right].
      * right. exists k', d'. split; [by right|done].
    + intros [Hm|(k' & d' & Hin & Hd)].
      * left. destruct (is_association_proxy d); [|destruct (is_column d)];
          rewrite ?dict_mem_set, ?Hm, ?orb_true_r; done.
      * apply elem_of_cons in Hin as [[= -> ->]|Hin]; [|right; eauto].
        left. destruct Hd as [[Hp ->]|[Hc ->]].
        -- by rewrite Hp, dict_mem_set, String.eqb_refl.
        -- assert (is_association_proxy d = false) as -> by (by destruct d).
           by rewrite Hc, dict_mem_set, String.eqb_refl.
Qed.

(** X12. The fields of a serialized entity. Without relations, [serialize]
    gives a map with distinct keys, and a field is a key of it exactly when
    it is the name of an association proxy or the key of a column of the
    class, it is not excluded, and it is on the field list of the class when
    there is one. A relationship is never a field. *)
Theorem serialized_fields_are_selected (model : obj) (conf : fields_conf)
    (ret : list (string * pyval)) (field : string) :
  serialize getattr all_orm_descriptors model conf [] = Ok ret ->
  NoDup ret.*1
  /\ (dict_mem field ret = true <->
      field_selected conf (obj_class model) field = true
      /\ exists key d, (key, d) ∈ all_orm_descriptors (obj_class model) /\
           (is_association_proxy d = true /\ field = key
            \/ is_column d = true /\ field = attribute_key d)).
Proof.
  intros Hs. split.
  - unfold serialize in Hs.
    destruct (serialize_fields _ _ _ _ _ _) as [r|] eqn:Hf; [|done].
    cbn in Hs. injection Hs as <-.
    eapply serialize_fields_nodup; [done|constructor].
  - unfold serialize in Hs.
    destruct (serialize_fields _ _ _ _ _ _) as [r|] eqn:Hf; [|done].
    cbn in Hs. injection Hs as <-.
    rewrite (serialize_fields_mem _ _ _ _ field _ _ Hf).
    change (dict_mem field []) with false. cbn [orb].
    rewrite andb_true_iff. unfold get_column_mapping.
    rewrite get_column_mapping_mem. change (dict_mem field []) with false.
    unfold field_selected. cbn zeta. split.
    + intros [[?|?] ?]; done.
    + intros [? ?]. split; [by right|done].
Qed.

Lemma attach_many_more k meta fk fk_pair x (rel_items : list pyval) :
  meta_fk meta = PStr fk -> meta_fk_pair meta = PStr fk_pair -> k <> fk ->
  Forall (fun r => is_dict r = true) rel_items ->
  forall item l,
    dict_get k item = Some (PList l) ->
    default PNone (dict_get fk item) = x ->
    attach_many k meta rel_items item
    = Ok (dict_set k (PList (l ++ filter (fun r => joins_with fk fk_pair item r)
                                    rel_items)) item).
Proof.
  intros Hfk Hpair Hk. induction 1 as [|r rel_items Hr _ IH]; intros item l Hl Hx.
  - cbn. rewrite app_nil_r. by rewrite dict_set_same.
  - destruct r as [| | | | | |d]; try done. cbn [attach_many].
    rewrite Hfk, Hpair. cbn -[filter]. rewrite filter_cons. cbn [joins_with].
    destruct (py_eq _ _) eqn:Hm.
    + unfold item_append. rewrite Hl. cbn -[filter].
      rewrite (IH _ (l ++ [PDict d])).
      * rewrite dict_set_set, <- app_assoc. cbn [app].
        destruct (decide _) as [|Hn]; [|by destruct Hn].
        rewrite (list_filter_iff _ (fun r => joins_with fk fk_pair item r)); [done|].
        intros r. unfold joins_with. by rewrite dict_get_set_ne.
      * apply dict_get_set_eq.
      * by rewrite dict_get_set_ne.
    + cbn -[filter]. rewrite (IH _ l) by done.
      destruct (decide _) as [Hn|]; [by destruct Hn|done].
Qed.

Lemma attach_many_first k meta fk fk_pair (rel_items : list pyval) :
  meta_fk meta = PStr fk -> meta_fk_pair meta = PStr fk_pair -> k <> fk ->
  Forall (fun r => is_dict r = true) rel_items ->
  forall item,
    dict_get k item = None ->
    attach_many k meta rel_items item
    = Ok match filter (fun r => joins_with fk fk_pair item r) rel_items with
         | [] => item
         | matching => item ++ [(k, PList matching)]
         end.
Proof.
  intros Hfk Hpair Hk. induction 1 as [|r rel_items Hr Hrest IH]; intros item Hnone.
  - done.
  - destruct r as [| | | | | |d]; try done. cbn [attach_many].
    rewrite Hfk, Hpair. cbn -[filter]. rewrite filter_cons. cbn [joins_with].
    destruct (py_eq _ _) eqn:Hm.
    + unfold item_append. rewrite Hnone. cbn -[filter].
      rewrite (attach_many_more k meta fk fk_pair
                 (default PNone (dict_get fk item)) rel_items Hfk Hpair Hk Hrest
                 _ [PDict d]).
      * rewrite dict_set_set.
        destruct (decide _) as [|Hn]; [|by destruct Hn].
        rewrite dict_set_absent by done. cbn [app].
        rewrite (list_filter_iff _ (fun r => joins_with fk fk_pair item r)); [done|].
        intros r. unfold joins_with. by rewrite dict_get_set_ne.
      * apply dict_get_set_eq.
      * by rewrite dict_get_set_ne.
    + cbn -[filter]. rewrite IH by done.
      destruct (decide _) as [Hn|]; [by destruct Hn|done].
Qed.

(** X13. A one-to-many relation record is attached as a list: the related
    items whose remote join value equals the local one, in their order,
    under the relation name, after the fields of the entity, which are all
    kept, the local join field too. An entity without such an item gets no
    key at all. *)
Theorem one_to_many_is_attached (model : obj) (conf : fields_conf)
    (k fk fk_pair : string) (meta : relmeta) (ret : list (string * pyval))
    (items : list pyval) (nested : list (string * relrec)) :
  serialize getattr all_orm_descriptors model conf [] = Ok ret ->
  meta_o2m meta = true -> meta_o2o meta = false ->
  meta_fk meta = PStr fk -> fk <> "" ->
  meta_fk_pair meta = PStr fk_pair -> fk_pair <> "" ->
  k <> fk -> dict_get k ret = None ->
  Forall (fun r => is_dict r = true) items ->
  serialize getattr all_orm_descriptors model conf
    [(k, RelRec items nested (Some meta))]
  = Ok match filter (fun r => joins_with fk fk_pair ret r) items with
       | [] => ret
       | matching => ret ++ [(k, PList matching)]
       end.
Proof.
  intros Hret Ho2m Ho2o Hfk Hfk_ne Hpair Hpair_ne Hk Hnone Hitems.
  unfold serialize in *.
  destruct (serialize_fields _ _ _ _ _ _) as [r|]; [|done].
  cbn in Hret. injection Hret as ->. cbn -[attach_many filter].
  rewrite Hfk, Hpair, Ho2m, Ho2o. cbn -[attach_many filter].
  destruct (String.eqb_spec fk ""); [done|].
  destruct (String.eqb_spec fk_pair ""); [done|]. cbn -[attach_many filter].
  rewrite (attach_many_first k meta fk fk_pair items) by done.
  done.
Qed.

(** X14. A one-to-one relation record whose first related item matches an
    entity that has no local join field (both join values being [None])
    makes [serialize] raise [KeyError]: the field is popped without a
    default. *)
Theorem missing_join_field_raises (model : obj) (conf : fields_conf)
    (k fk fk_pair : string) (meta : relmeta) (ret d : list (string * pyval))
    (items : list pyval) (nested : list (string * relrec))
    (rest : list (string * relrec)) :
  serialize getattr all_orm_descriptors model conf [] = Ok ret ->
  meta_o2o meta = true ->
  meta_fk meta = PStr fk -> fk <> "" ->
  meta_fk_pair meta = PStr fk_pair -> fk_pair <> "" ->
  dict_get fk ret = None ->
  py_eq PNone (default PNone (dict_get fk_pair d)) = true ->
  serialize getattr all_orm_descriptors model conf
    ((k, RelRec (PDict d :: items) nested (Some meta)) :: rest)
  = Raise (KeyError fk).
Proof.
  intros Hret Ho2o Hfk Hfk_ne Hpair Hpair_ne Hnone Hmatch.
  unfold serialize in *.
  destruct (serialize_fields _ _ _ _ _ _) as [r|]; [|done].
  cbn in Hret. injection Hret as ->. cbn.
  rewrite Hfk, Hpair, Ho2o. cbn.
  destruct (String.eqb_spec fk ""); [done|].
  destruct (String.eqb_spec fk_pair ""); [done|].
  rewrite andb_false_r. cbn. rewrite Hnone. cbn -[py_eq]. rewrite Hmatch. cbn.
  unfold dict_mem. by rewrite Hnone.
Qed.

End MoreSerializeFacts.

(** * More about the relation graph serializer *)

Lemma res_mapM_length {A B} (f : A -> result B) l ys :
  res_mapM f l = Ok ys -> length ys = length l.
Proof.
  revert ys. induction l as [|x l IH]; intros ys H.
  - cbn in H. by injection H as <-.
  - cbn in H. destruct (f x); cbn in H; [|done].
    destruct (res_mapM f l); cbn in H; [|done]. injection H as <-.
    cbn. by rewrite (IH _ eq_refl).
Qed.

Lemma set_add_spec o s :
  NoDup (obj_id <$> s) ->
  NoDup (obj_id <$> set_add o s)
  /\ (forall o', o' ∈ set_add o s -> o' ∈ s \/ o' = o)
  /\ (forall o', o' ∈ s -> o' ∈ set_add o s)
  /\ obj_id o ∈ (obj_id <$> set_add o s).
Proof.
  intros Hnd. unfold set_add.
  destruct (existsb _ s) eqn:He.
  - repeat split; try done; [by left|].
    apply existsb_exists in He as (o' & Hin & Heq).
    apply Nat.eqb_eq in Heq as <-. apply list_elem_of_fmap.
    exists o'. split; [done|]. by apply list_elem_of_In.
  - repeat split.
    + rewrite fmap_app. apply NoDup_app. split; [done|].
      split; [|apply NoDup_singleton].
      intros i Hi ->%list_elem_of_singleton.
      apply list_elem_of_fmap in Hi as (o' & Heq & Hin).
      assert (existsb (fun o'0 => Nat.eqb (obj_id o'0) (obj_id o)) s = true) as Ht.
      { apply existsb_exists. exists o'. split; [by apply list_elem_of_In|].
        apply Nat.eqb_eq. done. }
      by rewrite He in Ht.
    + intros o' [?|Ho%list_elem_of_singleton]%elem_of_app; [by left|by right].
    + intros o' Hin. apply elem_of_app. by left.
    + rewrite fmap_app. apply elem_of_app. right. by left.
Qed.

Lemma set_update_spec os : forall s,
  NoDup (obj_id <$> s) ->
  NoDup (obj_id <$> set_update os s)
  /\ (forall o', o' ∈ set_update os s -> o' ∈ s \/ o' ∈ os)
  /\ (forall o', o' ∈ s -> o' ∈ set_update os s)
  /\ (forall o, o ∈ os -> obj_id o ∈ (obj_id <$> set_update os s)).
Proof.
  induction os as [|o os IH]; intros s Hnd.
  - repeat split; try done; [by left|]. intros o Ho. by apply elem_of_nil in Ho.
  - cbn. destruct (set_add_spec o s Hnd) as (Hnd1 & Hs1 & Hk1 & Hid1).
    destruct (IH _ Hnd1) as (Hnd2 & Hs2 & Hk2 & Hid2).
    repeat split; [done| | |].
    + intros o' Hin. destruct (Hs2 _ Hin) as [H|H]; [|right; by right].
      destruct (Hs1 _ H) as [?| ->]; [by left|right; by left].
    + intros o' Hin. by apply Hk2, Hk1.
    + intros o' [->|Hin]%elem_of_cons; [|by apply Hid2].
      apply list_elem_of_fmap in Hid1 as (o1 & Heq & Hin1).
      rewrite Heq. apply list_elem_of_fmap. exists o1. split; [done|].
      by apply Hk2.
Qed.

Lemma collect_relation_items_spec name entities : forall acc related,
  collect_relation_items name entities acc = Ok related ->
  NoDup (obj_id <$> acc) ->
  NoDup (obj_id <$> related)
  /\ (forall o, o ∈ related ->
        o ∈ acc \/ exists e, e ∈ entities /\ related_through name e o)
  /\ (forall o, o ∈ acc -> o ∈ related)
  /\ (forall e o, e ∈ entities -> related_through name e o ->
        obj_id o ∈ (obj_id <$> related)).
Proof.
  induction entities as [|e entities IH]; intros acc related H Hnd.
  - cbn in H. injection H as <-. repeat split; try done; [by left|].
    intros e o He. by apply elem_of_nil in He.
  - cbn in H. destruct (dict_get name (obj_rels e)) as [[|o1|os]|] eqn:Hrel; [| | |done].
    + destruct (IH _ _ H Hnd) as (H1 & H2 & H3 & H4). repeat split; [done| |done|].
      * intros o Ho. destruct (H2 _ Ho) as [?|(e' & He' & Hr)]; [by left|].
        right. exists e'. split; [by right|done].
      * intros e' o [->|He']%elem_of_cons Hr; [|by eapply H4].
        unfold related_through in Hr. by rewrite Hrel in Hr.
    + destruct (set_add_spec o1 acc Hnd) as (Hnd1 & Hs1 & Hk1 & Hid1).
      destruct (IH _ _ H Hnd1) as (H1 & H2 & H3 & H4). repeat split; [done| | |].
      * intros o Ho. destruct (H2 _ Ho) as [Hacc|(e' & He' & Hr)].
        -- destruct (Hs1 _ Hacc) as [?| ->]; [by left|]. right. exists e.
           split; [by left|]. unfold related_through. by rewrite Hrel.
        -- right. exists e'. split; [by right|done].
      * intros o Ho. by apply H3, Hk1.
      * intros e' o [->|He']%elem_of_cons Hr; [|by eapply H4].
        unfold related_through in Hr. rewrite Hrel in Hr. subst o.
        apply list_elem_of_fmap in Hid1 as (o2 & Heq & Hin2).
        rewrite Heq. apply list_elem_of_fmap. exists o2. split; [done|].
        by apply H3.
    + destruct (set_update_spec os acc Hnd) as (Hnd1 & Hs1 & Hk1 & Hid1).
      destruct (IH _ _ H Hnd1) as (H1 & H2 & H3 & H4). repeat split; [done| | |].
      * intros o Ho. destruct (H2 _ Ho) as [Hacc|(e' & He' & Hr)].
        -- destruct (Hs1 _ Hacc) as [?|Hos]; [by left|]. right. exists e.
           split; [by left|]. unfold related_through. by rewrite Hrel.
        -- right. exists e'. split; [by right|done].
      * intros o Ho. by apply H3, Hk1.
      * intros e' o [->|He']%elem_of_cons Hr; [|by eapply H4].
        unfold related_through in Hr. rewrite Hrel in Hr.
        apply Hid1 in Hr.
        apply list_elem_of_fmap in Hr as (o2 & Heq & Hin2).
        rewrite Heq. apply list_elem_of_fmap. exists o2. split; [done|].
        by apply H3.
Qed.

Lemma Forall_dict_set {V} (P : string * V -> Prop) k v (d : list (string * V)) :
  P (k, v) -> Forall P d -> Forall P (dict_set k v d).
Proof.
  intros Hkv. induction 1 as [|[k0 v0] d H0 Hd IH]; cbn.
  - by constructor.
  - destruct (String.eqb k k0); by constructor.
Qed.

Section MoreRelationFacts.
Variable getattr : string -> string -> option attribute.
Variable all_orm_descriptors : string -> list (string * attribute).
Variable primary_key : string -> list string.
Variable local_attr_readable : string -> string -> bool.

Lemma serialize_relations_loop_shape rec model_class entities conf meta kvs :
  forall relations rels,
    serialize_relations_loop getattr all_orm_descriptors primary_key local_attr_readable rec
      model_class entities conf meta kvs relations = Ok rels ->
    NoDup (relations.*1 ++ kvs.*1) ->
    exists new, rels = relations ++ new /\ new.*1 = kvs.*1
      /\ forall name items nested m, (name, RelRec items nested m) ∈ new ->
           (is_Some m <-> meta = true)
           /\ exists related,
                collect_relation_items name entities [] = Ok related
                /\ length items = length related.
Proof.
  induction kvs as [|[name mask] kvs IH]; intros relations rels Hs Hnd.
  - cbn in Hs. injection Hs as <-. exists []. rewrite app_nil_r.
    repeat split; try done; by apply elem_of_nil in H.
  - cbn in Hs.
    destruct (getattr_or_raise getattr model_class name) as [attr|]; [|done].
    cbn in Hs. destruct (relationship_of attr) as [p|]; [|done].
    cbn in Hs. destruct (get_pk_column primary_key (rel_class p)) as [pk|]; [|done].
    cbn in Hs.
    destruct (relation_meta all_orm_descriptors local_attr_readable model_class attr p pk) as [m|] eqn:Hm;
      [|done].
    cbn in Hs.
    destruct (collect_relation_items name entities []) as [related|] eqn:Hc; [|done].
    cbn in Hs. destruct (rec (rel_class p) related mask) as [nested|] eqn:Hn; [|done].
    cbn in Hs. destruct (res_mapM _ related) as [ser|] eqn:Hser; [|done].
    cbn in Hs.
    assert (dict_get name relations = None) as Habsent.
    { apply dict_get_None. intros Hin. cbn in Hnd.
      apply NoDup_app in Hnd as (_ & Hdis & _). apply (Hdis _ Hin). by left. }
    rewrite dict_set_absent in Hs by done.
    apply IH in Hs as (new & -> & Hkeys & Hrec).
    + eexists (_ :: new). split; [by rewrite <- app_assoc|].
      split; [cbn; by rewrite Hkeys|].
      intros name' items nested' m' [[= -> -> -> ->]|Hin]%elem_of_cons;
        [|by apply (Hrec _ _ nested')].
      split.
      * destruct meta; split; intros Hmeta;
          [done|by eexists|by destruct Hmeta|done].
      * exists related. split; [done|]. by apply res_mapM_length in Hser.
    + rewrite fmap_app. cbn in *. rewrite <- app_assoc. done.
Qed.

(** X15. What [serialize_relations] returns for a mask: one record per name of
    the mask, in the order of the mask; [_meta] is there exactly when it
    was asked for; and the items of a record are one per related object,
    the objects that the entities share being counted once. *)
Theorem one_record_per_name (model_class : string) (entities : list obj)
    (kvs : list (string * pyval)) (conf : fields_conf) (meta : bool)
    (rels : list (string * relrec)) :
  serialize_relations getattr all_orm_descriptors primary_key local_attr_readable
    model_class entities (PDict kvs) conf meta = Ok rels ->
  NoDup kvs.*1 ->
  rels.*1 = kvs.*1
  /\ forall name items nested m, (name, RelRec items nested m) ∈ rels ->
       (is_Some m <-> meta = true)
       /\ exists related,
            collect_relation_items name entities [] = Ok related
            /\ length items = length related
            /\ NoDup (obj_id <$> related)
            /\ (forall o, o ∈ related ->
                  exists e, e ∈ entities /\ related_through name e o)
            /\ (forall e o, e ∈ entities -> related_through name e o ->
                  obj_id o ∈ (obj_id <$> related)).
Proof.
  intros Hs Hnd. cbn in Hs.
  apply serialize_relations_loop_shape in Hs as (new & -> & Hkeys & Hrec); [|done].
  cbn. split; [done|]. intros name items nested m Hin.
  destruct (Hrec _ _ _ _ Hin) as (Hm & related & Hc & Hlen).
  split; [done|]. exists related.
  destruct (collect_relation_items_spec _ _ _ _ Hc) as (H1 & H2 & _ & H4);
    [constructor|].
  repeat split; try done.
  intros o Ho. destruct (H2 _ Ho) as [Hnil|?]; [by apply elem_of_nil in Hnil|done].
Qed.

(** X16. A relationship that [get_many_relations] lifts is never folded into
    the entities: [_meta] marks a relationship for lifting when it is
    many-to-many, or many-to-one with a list, and [serialize] leaves the
    map of an entity as it is for such a record. *)
Theorem lifted_relation_is_not_inlined (model_class : string)
    (relation_attr : attribute) (p : relationship_property) (relation_pk : string)
    (m : relmeta) :
  relation_meta all_orm_descriptors local_attr_readable model_class relation_attr p relation_pk = Ok m ->
  is_many m = match rel_direction p with
              | MANYTOMANY => true
              | MANYTOONE => rel_uselist p
              | ONETOMANY => false
              end
  /\ (is_many m = true ->
      forall item k items nested,
        serialize_relation item k (RelRec items nested (Some m)) = Ok item).
Proof.
  unfold relation_meta. intros H.
  destruct (rel_direction p) eqn:Hd; cbn in H;
    [| |destruct (find_association_proxy _ _ _ _); [cbn in H|done]];
    injection H as <-; unfold is_many, serialize_relation; cbn;
    destruct (rel_uselist p); cbn; (split; [done|]); try done;
    intros _ item k items nested;
    repeat match goal with |- context [if ?b then _ else _] => destruct b end;
    done.
Qed.

Lemma serialize_relations_loop_forall (Q : relrec -> Prop)
    rec model_class entities conf (meta : bool) (kvs : list (string * pyval)) :
  (forall items nested m c e (name : string) (mask : pyval),
     (name, mask) ∈ kvs -> rec c e mask = Ok nested ->
     Q (RelRec items nested (if meta then Some m else None))) ->
  forall relations rels,
    serialize_relations_loop getattr all_orm_descriptors primary_key local_attr_readable rec
      model_class entities conf meta kvs relations = Ok rels ->
    Forall (fun kv => Q kv.2) relations ->
    Forall (fun kv => Q kv.2) rels.
Proof.
  induction kvs as [|[name mask] kvs IH]; intros HQ relations rels Hs Hacc.
  - cbn in Hs. by injection Hs as <-.
  - cbn in Hs.
    destruct (getattr_or_raise getattr model_class name) as [attr|]; [|done].
    cbn in Hs. destruct (relationship_of attr) as [p|]; [|done].
    cbn in Hs. destruct (get_pk_column primary_key (rel_class p)) as [pk|]; [|done].
    cbn in Hs.
    destruct (relation_meta all_orm_descriptors local_attr_readable model_class attr p pk) as [m|];
      [|done].
    cbn in Hs.
    destruct (collect_relation_items name entities []) as [related|]; [|done].
    cbn in Hs. destruct (rec (rel_class p) related mask) as [nested|] eqn:Hn; [|done].
    cbn in Hs. destruct (res_mapM _ related) as [ser|]; [|done].
    cbn in Hs. apply IH in Hs; [done| |].
    + intros items nested' m' c e name' mask' Hin. apply (HQ _ _ _ _ _ name').
      by right.
    + apply Forall_dict_set; [|done]. cbn.
      by apply (HQ _ _ _ (rel_class p) related name mask ltac:(by left)).
Qed.

Lemma serialize_relations_has_meta include_mask :
  forall model_class entities conf rels,
    serialize_relations getattr all_orm_descriptors primary_key local_attr_readable
      model_class entities include_mask conf true = Ok rels ->
    Forall (fun kv => has_meta kv.2 = true) rels.
Proof.
  induction include_mask as [| | | |s|l _|kvs IH] using pyval_ind';
    intros model_class entities conf rels Hs; try done.
  - destruct s; [|done]. cbn in Hs. injection Hs as <-. constructor.
  - destruct l; [|done]. cbn in Hs. injection Hs as <-. constructor.
  - cbn in Hs.
    eapply (serialize_relations_loop_forall (fun v => has_meta v = true));
      [|done|constructor].
    intros items nested m c e name mask Hin Hr. cbn in Hr |- *.
    apply forallb_forall. intros kv Hkv%list_elem_of_In.
    rewrite Forall_forall in IH.
    pose proof (IH (name, mask) Hin _ _ _ _ Hr) as Hall.
    rewrite Forall_forall in Hall. by apply Hall.
Qed.

(** X17. The records that [serialize_relations] builds when it is asked for
    [_meta] can be handed to [get_many_relations]: every record has its
    [_meta], at any depth, and the lifter returns. *)
Theorem records_with_meta_can_be_lifted (model_class : string)
    (entities : list obj) (include_mask : pyval) (conf : fields_conf)
    (rels : list (string * relrec)) :
  serialize_relations getattr all_orm_descriptors primary_key local_attr_readable
    model_class entities include_mask conf true = Ok rels ->
  forallb (fun kv => has_meta kv.2) rels = true
  /\ exists many_rels, get_many_relations rels = Ok many_rels.
Proof.
  intros Hs. apply serialize_relations_has_meta in Hs.
  rewrite Forall_forall in Hs.
  assert (forallb (fun kv => has_meta kv.2) rels = true) as Hm.
  { apply forallb_forall. intros kv Hkv%list_elem_of_In. by apply Hs. }
  split; [done|]. unfold get_many_relations.
  destruct (lift_loop_lifted lift_record rels)
    with (src := fun (_ : string) (_ : pyval) => False)
         (many_rels := @nil (string * list pyval)) as (many & Hmany & _).
  - apply Forall_forall. intros [k v] Hin src m Hl. cbn.
    apply lift_record_lifted; [|done]. by apply (Hs (k, v)).
  - apply lifted_empty.
  - by exists many.
Qed.

(** X18. Without [_meta], which is what [serialize_relations] leaves out by
    default, the records are of no use to the other two functions: when
    there is a record at all, [get_many_relations] raises [KeyError] and
    [serialize] raises [AttributeError]. *)
Theorem records_without_meta_are_rejected (model_class : string)
    (entities : list obj) (kvs : list (string * pyval)) (conf : fields_conf)
    (rels : list (string * relrec)) :
  serialize_relations getattr all_orm_descriptors primary_key local_attr_readable
    model_class entities (PDict kvs) conf false = Ok rels ->
  kvs <> [] ->
  rels <> []
  /\ get_many_relations rels = Raise (KeyError "_meta")
  /\ forall model conf' ret,
       serialize getattr all_orm_descriptors model conf' [] = Ok ret ->
       serialize getattr all_orm_descriptors model conf' rels
       = Raise (AttributeError "'NoneType' object has no attribute 'get'").
Proof.
  intros Hs Hkvs.
  assert (Forall (fun kv => rec_meta kv.2 = None) rels) as Hnone.
  { cbn in Hs.
    eapply (serialize_relations_loop_forall (fun v => rec_meta v = None));
      [|done|constructor]. done. }
  assert (rels <> []) as Hne.
  { cbn in Hs. destruct kvs as [|[name mask] kvs]; [done|]. clear Hkvs Hnone.
    cbn in Hs.
    destruct (getattr_or_raise getattr model_class name) as [attr|]; [|done].
    cbn in Hs. destruct (relationship_of attr) as [p|]; [|done].
    cbn in Hs. destruct (get_pk_column primary_key (rel_class p)) as [pk|]; [|done].
    cbn in Hs.
    destruct (relation_meta all_orm_descriptors local_attr_readable model_class attr p pk) as [m|];
      [|done].
    cbn in Hs.
    destruct (collect_relation_items name entities []) as [related|]; [|done].
    cbn in Hs.
    destruct (serialize_relations _ _ _ _ (rel_class p) related mask conf true)
      as [nested|]; [|done].
    cbn in Hs. destruct (res_mapM _ related) as [ser|]; [|done].
    cbn in Hs. intros ->.
    assert (forall kvs' acc,
      acc <> [] ->
      serialize_relations_loop getattr all_orm_descriptors primary_key
        local_attr_readable
        (fun c e mask => serialize_relations getattr all_orm_descriptors
                           primary_key local_attr_readable c e mask conf true)
        model_class entities conf false kvs' acc <> Ok []) as Hloop.
    { clear. induction kvs' as [|[name mask] kvs' IH]; intros acc Hacc.
      - cbn. by intros [= ->].
      - cbn.
        destruct (getattr_or_raise getattr model_class name) as [attr|]; [|done].
        cbn. destruct (relationship_of attr) as [p|]; [|done].
        cbn. destruct (get_pk_column primary_key (rel_class p)) as [pk|]; [|done].
        cbn.
        destruct (relation_meta all_orm_descriptors local_attr_readable model_class attr p pk) as [m|];
          [|done].
        cbn. destruct (collect_relation_items name entities []) as [related|]; [|done].
        cbn.
        destruct (serialize_relations _ _ _ _ (rel_class p) related mask conf true)
          as [nested|]; [|done].
        cbn. destruct (res_mapM _ related) as [ser|]; [|done].
        cbn. apply IH. by destruct acc as [|[k0 v0] acc]; cbn;
          [|destruct (String.eqb name k0)]. }
    by eapply Hloop in Hs. }
  split; [done|].
  destruct rels as [|[k [items nested meta]] rels]; [done|].
  apply Forall_cons in Hnone as [Hmeta _]. cbn in Hmeta. subst meta.
  split; [done|]. intros model conf' ret Hret. unfold serialize in *.
  destruct (serialize_fields _ _ _ _ _ _) as [r|]; [|done]. done.
Qed.

Lemma find_association_proxy_loop_none model_class descriptors relation :
  (forall key o k l r, (key, AssociationProxy o k l r) ∈ descriptors ->
     local_attr_readable model_class key = true
     /\ same_attribute l relation = false) ->
  exists msg,
    find_association_proxy_loop local_attr_readable model_class descriptors relation
    = Raise (ValueError msg).
Proof.
  induction descriptors as [|[key d] descriptors IH]; intros Hno.
  - by eexists.
  - assert (exists msg,
      find_association_proxy_loop local_attr_readable model_class descriptors relation
      = Raise (ValueError msg)) as Hrest.
    { apply IH. intros key' o k l r Hin. apply (Hno key' o k l r). by right. }
    destruct d as [| |o k l r|]; cbn; try done.
    destruct (Hno key o k l r ltac:(by left)) as [-> ->]. done.
Qed.

Lemma find_association_proxy_loop_unreadable model_class before key o k l r after
    relation :
  Forall (fun kd => is_association_proxy kd.2 = false) before ->
  local_attr_readable model_class key = false ->
  find_association_proxy_loop local_attr_readable model_class
    (before ++ (key, AssociationProxy o k l r) :: after) relation
  = Ok PNone.
Proof.
  intros Hbefore Hkey. induction Hbefore as [|[key' d] before Hd _ IH]; cbn.
  - by rewrite Hkey.
  - by destruct d.
Qed.

(** X19. What a name of the mask must be for [serialize_relations] to go
    on, whatever the entities are: an attribute of the class, a
    relationship, to a class with exactly one primary-key column. For a
    many-to-many relationship the association proxies of the class are
    searched: when the local attribute of each can be read and none is the
    relationship, [ValueError] is raised; when the first proxy is one whose
    local attribute cannot be read, the search ends there with [None], which
    becomes the [fk] of [_meta]. *)
Theorem relation_must_be_serializable (model_class : string)
    (entities : list obj) (name : string) (sub : pyval)
    (rest : list (string * pyval)) (conf : fields_conf) (meta : bool) :
  let result := serialize_relations getattr all_orm_descriptors primary_key
                  local_attr_readable
                  model_class entities (PDict ((name, sub) :: rest)) conf meta in
  (getattr model_class name = None -> exists msg, result = Raise (AttributeError msg))
  /\ (forall a, getattr model_class name = Some a ->
        (forall o k p, a <> RelationshipAttr o k p) ->
        exists msg, result = Raise (AttributeError msg))
  /\ (forall o k p, getattr model_class name = Some (RelationshipAttr o k p) ->
        length (primary_key (rel_class p)) <> 1 ->
        result = Raise (ValueError "Ambiguous primary key"))
  /\ (forall o k p, getattr model_class name = Some (RelationshipAttr o k p) ->
        length (primary_key (rel_class p)) = 1 ->
        rel_direction p = MANYTOMANY ->
        (forall key o' k' l r,
           (key, AssociationProxy o' k' l r) ∈ all_orm_descriptors model_class ->
           local_attr_readable model_class key = true
           /\ same_attribute l (RelationshipAttr o k p) = false) ->
        exists msg, result = Raise (ValueError msg))
  /\ (forall p relation_attr relation_pk before key o' k' l r after,
        rel_direction p = MANYTOMANY ->
        all_orm_descriptors model_class
        = before ++ (key, AssociationProxy o' k' l r) :: after ->
        Forall (fun kd => is_association_proxy kd.2 = false) before ->
        local_attr_readable model_class key = false ->
        exists m,
          relation_meta all_orm_descriptors local_attr_readable
            model_class relation_attr p relation_pk = Ok m
          /\ meta_fk m = PNone /\ meta_fk_pair m = PNone /\ meta_m2m m = true).
Proof.
  intros result. subst result. cbn. unfold getattr_or_raise.
  split; [|split; [|split; [|split]]].
  - intros ->. by eexists.
  - intros a -> Ha. cbn. destruct a as [|o k p| |]; cbn; try by eexists.
    by destruct (Ha o k p).
  - intros o k p -> Hpk. cbn. unfold get_pk_column.
    destruct (primary_key (rel_class p)) as [|pk [|pk' pks]]; try done.
  - intros o k p -> Hpk Hd Hno. cbn. unfold get_pk_column.
    destruct (primary_key (rel_class p)) as [|pk [|pk' pks]]; try done.
    cbn. unfold relation_meta. rewrite Hd. cbn. unfold find_association_proxy.
    destruct (find_association_proxy_loop_none _ _ _ Hno) as [msg ->]. by eexists.
  - intros p relation_attr relation_pk before key o' k' l r after Hd Hdesc Hbefore Hkey.
    unfold relation_meta. rewrite Hd. cbn. unfold find_association_proxy.
    rewrite Hdesc, find_association_proxy_loop_unreadable by done. cbn.
    eexists. split; [done|]. done.
Qed.

End MoreRelationFacts.

(** * More about the inclusion mask *)

Lemma py_eq_refl v : py_wf v = true -> py_eq v v = true.
Proof.
  induction v as [|b|z|q|s|l IH|d IH] using pyval_ind'; intros Hwf.
  - done.
  - cbn. by apply Qeq_bool_iff.
  - cbn. by apply Qeq_bool_iff.
  - cbn. by apply Qeq_bool_iff.
  - cbn. apply String.eqb_refl.
  - cbn in Hwf. induction IH as [|x l Hx _ IHl]; [done|].
    cbn in Hwf. apply andb_true_iff in Hwf as [H1 H2].
    cbn. apply andb_true_iff. split; [by apply Hx|by apply IHl].
  - cbn in Hwf. apply andb_true_iff in Hwf as [Hnd Hw].
    apply bool_decide_eq_true in Hnd.
    apply py_eq_dict_entries. split; [done|]. intros k v Hin.
    exists v. split; [by apply elem_dict_get|].
    rewrite Forall_forall in IH. apply (IH (k, v) Hin).
    rewrite forallb_forall in Hw. apply (Hw (k, v)). by apply list_elem_of_In.
Qed.

Lemma suffixes_dots include key t :
  t ∈ suffixes include key -> count_dots t < max_dots include.
Proof.
  intros (item & Hin & Hs)%elem_of_suffixes.
  apply split_dot1_Some in Hs as (_ & _ & Hc).
  pose proof (max_dots_elem _ _ Hin). lia.
Qed.

Lemma get_include_mask_wf n : forall include,
  max_dots include < n -> py_wf (get_include_mask include) = true.
Proof.
  induction n as [|n IH]; intros include Hn; [lia|].
  destruct (get_include_mask_lookup include) as (mask & -> & Hnd & Hlook).
  cbn. apply andb_true_iff. split; [by apply bool_decide_eq_true|].
  apply forallb_forall. intros [k v] Hin%list_elem_of_In.
  apply (elem_dict_get _ _ _ Hnd) in Hin. rewrite Hlook in Hin. cbn.
  destruct (decide (suffixes include k = ∅)) as [|Hne].
  - destruct (is_bare_path include k); [|done]. by injection Hin as <-.
  - injection Hin as <-. apply IH.
    apply set_choose_L in Hne as [t0 Ht0].
    apply max_dots_bound; [pose proof (suffixes_dots _ _ _ Ht0); lia|].
    intros t Ht%elem_of_elements. pose proof (suffixes_dots _ _ _ Ht). lia.
Qed.

Lemma is_bare_path_elem include key :
  is_bare_path include key = true <-> key ∈ include /\ has_dot key = false.
Proof.
  unfold is_bare_path. rewrite existsb_exists. split.
  - intros (item & Hin & H). apply andb_true_iff in H as [Hd He].
    apply String.eqb_eq in He as ->. apply negb_true_iff in Hd.
    split; [by apply list_elem_of_In|done].
  - intros [Hin Hd]. exists key. split; [by apply list_elem_of_In|].
    by rewrite Hd, String.eqb_refl.
Qed.

(** X20. The mask depends on the paths that the list holds, not on their order
    nor on how often each is there: two lists with the same paths give
    masks that are equal as Python dicts. *)
Theorem include_mask_ignores_order (include1 include2 : list string) :
  (forall item, item ∈ include1 <-> item ∈ include2) ->
  py_eq (get_include_mask include1) (get_include_mask include2) = true.
Proof.
  intros Hsame.
  assert (forall key, suffixes include1 key = suffixes include2 key) as Hsuf.
  { intros key. apply set_eq. intros t. rewrite !elem_of_suffixes.
    split; intros (item & Hin & Hs); exists item; (split; [by apply Hsame|done]). }
  assert (forall key, is_bare_path include1 key = is_bare_path include2 key) as Hbare.
  { intros key. apply eq_true_iff_eq. rewrite !is_bare_path_elem.
    by rewrite Hsame. }
  pose proof (get_include_mask_wf (S (max_dots include1)) include1 ltac:(lia)) as Hwf.
  destruct (get_include_mask_lookup include1) as (m1 & Hm1 & Hnd1 & Hl1).
  destruct (get_include_mask_lookup include2) as (m2 & Hm2 & Hnd2 & Hl2).
  rewrite Hm1 in Hwf. rewrite Hm1, Hm2.
  assert (forall key, dict_get key m1 = dict_get key m2) as Hlook.
  { intros key. by rewrite Hl1, Hl2, Hsuf, Hbare. }
  apply py_eq_dict_entries. split.
  - rewrite <- (length_fmap fst m1), <- (length_fmap fst m2).
    apply Permutation_length, NoDup_Permutation; [done..|].
    intros k. destruct (dict_get k m1) eqn:H1.
    + split; intros _; apply dict_keys_elem; eexists; apply dict_get_elem;
        [by rewrite <- Hlook|done].
    + pose proof H1 as H2. rewrite Hlook in H2.
      apply dict_get_None in H1, H2. tauto.
  - intros k v Hin. exists v.
    split; [rewrite <- Hlook; by apply elem_dict_get|].
    apply py_eq_refl. cbn in Hwf. apply andb_true_iff in Hwf as [_ Hw].
    rewrite forallb_forall in Hw. apply (Hw (k, v)). by apply list_elem_of_In.
Qed.

(** * The validator of the included relations *)

Section InclusionFacts.
Variable getattr : string -> string -> option attribute.

Lemma joinedload_chain_ok parts : forall o k p load,
  (forall i, i < length parts -> exists o' k' p',
     resolve_from getattr (RelationshipAttr o k p) (take (S i) parts)
     = Some (RelationshipAttr o' k' p')) ->
  exists load', joinedload_chain getattr p load parts = Ok load'
    /\ length load' = length load + length parts.
Proof.
  induction parts as [|part parts IH]; intros o k p load Hres.
  - exists load. split; [done|]. simpl. lia.
  - destruct (Hres 0) as (o' & k' & p' & H0); [simpl; lia|].
    cbn in H0. cbn. unfold relationships.
    destruct (getattr (rel_class p) part) as [a|] eqn:Hget; [|done].
    destruct a as [|o1 k1 p1| |]; cbn in H0; try done. cbn.
    destruct (IH o1 k1 p1 (load ++ [RelationshipAttr o1 k1 p1])) as (load' & -> & Hlen).
    + intros i Hi. destruct (Hres (S i)) as (o2 & k2 & p2 & HS); [simpl; lia|].
      cbn in HS. rewrite Hget in HS. eauto.
    + exists load'. split; [done|]. rewrite Hlen, length_app. simpl. lia.
Qed.

Lemma joinedload_chain_sound parts : forall o k p load load',
  joinedload_chain getattr p load parts = Ok load' ->
  forall i, i < length parts -> exists o' k' p',
    resolve_from getattr (RelationshipAttr o k p) (take (S i) parts)
    = Some (RelationshipAttr o' k' p').
Proof.
  induction parts as [|part parts IH]; intros o k p load load' H i Hi;
    [simpl in Hi; lia|].
  cbn in H. unfold relationships in H.
  destruct (getattr (rel_class p) part) as [a|] eqn:Hget; [|done].
  destruct a as [|o1 k1 p1| |]; try done. cbn in H.
  destruct i as [|i]; cbn; rewrite Hget; [by eauto|].
  eapply IH; [done|]. simpl in Hi. lia.
Qed.

Lemma joinedload_chain_raise parts : forall p load e,
  joinedload_chain getattr p load parts = Raise e -> exists name, e = KeyError name.
Proof.
  induction parts as [|part parts IH]; intros p load e H; [done|].
  cbn in H. unfold relationships in H.
  destruct (getattr (rel_class p) part) as [[|o1 k1 p1| |]|]; cbn in H;
    try (injection H as <-; by eexists).
  by eapply IH.
Qed.

Lemma included_item_spec model item :
  match included_item getattr model item with
  | Ok load =>
      relationship_path getattr model (split_dot item)
      /\ length load = length (split_dot item)
  | Raise e =>
      (exists name, e = KeyError name)
      /\ ~ relationship_path getattr model (split_dot item)
  end.
Proof.
  unfold included_item, relationship_path.
  pose proof (split_dot_nonempty item) as Hne.
  destruct (split_dot item) as [|f0 fs]; [done|]. clear Hne. cbn [hd tail].
  unfold relationships.
  destruct (getattr model f0) as [a|] eqn:Hget; cbn.
  - destruct a as [|o k p| |]; cbn;
      try (split; [by eexists|]; intros H;
           destruct (H 0) as (o' & k' & p' & H0); [simpl; lia|];
           cbn in H0; by rewrite Hget in H0).
    destruct (joinedload_chain getattr p _ fs) as [load|e] eqn:Hc.
    + split.
      * intros [|i] Hi; cbn; rewrite Hget; [by eauto|].
        eapply joinedload_chain_sound; [done|]. simpl in Hi. lia.
      * destruct (joinedload_chain_ok fs o k p [RelationshipAttr o k p])
          as (load' & Hl & Hlen).
        { intros i Hi. eapply joinedload_chain_sound; done. }
        rewrite Hc in Hl. injection Hl as <-. simpl in *. lia.
    + split; [by eapply joinedload_chain_raise|]. intros H.
      destruct (joinedload_chain_ok fs o k p [RelationshipAttr o k p])
        as (load' & Hl & _); [|by rewrite Hc in Hl].
      intros i Hi. destruct (H (S i)) as (o' & k' & p' & HS); [simpl; lia|].
      cbn in HS. rewrite Hget in HS. eauto.
  - split; [by eexists|]. intros H.
    destruct (H 0) as (o' & k' & p' & H0); [simpl; lia|].
    cbn in H0. by rewrite Hget in H0.
Qed.

Lemma included_items_spec model (items : list string) :
  match res_mapM (fun item =>
          match item with
          | PStr s => included_item getattr model s
          | _ => Raise (AttributeError "object has no attribute 'split'")
          end) (map PStr items) with
  | Ok options =>
      Forall (fun item => relationship_path getattr model (split_dot item)) items
      /\ Forall2 (fun item load => length load = length (split_dot item))
           items options
  | Raise e =>
      (exists name, e = KeyError name)
      /\ ~ Forall (fun item => relationship_path getattr model (split_dot item)) items
  end.
Proof.
  induction items as [|item items IH]; cbn.
  - split; constructor.
  - pose proof (included_item_spec model item) as Hitem.
    destruct (included_item getattr model item) as [load|e]; cbn.
    + destruct Hitem as [Hp Hl].
      destruct (res_mapM _ (map PStr items)) as [options|e]; cbn.
      * destruct IH as [IH1 IH2]. split; by constructor.
      * destruct IH as [IH1 IH2]. split; [done|].
        intros [_ H]%Forall_cons. by apply IH2.
    + destruct Hitem as [He Hn]. split; [done|].
      intros [H _]%Forall_cons. by apply Hn.
Qed.

Lemma forallb_is_str l :
  forallb is_str l = true <-> exists items, l = map PStr items.
Proof.
  split.
  - induction l as [|x l IH]; intros H; [by exists []|].
    cbn in H. apply andb_true_iff in H as [Hx Hl].
    destruct x; try done. destruct (IH Hl) as [items ->]. by exists (s :: items).
  - intros [items ->]. by induction items.
Qed.

Lemma map_PStr_inj (l1 l2 : list string) : map PStr l1 = map PStr l2 -> l1 = l2.
Proof.
  revert l2. induction l1 as [|x l1 IH]; intros [|y l2] H; try done.
  cbn in H. injection H as -> H. by rewrite (IH _ H).
Qed.

(** X21. The list of included relations is accepted exactly when it is a list
    of strings each of which is a path of relationships from the model;
    the result then has one load per path, which joins one attribute per
    segment, and the list itself. Anything else is a [ValueError]. *)
Theorem included_relations_are_validated (model : string) (parsed : pyval) :
  match included_relations_parse getattr model parsed with
  | Ok (options, parsed') =>
      parsed' = parsed
      /\ exists items, parsed = PList (map PStr items)
           /\ Forall (fun item => relationship_path getattr model (split_dot item))
                items
           /\ Forall2 (fun item load => length load = length (split_dot item))
                items options
  | Raise e =>
      (exists msg, e = ValueError msg)
      /\ forall items, parsed = PList (map PStr items) ->
           ~ Forall (fun item => relationship_path getattr model (split_dot item))
               items
  end.
Proof.
  unfold included_relations_parse.
  destruct parsed as [| | | | |l|]; try (split; [by eexists|done]).
  destruct (forallb is_str l) eqn:Hstr.
  - apply forallb_is_str in Hstr as [items ->].
    pose proof (included_items_spec model items) as Hspec.
    destruct (res_mapM _ (map PStr items)) as [options|e].
    + destruct Hspec as [H1 H2]. split; [done|]. by exists items.
    + destruct Hspec as [[name ->] Hn]. split; [by eexists|].
      intros items' [= Heq]. apply map_PStr_inj in Heq as <-. done.
  - split; [by eexists|]. intros items [= ->].
    assert (forallb is_str (map PStr items) = true) as Ht
      by (apply forallb_is_str; by eexists).
    by rewrite Hstr in Ht.
Qed.

End InclusionFacts.

(** * The arguments of a request parser *)

Section RequestParserFacts.
Variable Argument : Type.
Variable arg_name : Argument -> string.

Lemma count_named_cons name arg args :
  count_named Argument arg_name name (arg :: args)
  = (if String.eqb name (arg_name arg) then 1 else 0)
    + count_named Argument arg_name name args.
Proof.
  unfold count_named. rewrite filter_cons.
  destruct (String.eqb name (arg_name arg)); cbn;
    destruct (decide _) as [H|H]; try done; by destruct H.
Qed.

Lemma count_named_app name args1 args2 :
  count_named Argument arg_name name (args1 ++ args2)
  = count_named Argument arg_name name args1
    + count_named Argument arg_name name args2.
Proof. unfold count_named. by rewrite filter_app, length_app. Qed.

(** X22. [remove_argument] deletes one argument, the first of that name, and
    only that: the arguments of other names stay, in their order, a second
    argument of the same name stays too, and a parser without the name is
    left as it is. Removing an argument that was just added to a parser
    without the name gives the parser back. *)
Theorem remove_argument_removes_first (name : string) (args : list Argument) :
  (count_named Argument arg_name name args = 0 ->
   remove_argument Argument arg_name name args = args)
  /\ (0 < count_named Argument arg_name name args ->
      exists before arg after,
        args = before ++ arg :: after /\ arg_name arg = name
        /\ count_named Argument arg_name name before = 0
        /\ remove_argument Argument arg_name name args = before ++ after)
  /\ (forall other,
        count_named Argument arg_name other
          (remove_argument Argument arg_name name args)
        = count_named Argument arg_name other args
          - (if String.eqb other name then 1 else 0))
  /\ (forall arg, arg_name arg = name ->
        count_named Argument arg_name name args = 0 ->
        remove_argument Argument arg_name name (args ++ [arg]) = args).
Proof.
  split; [|split; [|split]].
  - induction args as [|arg args IH]; [done|].
    rewrite count_named_cons. cbn.
    destruct (String.eqb name (arg_name arg)); [done|]. intros H.
    by rewrite IH.
  - induction args as [|arg args IH]; [unfold count_named; simpl; lia|].
    rewrite count_named_cons. cbn.
    destruct (String.eqb_spec name (arg_name arg)) as [Heq|Hne].
    + intros _. exists [], arg, args. by repeat split.
    + intros H. destruct IH as (before & a & after & -> & Ha & Hb & Hr); [lia|].
      exists (arg :: before), a, after. repeat split; [done| |by rewrite Hr].
      rewrite count_named_cons, Hb.
      by destruct (String.eqb_spec name (arg_name arg)).
  - intros other. induction args as [|arg args IH].
    + unfold count_named. simpl. lia.
    + cbn [remove_argument].
      destruct (String.eqb_spec name (arg_name arg)) as [Heq|Hne].
      * rewrite count_named_cons. subst name.
        destruct (String.eqb other (arg_name arg)); lia.
      * rewrite !count_named_cons, IH.
        destruct (String.eqb_spec other (arg_name arg)) as [->|].
        -- destruct (String.eqb_spec (arg_name arg) name) as [Heq|]; [|lia].
           by destruct Hne.
        -- destruct (String.eqb_spec other name); lia.
  - intros arg Harg. induction args as [|a args IH].
    + intros _. cbn. by rewrite Harg, String.eqb_refl.
    + rewrite count_named_cons. cbn.
      destruct (String.eqb name (arg_name a)); [done|]. intros H.
      by rewrite IH.
Qed.

(** X23. [replace_argument] keeps the number of arguments, and the number of
    those of each name. In a parser that has the name, the first argument
    of that name goes and the new one comes last, after all the others;
    in a parser without the name nothing changes: the new argument is not
    added. *)
Theorem replace_argument_moves_to_end (new_arg : Argument) (args : list Argument) :
  let name := arg_name new_arg in
  length (replace_argument Argument arg_name new_arg args) = length args
  /\ (forall other,
        count_named Argument arg_name other
          (replace_argument Argument arg_name new_arg args)
        = count_named Argument arg_name other args)
  /\ (count_named Argument arg_name name args = 0 ->
      replace_argument Argument arg_name new_arg args = args)
  /\ (0 < count_named Argument arg_name name args ->
      replace_argument Argument arg_name new_arg args
      = remove_argument Argument arg_name name args ++ [new_arg]).
Proof.
  intros name. subst name. split; [|split; [|split]].
  - induction args as [|arg args IH]; [done|]. cbn.
    destruct (String.eqb _ _); cbn; [|by rewrite IH].
    rewrite length_app. simpl. lia.
  - intros other. induction args as [|arg args IH]; [done|].
    cbn [replace_argument].
    destruct (String.eqb_spec (arg_name new_arg) (arg_name arg)) as [Heq|Hne].
    + rewrite count_named_app, !count_named_cons, Heq.
      unfold count_named at 2. simpl. lia.
    + by rewrite !count_named_cons, IH.
  - induction args as [|arg args IH]; [done|].
    rewrite count_named_cons. cbn.
    destruct (String.eqb _ _); [done|]. intros H. by rewrite IH.
  - induction args as [|arg args IH]; [unfold count_named; simpl; lia|].
    rewrite count_named_cons. cbn.
    destruct (String.eqb _ _); [done|]. intros H. cbn. by rewrite IH.
Qed.

End RequestParserFacts.

(** * The response of a list resource *)

Lemma result_update_lookup many_rels : forall result k,
  NoDup many_rels.*1 ->
  dict_get k (result_update many_rels result)
  = match dict_get k many_rels with
    | Some vals => Some (PList vals)
    | None => dict_get k result
    end.
Proof.
  induction many_rels as [|[k0 v0] many_rels IH]; intros result k Hnd; [done|].
  cbn in Hnd. apply NoDup_cons in Hnd as [Hk0 Hnd].
  cbn. unfold result_update in IH. rewrite IH by done.
  destruct (String.eqb_spec k k0) as [->|Hne].
  - apply dict_get_None in Hk0. by rewrite Hk0, dict_get_set_eq.
  - rewrite dict_get_set_ne by done. done.
Qed.

Lemma result_update_nodup many_rels : forall result,
  NoDup result.*1 -> NoDup (result_update many_rels result).*1.
Proof.
  induction many_rels as [|[k0 v0] many_rels IH]; intros result Hnd; [done|].
  cbn. apply IH. by apply dict_set_nodup.
Qed.

Section ResourceFacts.
Variable getattr : string -> string -> option attribute.
Variable all_orm_descriptors : string -> list (string * attribute).
Variable primary_key : string -> list string.
Variable local_attr_readable : string -> string -> bool.

(** X24. The result of a list resource. It is built whenever the relations and
    the entities can be serialized: lifting the many relations cannot fail.
    It has the serialized entities, one per entity, under the name of the
    table, and the list of each lifted relation under the name of the
    relation, a relation named like the table taking the place of the
    entities. *)
Theorem list_result_shape (table model_class : string) (conf : fields_conf)
    (results : list obj) (include : list string)
    (relations : list (string * relrec)) (items : list pyval) :
  resource_serialize_relations getattr all_orm_descriptors primary_key local_attr_readable
    model_class conf results include = Ok relations ->
  res_mapM (fun x => do d <- serialize getattr all_orm_descriptors x conf relations;
                     Ok (PDict d)) results = Ok items ->
  exists many_rels result,
    get_many_relations relations = Ok many_rels
    /\ list_result getattr all_orm_descriptors primary_key local_attr_readable
         table model_class conf results include = Ok result
    /\ length items = length results
    /\ NoDup result.*1
    /\ forall k, dict_get k result
         = match dict_get k many_rels with
           | Some vals => Some (PList vals)
           | None => if String.eqb k table then Some (PList items) else None
           end.
Proof.
  intros Hrel Hitems. unfold resource_serialize_relations in Hrel.
  pose proof (serialize_relations_has_meta _ _ _ _ _ _ _ _ _ Hrel) as Hmeta.
  rewrite Forall_forall in Hmeta.
  destruct (lift_loop_lifted lift_record relations)
    with (src := fun (_ : string) (_ : pyval) => False)
         (many_rels := @nil (string * list pyval)) as (many & Hmany & Hnd & _).
  { apply Forall_forall. intros [k v] Hin src m Hl. cbn.
    apply lift_record_lifted; [|done]. by apply (Hmeta (k, v)). }
  { apply lifted_empty. }
  exists many, (result_update many [(table, PList items)]).
  split; [done|]. split.
  - unfold list_result, resource_serialize_relations. rewrite Hrel. cbn.
    rewrite Hitems. cbn. unfold get_many_relations. by rewrite Hmany.
  - split; [by apply res_mapM_length in Hitems|].
    split.
    + apply result_update_nodup. cbn. apply NoDup_singleton.
    + intros k. by rewrite result_update_lookup.
Qed.

End ResourceFacts.

(** * More statements on the example schema *)

Lemma document_is_conjunction_of_parts_witness :
  get_filter_expr shop_getattr "Order" (PDict ([("id", PInt 1)] ++ [("nope", PInt 5)]))
  = (do e1 <- get_filter_expr shop_getattr "Order" (PDict [("id", PInt 1)]);
     do e2 <- get_filter_expr shop_getattr "Order" (PDict [("nope", PInt 5)]);
     Ok (EAnd (clauses e1 ++ clauses e2))).
Proof.
  apply (document_is_conjunction_of_parts shop_getattr "Order"
           [("id", PInt 1)] [("nope", PInt 5)]).
Defined.

Lemma scalar_operand_is_eq_witness :
  get_filter_expr shop_getattr "Order" (PDict [("customer.name", PStr "Ann")])
  = get_filter_expr shop_getattr "Order"
      (PDict [("customer.name", PDict [("$eq", PStr "Ann")])]).
Proof.
  apply (scalar_operand_is_eq shop_getattr "Order" (ColumnAttr "Order" "id") None
           "customer.name" (PStr "Ann") []); reflexivity.
Defined.

Lemma not_not_is_identity_witness :
  exists e e',
    get_filter_expr shop_getattr "Order" (PDict [("id", PInt 1)]) = Ok e
    /\ get_filter_expr shop_getattr "Order"
         (PDict [("$not", PDict [("$not", PDict [("id", PInt 1)])])]) = Ok e'
    /\ same_reading e' e /\ well_rendered e = true.
Proof.
  destruct (not_not_is_identity shop_getattr "Order" (ColumnAttr "Order" "id")
              None (PDict [("id", PInt 1)])) as [Hlaw _].
  destruct (Hlaw (get_filter_expr shop_getattr "Order") (or_introl eq_refl))
    as [_ Hok].
  destruct (Hok _ eq_refl) as (e' & He' & Hsame & _).
  eexists _, e'. split; [reflexivity|]. split; [exact He'|].
  split; [apply Hsame; reflexivity|reflexivity].
Defined.

Lemma not_or_is_and_of_nots_witness :
  exists e1 e2,
    get_filter_expr shop_getattr "Order"
      (PDict [("$not", PDict [("$or", PList [PDict [("id", PInt 1)];
                                              PDict [("customer_id", PInt 5)]])])])
    = Ok e1
    /\ get_filter_expr shop_getattr "Order"
         (PDict [("$and", PList [PDict [("$not", PDict [("id", PInt 1)])];
                                 PDict [("$not", PDict [("customer_id", PInt 5)])]])])
       = Ok e2
    /\ same_reading e1 e2 /\ well_rendered e1 = true.
Proof.
  destruct (not_or_is_and_of_nots shop_getattr "Order"
              [PDict [("id", PInt 1)]; PDict [("customer_id", PInt 5)]])
    as [_ Hok].
  destruct (Hok _ eq_refl) as (e1 & e2 & H1 & H2 & Hsame & _).
  exists e1, e2. split; [exact H1|]. split; [exact H2|].
  split.
  - apply Hsame; [discriminate|]. repeat constructor.
  - vm_compute in H1. injection H1 as <-. reflexivity.
Defined.

Lemma nin_is_not_in_witness :
  get_attribute_filter_expr shop_getattr (ColumnAttr "Order" "id")
    (PDict [("$nin", PList [PInt 1; PInt 2])]) None
  = Ok (EAnd [ENot (EPrim OpIn (ColumnAttr "Order" "id") (PList [PInt 1; PInt 2]))])
  /\ get_attribute_filter_expr shop_getattr (ColumnAttr "Order" "id")
       (PDict [("$nin", PInt 5)]) None
     = Raise (TypeError "object is not iterable")
  /\ get_attribute_filter_expr shop_getattr (ColumnAttr "Order" "id")
       (PDict [("$not", PDict [("$in", PInt 5)])]) None
     = Raise (TypeError "object is not iterable").
Proof.
  split.
  - destruct (nin_is_not_in shop_getattr (ColumnAttr "Order" "id") None
                (PList [PInt 1; PInt 2]) eq_refl) as (_ & Hok & _).
    exact (proj1 (Hok _ eq_refl)).
  - destruct (nin_is_not_in shop_getattr (ColumnAttr "Order" "id") None
                (PInt 5) eq_refl) as (_ & _ & Hbad).
    exact (Hbad _ eq_refl).
Defined.

Lemma operator_must_fit_attribute_witness :
  get_filter_expr shop_getattr "Order" (PDict [("customer", PInt 5)])
  = Raise (ValueError "Can't use primitive operator '$eq' on 'customer': not a column")
  /\ get_filter_expr shop_getattr "Order"
       (PDict [("id", PDict [("$any", PDict [])])])
     = Raise (ValueError
         "Can't use '$any' operator on 'id': not a *-to-many relation nor association proxy").
Proof.
  split.
  - destruct (operator_must_fit_attribute shop_getattr "Order" "customer"
                (RelationshipAttr "Order" "customer"
                   (many_to_one "Customer" "customer_id" "id")) []
                eq_refl eq_refl) as [Hprim _].
    destruct (Hprim eq_refl) as [Hplain _].
    exact (Hplain (PInt 5) eq_refl).
  - destruct (operator_must_fit_attribute shop_getattr "Order" "id"
                (ColumnAttr "Order" "id") [] eq_refl eq_refl) as [_ Hrel].
    exact (Hrel (or_introl eq_refl) "$any" (PDict []) [] eq_refl).
Defined.

Lemma filter_path_through_relations_witness :
  exists msg,
    get_filter_expr shop_getattr "Order" (PDict [("items.sku", PStr "A1")])
    = Raise (ValueError msg).
Proof.
  apply (filter_path_through_relations shop_getattr "Order" "items.sku"
           (PStr "A1") [] 0
           (RelationshipAttr "Order" "items" (one_to_many "Item" "id" "order_id"))).
  - repeat constructor.
  - vm_compute. lia.
  - reflexivity.
  - right. eexists _, _, _. split; [reflexivity|discriminate].
Defined.

Lemma compilation_terminates_witness :
  get_filter_expr_fuel shop_getattr 7 "Order"
    (PDict [("customer.region.name", PStr "EU")])
  = Some (get_filter_expr shop_getattr "Order"
            (PDict [("customer.region.name", PStr "EU")])).
Proof.
  apply (compilation_terminates shop_getattr 7 "Order" (ColumnAttr "Order" "id") None
           (PDict [("customer.region.name", PStr "EU")])).
  vm_compute. lia.
Defined.

Lemma one_join_per_dot_witness :
  exists orderings joins,
    get_order_by shop_getattr "Order"
      (PList [PStr "customer.region.name"; PStr "-customer.name"; PStr "id"])
    = Ok (orderings, joins)
    /\ length orderings = 3 /\ length joins = 3
    /\ NoDup (map join_alias joins).
Proof.
  eexists _, _. split; [vm_compute; reflexivity|].
  destruct (one_join_per_dot shop_getattr "Order"
              [PStr "customer.region.name"; PStr "-customer.name"; PStr "id"]
              _ _ eq_refl) as (H1 & H2 & _ & H4).
  split; [exact H1|]. split; [exact H2|exact H4].
Defined.

Lemma ordering_path_must_end_at_column_witness :
  get_order_by shop_getattr "Order" (PStr "-customer")
  = Raise (ValueError "'customer' is not a column")
  /\ exists msg,
       get_order_by shop_getattr "Order" (PStr "id.name") = Raise (ValueError msg).
Proof.
  split.
  - destruct (ordering_path_must_end_at_column shop_getattr "Order" "-customer"
                "customer" (-1)%Z eq_refl) as (_ & Hrel & _).
    apply (Hrel "Order" "customer" (many_to_one "Customer" "customer_id" "id")).
    + intros j Hj. vm_compute in Hj. lia.
    + reflexivity.
  - destruct (ordering_path_must_end_at_column shop_getattr "Order" "id.name"
                "id.name" 1%Z eq_refl) as (_ & _ & Hcol).
    apply (Hcol 0 "Order" "id").
    + vm_compute. lia.
    + reflexivity.
Defined.

Lemma ordering_sign_witness :
  get_order_by shop_getattr "Order" (PStr ("+" +:+ "customer.name"))
  = get_order_by shop_getattr "Order" (PStr "customer.name")
  /\ get_order_by shop_getattr "Order" (PStr ("-" +:+ "customer.name"))
     = (do (orderings, joins) <- get_order_by shop_getattr "Order"
                                   (PStr "customer.name");
        Ok (map flip_ordering orderings, joins)).
Proof.
  apply (ordering_sign shop_getattr "Order" "customer.name"). reflexivity.
Defined.

Lemma serialized_fields_are_selected_witness :
  serialize shop_getattr shop_descriptors order_1
    {| fc_exclude := [("Order", ["customer_id"])]; fc_fields := [] |} []
  = Ok [("id", PInt 1)]
  /\ (dict_mem "customer_id" [("id", PInt 1)] = true <->
      field_selected {| fc_exclude := [("Order", ["customer_id"])]; fc_fields := [] |}
        (obj_class order_1) "customer_id" = true
      /\ exists key d, (key, d) ∈ shop_descriptors (obj_class order_1) /\
           (is_association_proxy d = true /\ "customer_id" = key
            \/ is_column d = true /\ "customer_id" = attribute_key d)).
Proof.
  split; [reflexivity|].
  apply (serialized_fields_are_selected shop_getattr shop_descriptors order_1
           {| fc_exclude := [("Order", ["customer_id"])]; fc_fields := [] |}
           [("id", PInt 1)] "customer_id").
  reflexivity.
Defined.

Lemma one_to_many_is_attached_witness :
  serialize shop_getattr shop_descriptors order_1 no_conf
    [("items",
      RelRec [PDict [("id", PInt 7); ("order_id", PInt 1)];
              PDict [("id", PInt 8); ("order_id", PInt 2)];
              PDict [("id", PInt 9); ("order_id", PInt 1)]]
        []
        (Some {| meta_pk := "id"; meta_fk := PStr "id"; meta_fk_pair := PStr "order_id";
                 meta_m2m := false; meta_o2o := false; meta_m2o := false;
                 meta_o2m := true |}))]
  = Ok [("id", PInt 1); ("customer_id", PInt 5);
        ("items", PList [PDict [("id", PInt 7); ("order_id", PInt 1)];
                         PDict [("id", PInt 9); ("order_id", PInt 1)]])].
Proof.
  rewrite (one_to_many_is_attached shop_getattr shop_descriptors order_1 no_conf
             "items" "id" "order_id" _ [("id", PInt 1); ("customer_id", PInt 5)]).
  - reflexivity.
  - reflexivity.
  - reflexivity.
  - reflexivity.
  - reflexivity.
  - discriminate.
  - reflexivity.
  - discriminate.
  - discriminate.
  - reflexivity.
  - repeat constructor.
Defined.

Lemma missing_join_field_raises_witness :
  serialize shop_getattr shop_descriptors order_1
    {| fc_exclude := [("Order", ["customer_id"])]; fc_fields := [] |}
    [("customer", RelRec [PDict [("name", PStr "Ann")]] [] (Some customer_meta))]
  = Raise (KeyError "customer_id").
Proof.
  apply (missing_join_field_raises shop_getattr shop_descriptors order_1
           {| fc_exclude := [("Order", ["customer_id"])]; fc_fields := [] |}
           "customer" "customer_id" "id" customer_meta [("id", PInt 1)]
           [("name", PStr "Ann")] [] [] []).
  - reflexivity.
  - reflexivity.
  - reflexivity.
  - discriminate.
  - reflexivity.
  - discriminate.
  - reflexivity.
  - reflexivity.
Defined.

Lemma one_record_per_name_witness :
  exists rels,
    serialize_relations shop_getattr shop_descriptors shop_primary_key shop_readable
      "Order" [order_1; order_2] (PDict [("customer", PDict []); ("items", PDict [])])
      no_conf true = Ok rels
    /\ rels.*1 = ["customer"; "items"]
    /\ forall items nested m, ("customer", RelRec items nested m) ∈ rels ->
         length items = 1.
Proof.
  eexists. split; [vm_compute; reflexivity|].
  destruct (one_record_per_name shop_getattr shop_descriptors shop_primary_key shop_readable
              "Order" [order_1; order_2]
              [("customer", PDict []); ("items", PDict [])] no_conf true _ eq_refl)
    as [Hkeys Hrec].
  { repeat constructor; [|by intros H%elem_of_nil].
    intros [H|H]%elem_of_cons; [discriminate H|by apply elem_of_nil in H]. }
  split; [exact Hkeys|]. intros items nested m Hin.
  destruct (Hrec _ _ _ _ Hin) as (_ & related & Hc & Hlen & _).
  vm_compute in Hc. injection Hc as <-. exact Hlen.
Defined.

Lemma lifted_relation_is_not_inlined_witness :
  is_many tags_meta = true
  /\ serialize_relation [("id", PInt 1)] "tags"
       (RelRec [PDict [("id", PInt 7)]] [] (Some tags_meta))
     = Ok [("id", PInt 1)].
Proof.
  split; [reflexivity|].
  apply (lifted_relation_is_not_inlined
           (fun _ => [("tag_ids",
                       AssociationProxy "Post" "tag_ids"
                         (RelationshipAttr "Post" "tags"
                            {| rel_direction := MANYTOMANY; rel_class := "Tag";
                               rel_uselist := true; rel_local_columns := ["id"];
                               rel_local_remote_pairs := [("id", "post_id")] |})
                         (ColumnAttr "Tag" "id"))])
           (fun _ _ => true) "Post"
           (RelationshipAttr "Post" "tags"
              {| rel_direction := MANYTOMANY; rel_class := "Tag";
                 rel_uselist := true; rel_local_columns := ["id"];
                 rel_local_remote_pairs := [("id", "post_id")] |})
           {| rel_direction := MANYTOMANY; rel_class := "Tag";
              rel_uselist := true; rel_local_columns := ["id"];
              rel_local_remote_pairs := [("id", "post_id")] |}
           "id" tags_meta).
  - reflexivity.
  - reflexivity.
Defined.

Lemma records_with_meta_can_be_lifted_witness :
  exists rels many_rels,
    serialize_relations shop_getattr shop_descriptors shop_primary_key shop_readable
      "Order" [order_1; order_2] (get_include_mask ["customer.region"; "items"])
      no_conf true = Ok rels
    /\ get_many_relations rels = Ok many_rels.
Proof.
  eexists.
  destruct (records_with_meta_can_be_lifted shop_getattr shop_descriptors
              shop_primary_key shop_readable "Order" [order_1; order_2]
              (get_include_mask ["customer.region"; "items"]) no_conf _
              ltac:(vm_compute; reflexivity)) as [_ [many Hmany]].
  exists many. split; [vm_compute; reflexivity|exact Hmany].
Defined.

Lemma records_without_meta_are_rejected_witness :
  exists rels,
    serialize_relations shop_getattr shop_descriptors shop_primary_key shop_readable
      "Order" [order_1; order_2] (PDict [("customer", PDict [])]) no_conf false
    = Ok rels
    /\ get_many_relations rels = Raise (KeyError "_meta")
    /\ serialize shop_getattr shop_descriptors order_1 no_conf rels
       = Raise (AttributeError "'NoneType' object has no attribute 'get'").
Proof.
  eexists. split; [vm_compute; reflexivity|].
  destruct (records_without_meta_are_rejected shop_getattr shop_descriptors
              shop_primary_key shop_readable "Order" [order_1; order_2]
              [("customer", PDict [])] no_conf _ eq_refl ltac:(discriminate))
    as (_ & Hlift & Hser).
  split; [exact Hlift|]. apply (Hser order_1 no_conf _ eq_refl).
Defined.

Lemma relation_must_be_serializable_witness :
  (exists msg,
     serialize_relations shop_getattr shop_descriptors shop_primary_key shop_readable
       "Order" [order_1] (PDict [("nope", PDict [])]) no_conf true
     = Raise (AttributeError msg))
  /\ serialize_relations shop_getattr shop_descriptors (fun _ => ["id"; "rev"])
       shop_readable "Order" [order_1] (PDict [("customer", PDict [])]) no_conf true
     = Raise (ValueError "Ambiguous primary key").
Proof.
  split.
  - destruct (relation_must_be_serializable shop_getattr shop_descriptors
                shop_primary_key shop_readable "Order" [order_1] "nope" (PDict []) []
                no_conf true) as (Hunknown & _).
    apply Hunknown. reflexivity.
  - destruct (relation_must_be_serializable shop_getattr shop_descriptors
                (fun _ => ["id"; "rev"]) shop_readable "Order" [order_1] "customer"
                (PDict []) [] no_conf true) as (_ & _ & Hpk & _).
    apply (Hpk "Order" "customer" (many_to_one "Customer" "customer_id" "id")).
    + reflexivity.
    + simpl. lia.
Defined.

Lemma include_mask_ignores_order_witness :
  py_eq (get_include_mask ["a"; "b.c"; "b.d"])
        (get_include_mask ["b.d"; "a"; "b.c"; "a"]) = true.
Proof.
  apply (include_mask_ignores_order ["a"; "b.c"; "b.d"] ["b.d"; "a"; "b.c"; "a"]).
  intros item. rewrite !elem_of_cons. pose proof (elem_of_nil item). tauto.
Defined.

Lemma included_relations_are_validated_witness :
  exists options,
    included_relations_parse shop_getattr "Order"
      (PList [PStr "customer.region"; PStr "items"])
    = Ok (options, PList [PStr "customer.region"; PStr "items"])
    /\ Forall (fun item => relationship_path shop_getattr "Order" (split_dot item))
         ["customer.region"; "items"].
Proof.
  pose proof (included_relations_are_validated shop_getattr "Order"
                (PList [PStr "customer.region"; PStr "items"])) as H.
  destruct (included_relations_parse shop_getattr "Order" _)
    as [[options parsed']|e] eqn:Hp; [|discriminate Hp].
  destruct H as (-> & items & Hitems & Hpaths & _).
  exists options. split; [reflexivity|].
  injection Hitems as Hitems.
  destruct items as [|i1 [|i2 [|i3 items]]]; try discriminate Hitems.
  injection Hitems as <- <-. exact Hpaths.
Defined.

Lemma remove_argument_removes_first_witness :
  0 < count_named (string * nat) fst "limit"
        [("where", 0); ("limit", 1); ("offset", 2); ("limit", 3)]
  /\ exists before arg after,
       [("where", 0); ("limit", 1); ("offset", 2); ("limit", 3)]
       = before ++ arg :: after
       /\ fst arg = "limit"
       /\ count_named (string * nat) fst "limit" before = 0
       /\ remove_argument (string * nat) fst "limit"
            [("where", 0); ("limit", 1); ("offset", 2); ("limit", 3)]
          = before ++ after.
Proof.
  assert (0 < count_named (string * nat) fst "limit"
                [("where", 0); ("limit", 1); ("offset", 2); ("limit", 3)]) as Hpos
    by (vm_compute; lia).
  split; [exact Hpos|].
  destruct (remove_argument_removes_first (string * nat) fst "limit"
              [("where", 0); ("limit", 1); ("offset", 2); ("limit", 3)])
    as (_ & Hfirst & _).
  exact (Hfirst Hpos).
Defined.

Lemma replace_argument_moves_to_end_witness :
  replace_argument (string * nat) fst ("limit", 9)
    [("where", 0); ("limit", 1); ("offset", 2)]
  = remove_argument (string * nat) fst "limit"
      [("where", 0); ("limit", 1); ("offset", 2)] ++ [("limit", 9)]
  /\ replace_argument (string * nat) fst ("count", 9)
       [("where", 0); ("limit", 1); ("offset", 2)]
     = [("where", 0); ("limit", 1); ("offset", 2)].
Proof.
  split.
  - destruct (replace_argument_moves_to_end (string * nat) fst ("limit", 9)
                [("where", 0); ("limit", 1); ("offset", 2)]) as (_ & _ & _ & Hmove).
    apply Hmove. vm_compute. lia.
  - destruct (replace_argument_moves_to_end (string * nat) fst ("count", 9)
                [("where", 0); ("limit", 1); ("offset", 2)]) as (_ & _ & Hsame & _).
    apply Hsame. reflexivity.
Defined.

Lemma list_result_shape_witness :
  exists result,
    list_result shop_getattr shop_descriptors shop_primary_key shop_readable
      "orders" "Order" no_conf [order_1; order_2] ["customer"] = Ok result
    /\ NoDup result.*1
    /\ exists items, dict_get "orders" result = Some (PList items) /\ length items = 2.
Proof.
  edestruct (list_result_shape shop_getattr shop_descriptors shop_primary_key shop_readable
               "orders" "Order" no_conf [order_1; order_2] ["customer"])
    as (many & result & Hmany & Hresult & Hlen & Hnd & Hlook).
  - vm_compute. reflexivity.
  - vm_compute. reflexivity.
  - exists result. split; [exact Hresult|]. split; [exact Hnd|].
    vm_compute in Hmany. injection Hmany as <-.
    specialize (Hlook "orders"). cbn in Hlook.
    eexists. split; [exact Hlook|exact Hlen].
Defined.
